(** * backupy: the path tree, its visibility filter and the configuration
      round trip

    A shallow embedding of [backupy.py].  Python objects live in a store (a
    list of records); a reference to a [BackupPath] is its position in that
    store, so that the in-place updates a child performs on its ancestors
    are visible through every alias, as in the source.  Code that may raise
    runs in a state-and-exception monad. *)

From Stdlib Require Import ZArith Lia String Ascii DecimalString Sorted.
From stdpp Require Import base numbers list strings.

Set Default Proof Using "Type".

(** ** Exceptions and the state monad *)

Inductive exn : Type :=
| IOError_no_config     (* "No config file found for ... Please run 'backupy build' first" *)
| NotADirectoryError    (* [iterdir] on something that is not a directory *)
| StopIteration         (* [rd.__next__()] on an empty file *)
| ValueError            (* [int(b)], [relative_to] *)
| KeyError              (* a missing ["."] entry *)
| ZeroDivisionError     (* [bp.size / self.size_total] *)
| RecursionError        (* the recursion budget of the model is used up *)
| DanglingReference.    (* a reference to an object that was never allocated *)

Inductive result (A : Type) : Type :=
| Ok (a : A)
| Raise (e : exn).
Arguments Ok {A} a.
Arguments Raise {A} e.

Definition M (S A : Type) : Type := S -> result A * S.

Definition ret {S A} (a : A) : M S A := fun s => (Ok a, s).

Definition raise {S A} (e : exn) : M S A := fun s => (Raise e, s).

Definition bind {S A B} (m : M S A) (k : A -> M S B) : M S B :=
  fun s => match m s with
           | (Ok a, s') => k a s'
           | (Raise e, s') => (Raise e, s')
           end.

Definition get {S} : M S S := fun s => (Ok s, s).

Definition put {S} (s : S) : M S unit := fun _ => (Ok tt, s).

Definition lift {S A} (r : result A) : M S A := fun s => (r, s).

Notation "x <- m ;; k" := (bind m (fun x => k))
  (at level 100, m at next level, right associativity).
Notation "m ;;; k" := (bind m (fun _ => k))
  (at level 100, right associativity).

(** ** The filesystem

    A [pathlib.Path] is the list of its parts.  What the filesystem holds at
    a path is an [entry]: a regular file with its [st_size], or a directory
    with the names [iterdir] reports, in the order it reports them. *)

Abbreviation Path := (list string).

#[warnings="-register-all"]
Inductive entry : Type :=
| File (st_size : Z)
| Dir (listing : list (string * entry)).

Definition is_dir (e : entry) : bool :=
  match e with Dir _ => true | File _ => false end.

Definition is_file (e : entry) : bool :=
  match e with File _ => true | Dir _ => false end.

Definition getsize (e : entry) : Z :=
  match e with File s => s | Dir _ => 0%Z end.

Definition iterdir (e : entry) : result (list (string * entry)) :=
  match e with Dir l => Ok l | File _ => Raise NotADirectoryError end.

(** ** [sorted(..., key=...)]: a stable sort by key *)

Section Sorted.
Context {A K : Type} (le : K -> K -> bool) (key : A -> K).

Fixpoint insert_by (x : A) (l : list A) : list A :=
  match l with
  | [] => [x]
  | y :: l' => if le (key x) (key y) then x :: l else y :: insert_by x l'
  end.

Definition sorted (l : list A) : list A := foldr insert_by [] l.
End Sorted.

(** [str.lower()] as it acts on ASCII text: on the letters A to Z.  Python
    lower-cases letters outside ASCII too; what is stated of the order of
    the walk is stated for ASCII names. *)
Definition lower_ascii (c : ascii) : ascii :=
  let n := nat_of_ascii c in
  if (65 <=? n)%nat && (n <=? 90)%nat then ascii_of_nat (n + 32) else c.

Fixpoint lower (s : string) : string :=
  match s with
  | EmptyString => EmptyString
  | String c s' => String (lower_ascii c) (lower s')
  end.

(** [sort_key = lambda s: (s.is_file() if dir_first else s.is_dir(),
    str(s).lower())].  Siblings share the parent's part of [str(s)], so the
    name decides. *)
Definition sort_key (dir_first : bool) (s : string * entry) : bool * string :=
  (if dir_first then is_file s.2 else is_dir s.2, lower s.1).

(** Python's order on such tuples: [False < True], then the strings. *)
Definition key_le (k1 k2 : bool * string) : bool :=
  match k1.1, k2.1 with
  | false, true => true
  | true, false => false
  | _, _ => String.leb k1.2 k2.2
  end.

(** ** class BackupPath *)

Record BackupPath : Type := mkBackupPath {
  path : Path;
  parent : option nat;       (* a reference into the store, or [None] *)
  is_last : bool;
  is_visible : bool;
  size : Z;
  n_files : Z;
  depth : Z;
  backup : bool;
  path_is_dir : bool         (* what [self.path.is_dir()] answers *)
}.

Abbreviation store := (list BackupPath).

(** [self.path.is_file()]: the tree holds regular files and directories. *)
Definition path_is_file (bp : BackupPath) : bool := negb (path_is_dir bp).

Definition set_size (v : Z) (bp : BackupPath) : BackupPath :=
  mkBackupPath (path bp) (parent bp) (is_last bp) (is_visible bp) v
               (n_files bp) (depth bp) (backup bp) (path_is_dir bp).

Definition set_n_files (v : Z) (bp : BackupPath) : BackupPath :=
  mkBackupPath (path bp) (parent bp) (is_last bp) (is_visible bp) (size bp)
               v (depth bp) (backup bp) (path_is_dir bp).

Definition set_backup (v : bool) (bp : BackupPath) : BackupPath :=
  mkBackupPath (path bp) (parent bp) (is_last bp) (is_visible bp) (size bp)
               (n_files bp) (depth bp) v (path_is_dir bp).

(** Reading and updating the object behind a reference. *)
Definition deref (r : nat) : M store BackupPath :=
  fun st => match st !! r with
            | Some bp => (Ok bp, st)
            | None => (Raise DanglingReference, st)
            end.

Definition update (r : nat) (f : BackupPath -> BackupPath) : M store unit :=
  fun st => (Ok tt, alter f r st).

(** The body of the [while prnt is not None] loop of [__init__]:
    [prnt.size += child.size], [prnt.n_files += 1 if child.path.is_file()
    else 0], [prnt.backup |= self.backup]. *)
Definition absorb (child prnt : BackupPath) : BackupPath :=
  set_backup (backup prnt || backup child)
    (set_n_files (n_files prnt + (if path_is_file child then 1 else 0))
       (set_size (size prnt + size child) prnt)).

(** [child] is bound to [self] once and never advanced, so every ancestor
    absorbs the new node itself. *)
Fixpoint update_parents (fuel : nat) (prnt : option nat) (self : nat)
  : M store unit :=
  match prnt with
  | None => ret tt
  | Some p =>
      match fuel with
      | O => raise RecursionError
      | S fuel' =>
          child <- deref self ;;
          pn <- deref p ;;
          update p (absorb child) ;;;
          update_parents fuel' (parent pn) self
      end
  end.

(** [BackupPath.__init__].  The new object is allocated at the end of the
    store; [backup] is the last attribute assigned, and the two filters only
    read attributes assigned before it. *)
Definition BackupPath_init (pth : Path) (e : entry) (parent_path : option nat)
    (is_last : bool) (namefilter sizefilter : nat -> M store bool)
  : M store nat :=
  st <- get ;;
  let self := length st in
  d <- match parent_path with
       | Some p => pn <- deref p ;; ret (depth pn + 1)%Z
       | None => ret 0%Z
       end ;;
  put (st ++ [mkBackupPath pth parent_path is_last true
                (if is_dir e then 0%Z else getsize e)
                (if is_file e then 1%Z else 0%Z)
                d false (is_dir e)]) ;;;
  nf <- namefilter self ;;
  b <- (if nf then sizefilter self else ret false) ;;
  update self (set_backup b) ;;;
  update_parents (length st) parent_path self ;;;
  ret self.

(** The closure [func] that [make_namefilter] returns. *)
Fixpoint func (include exclude : list Path) (fuel : nat) (st : store)
    (bp : nat) : result bool :=
  match fuel with
  | O => Raise RecursionError
  | S fuel' =>
      match st !! bp with
      | None => Raise DanglingReference
      | Some b =>
          if bool_decide (path b ∈ include) then Ok true
          else if bool_decide (path b ∈ exclude) then Ok false
          else match parent b with
               | Some p => func include exclude fuel' st p
               | None => Ok true
               end
      end
  end.

Definition make_namefilter (include exclude : list Path) (bp : nat)
  : M store bool :=
  st <- get ;; lift (func include exclude (length st) st bp).

(** The lambda [make_tree] binds to [sizefilter]. *)
Definition sizefilter (filemax : Z) : nat -> M store bool :=
  if (0 <? filemax)%Z
  then fun s => bp <- deref s ;; ret (size bp <? filemax)%Z
  else fun _ => ret true.

(** [for path in children] with the running [count]; the nodes the body
    yields are collected in order. *)
Fixpoint for_children {A} (body : Z -> A -> M store (list nat)) (count : Z)
    (l : list A) : M store (list nat) :=
  match l with
  | [] => ret []
  | x :: l' =>
      ys <- body count x ;;
      zs <- for_children body (count + 1)%Z l' ;;
      ret (ys ++ zs)
  end.

(** [BackupPath.make_tree]: the generator, run to exhaustion.  The result is
    the list of references it yields, in order. *)
Fixpoint make_tree (fuel : nat) (root : Path) (e : entry) (parent : option nat)
    (is_last dir_first : bool) (include exclude : list Path) (filemax : Z)
  : M store (list nat) :=
  match fuel with
  | O => raise RecursionError
  | S fuel' =>
      let sizefilter := sizefilter filemax in
      backup_root <- BackupPath_init root e parent is_last
                       (make_namefilter include exclude) sizefilter ;;
      listing <- lift (iterdir e) ;;
      let children := sorted key_le (sort_key dir_first) listing in
      rest <- for_children
        (fun count (child : string * entry) =>
           let pth := root ++ [child.1] in
           let is_last := (count =? Z.of_nat (length children))%Z in
           if is_dir child.2
           then make_tree fuel' pth child.2 (Some backup_root) is_last
                  dir_first include exclude filemax
           else r <- BackupPath_init pth child.2 (Some backup_root) is_last
                       (make_namefilter include exclude) sizefilter ;;
                ret [r])
        1%Z children ;;
      ret (backup_root :: rest)
  end.

(** The recursion depth [make_tree] needs on a tree. *)
Fixpoint height (e : entry) : nat :=
  match e with
  | File _ => 0
  | Dir l =>
      S ((fix go (l : list (string * entry)) : nat :=
            match l with
            | [] => 0
            | c :: l' => Nat.max (height c.2) (go l')
            end) l)
  end.

(** ** class BackupPathStructure *)

Definition max_display : nat := 1000.

Record BackupPathStructure : Type := mkBackupPathStructure {
  root : Path;
  dir_first : bool;
  include : list Path;
  exclude : list Path;
  show : Z;
  filemax : Z;
  backuppaths : store;       (* the yielded objects; a reference is a position *)
  sizedist : list Z;
  max_depth_display : Z;
  max_depth_is : Z;
  size_total : Z
}.

Definition set_backuppaths (v : store) (s : BackupPathStructure)
  : BackupPathStructure :=
  mkBackupPathStructure (root s) (dir_first s) (include s) (exclude s) (show s)
    (filemax s) v (sizedist s) (max_depth_display s) (max_depth_is s)
    (size_total s).

Definition sum (l : list Z) : Z := foldr Z.add 0%Z l.

(** [BackupPathStructure.__init__].  The generator is consumed whole; every
    object it allocates is yielded once, in allocation order, so the final
    store is [self.backuppaths].  A file's [size] no longer changes after it
    is yielded, so [sizedist] can be read off the final store.  The numeric
    options, floats when they come from the command line, are integers
    here.  [size_highlight], a numpy quantile used only to colour the
    output, is left out, and with it what numpy does on an empty list: on a
    tree without any file the source fails there, so what is stated of a
    construction that returns is stated for a tree that holds a file. *)
Definition BackupPathStructure_init (root : Path) (fs : entry)
    (include exclude : list Path) (show filemax max_depth : Z)
    (dir_first : bool) : result BackupPathStructure :=
  match make_tree (S (height fs)) root fs None false dir_first
          include exclude filemax [] with
  | (Raise e, _) => Raise e
  | (Ok _, st) =>
      let dist := sorted (fun a b => (b <=? a)%Z) id
                    (size <$> filter (fun bp => path_is_file bp = true) st) in
      Ok (mkBackupPathStructure root dir_first include exclude show filemax
            st dist max_depth
            (foldl (fun m bp => Z.max m (depth bp)) 0%Z st)
            (sum dist))
  end.

(** A [for] loop threading its local variables [acc]. *)
Fixpoint for_each {S A B} (body : A -> B -> M S B) (l : list A) (acc : B)
  : M S B :=
  match l with
  | [] => ret acc
  | x :: l' => acc' <- body x acc ;; for_each body l' acc'
  end.

Definition nth_backuppath (i : nat) : M BackupPathStructure BackupPath :=
  self <- get ;;
  lift (match backuppaths self !! i with
        | Some bp => Ok bp
        | None => Raise DanglingReference
        end).

(** One entry of the lists [scan] returns: [names_raw], the size that
    [sizes] and [sizep] render, and [backup]. *)
Record scan_row : Type := mkRow {
  names_raw : Path;
  row_size : Z;
  row_backup : bool
}.

(** The condition under which the loop of [scan] says [continue].  The
    subscript [sizedist[max_display]] is only evaluated behind the length
    test, so the value chosen for a missing index is never used. *)
Definition skipped (self : BackupPathStructure) (display : bool)
    (bp : BackupPath) : bool :=
  let explicit := bool_decide (path bp ∈ include self ++ exclude self) in
  negb explicit &&
  ((max_depth_display self <? depth bp)%Z && (-1 <? max_depth_display self)%Z
   || (display && (max_display <? length (sizedist self))%nat
       && (size bp <=? default 0%Z (sizedist self !! max_display))%Z)).

(** The body of [for bp in self.backuppaths]. *)
Definition scan_step (display : bool) (i : nat) (rows : list scan_row)
  : M BackupPathStructure (list scan_row) :=
  bp <- nth_backuppath i ;;
  self <- get ;;
  let explicit := bool_decide (path bp ∈ include self ++ exclude self) in
  if skipped self display bp then ret rows
  else if bool_decide (path bp = root self) || (show self <? size bp)%Z
          || explicit
  then if (size_total self =? 0)%Z then raise ZeroDivisionError
       else ret (rows ++ [mkRow (path bp) (size bp) (backup bp)])
  else ret rows.

(** [BackupPathStructure.scan].  [sizeannotate] and [ansi_highlight] only
    change how a name is rendered; with [display] the source returns the
    rendered names of the same rows. *)
Definition scan (sizeannotate : Z) (display ansi_highlight : bool)
  : M BackupPathStructure (list scan_row) :=
  self <- get ;;
  for_each (scan_step display) (seq 0 (length (backuppaths self))) [].

(** ** The configuration file *)

(** A line of the csv file as the reader splits it: the header, or a row
    with its [backup] column read as an integer and its last column as a
    path.  The text of the file (delimiter, escape character, padding) is
    not modelled. *)
Inductive line : Type :=
| Header
| Row (b : Z) (n2 : Path).

(** Of everything on disk, the tree under the root and the file
    [root/.backupy.cfg], when it exists. *)
Record world : Type := mkWorld {
  tree : entry;
  cfg : option (list line)
}.

(** The nested dict of [_read_backup_conf]: the value under ["."] and the
    dicts under the other keys, in insertion order. *)
#[warnings="-register-all"]
Inductive conf : Type :=
| Conf (dot : option bool) (keys : list (string * conf)).

Definition dot (c : conf) : option bool := match c with Conf d _ => d end.
Definition keys (c : conf) : list (string * conf) :=
  match c with Conf _ k => k end.

Fixpoint assoc {V} (k : string) (l : list (string * V)) : option V :=
  match l with
  | [] => None
  | (k', v) :: l' => if decide (k = k') then Some v else assoc k l'
  end.

(** [d[k] = v]: a new key goes to the end. *)
Fixpoint assoc_set {V} (k : string) (v : V) (l : list (string * V))
  : list (string * V) :=
  match l with
  | [] => [(k, v)]
  | (k', v') :: l' =>
      if decide (k = k') then (k, v) :: l' else (k', v') :: assoc_set k v l'
  end.

(** [p.relative_to(other).parts] *)
Fixpoint relative_to (p other : Path) {struct other} : result (list string) :=
  match other with
  | [] => Ok p
  | r :: other' =>
      match p with
      | [] => Raise ValueError
      | x :: p' => if decide (x = r) then relative_to p' other'
                   else Raise ValueError
      end
  end.

(** [res = result; for folder in parts: ...]: the dicts are updated in
    place, so the walk rebuilds the levels it went through. *)
Fixpoint add_parts (backup : bool) (parts : list string) (res : conf) : conf :=
  match parts with
  | [] => res
  | folder :: rest =>
      let sub := match assoc folder (keys res) with
                 | Some r => r
                 | None => Conf (Some backup) []
                 end in
      Conf (dot res) (assoc_set folder (add_parts backup rest sub) (keys res))
  end.

(** The body of [for ss, sp, b, n, n2 in rd]; [int] fails on the header's
    column. *)
Definition read_row (root : Path) (ln : line) (acc : conf) : result conf :=
  match ln with
  | Header => Raise ValueError
  | Row b n2 =>
      let backup := negb (b =? 0)%Z in
      match relative_to n2 root with
      | Raise e => Raise e
      | Ok parts =>
          let acc := match parts with
                     | [] => Conf (Some backup) (keys acc)
                     | _ => acc
                     end in
          Ok (add_parts backup parts acc)
      end
  end.

Fixpoint read_rows (root : Path) (rd : list line) (acc : conf) : result conf :=
  match rd with
  | [] => Ok acc
  | ln :: rd' =>
      match read_row root ln acc with
      | Raise e => Raise e
      | Ok acc' => read_rows root rd' acc'
      end
  end.

(** [BackupPathStructure._read_backup_conf] *)
Definition _read_backup_conf (root : Path) (w : world) : result conf :=
  match cfg w with
  | None => Raise IOError_no_config
  | Some [] => Raise StopIteration
  | Some (_ :: rd) => read_rows root rd (Conf None [])
  end.

(** The inner loop of [from_backup_conf]. *)
Fixpoint walk (bc : conf) (backup : bool) (parts : list string) : result bool :=
  match parts with
  | [] => Ok backup
  | folder :: rest =>
      let bc := match assoc folder (keys bc) with
                | Some c => c
                | None => bc
                end in
      match dot bc with
      | Some b => walk bc b rest
      | None => Raise KeyError
      end
  end.

(** [backup = backup_conf["."]] and then the inner loop. *)
Definition stored_decision (backup_conf : conf) (parts : list string)
  : result bool :=
  match dot backup_conf with
  | Some b => walk backup_conf b parts
  | None => Raise KeyError
  end.

(** The body of [for bp in inst.backuppaths]. *)
Definition reconcile (root : Path) (backup_conf : conf) (i : nat) (_ : unit)
  : M BackupPathStructure unit :=
  bp <- nth_backuppath i ;;
  parts <- lift (relative_to (path bp) root) ;;
  backup <- lift (stored_decision backup_conf parts) ;;
  inst <- get ;;
  put (set_backuppaths (alter (set_backup backup) i (backuppaths inst)) inst).

(** [BackupPathStructure.from_backup_conf] *)
Definition from_backup_conf (root : Path) (w : world)
  : result BackupPathStructure :=
  match _read_backup_conf root w with
  | Raise e => Raise e
  | Ok backup_conf =>
      match BackupPathStructure_init root (tree w) [] [] 0 (-1) (-1) true with
      | Raise e => Raise e
      | Ok inst =>
          match for_each (reconcile root backup_conf)
                  (seq 0 (length (backuppaths inst))) tt inst with
          | (Raise e, _) => Raise e
          | (Ok _, inst) => Ok inst
          end
      end
  end.

(** [BackupPathStructure.make_backup_conf]: the file is opened for writing
    before [scan] runs, and the rows are written after it returned.  A row
    is given as the reader gets it back when the text of its path neither
    begins nor ends with white space, which the reader strips.  The file,
    which the source creates inside the root, is kept in [cfg] and not
    entered into [tree]: what is stated of a later scan takes the tree of
    that scan as given. *)
Definition make_backup_conf (self : BackupPathStructure) (w : world)
  : result unit * world :=
  let w := mkWorld (tree w) (Some []) in
  match scan 100000000 false false self with
  | (Raise e, _) => (Raise e, w)
  | (Ok rows, _) =>
      (Ok tt,
       mkWorld (tree w)
         (Some (Header ::
                map (fun r => Row (Z.b2z (row_backup r)) (names_raw r)) rows)))
  end.

(** [cmd_zip] up to the confirmation prompt: the paths the archive would
    receive.  The source tests for the file once more after
    [from_backup_conf] has read it. *)
Definition cmd_zip (root : Path) (w : world) : result (list Path) :=
  match from_backup_conf root w with
  | Raise e => Raise e
  | Ok paths =>
      match cfg w with
      | None => Ok []
      | Some _ =>
          Ok (path <$> filter (fun bp => backup bp = true) (backuppaths paths))
      end
  end.

(** * What the tree should hold

    Functions on the filesystem tree, by structural recursion, against which
    the store-based construction above is verified. *)

(** Every listing in the order [make_tree] walks it. *)
Fixpoint sort_tree (dir_first : bool) (e : entry) : entry :=
  match e with
  | File s => File s
  | Dir l =>
      Dir (sorted key_le (sort_key dir_first)
             (map (fun c => (c.1, sort_tree dir_first c.2)) l))
  end.

Fixpoint num_nodes (e : entry) : nat :=
  match e with
  | File _ => 1
  | Dir l => S (sum_list (map (fun c => num_nodes c.2) l))
  end.

(** The sum of the sizes of the files in a subtree, and their number. *)
Fixpoint total_size (e : entry) : Z :=
  match e with
  | File s => s
  | Dir l => sum (map (fun c => total_size c.2) l)
  end.

Fixpoint count_files (e : entry) : Z :=
  match e with
  | File _ => 1%Z
  | Dir l => sum (map (fun c => count_files c.2) l)
  end.

(** A subtree together with what it inherits from above: its path and the
    verdict of the name filter on its parent. *)
Record located : Type := mkLocated {
  l_path : Path;
  l_inherited : bool;
  l_entry : entry
}.

Section Rules.
Variables (include exclude : list Path) (filemax : Z).

(** The closest rule among a node and its ancestors, innermost first. *)
Fixpoint closest (paths : list Path) : bool :=
  match paths with
  | [] => true
  | p :: ps =>
      if bool_decide (p ∈ include) then true
      else if bool_decide (p ∈ exclude) then false
      else closest ps
  end.

Definition name_rule (inherited : bool) (pth : Path) : bool :=
  if bool_decide (pth ∈ include) then true
  else if bool_decide (pth ∈ exclude) then false
  else inherited.

Definition size_rule (s : Z) : bool :=
  if (0 <? filemax)%Z then (s <? filemax)%Z else true.

(** The decision a node gets from its own two filters. *)
Definition own_backup (inherited : bool) (pth : Path) (e : entry) : bool :=
  name_rule inherited pth && size_rule (if is_dir e then 0%Z else getsize e).

Definition own_decision (x : located) : bool :=
  own_backup (l_inherited x) (l_path x) (l_entry x).

(** The subtrees of [e] in pre-order, [e] first. *)
Fixpoint subtrees (inherited : bool) (pth : Path) (e : entry) : list located :=
  mkLocated pth inherited e ::
  match e with
  | File _ => []
  | Dir l =>
      concat (map (fun c => subtrees (name_rule inherited pth)
                              (pth ++ [c.1]) c.2) l)
  end.

(** The decision after every node below has reported upwards. *)
Fixpoint any_backup (inherited : bool) (pth : Path) (e : entry) : bool :=
  own_backup inherited pth e ||
  match e with
  | File _ => false
  | Dir l =>
      existsb (fun c => any_backup (name_rule inherited pth)
                          (pth ++ [c.1]) c.2) l
  end.

(** The objects of the children of one directory, laid out one subtree
    after the other from position [off]. *)
Fixpoint expected_kids
    (rec : nat -> bool -> string -> entry -> list BackupPath)
    (off : nat) (count len : Z) (l : list (string * entry))
  : list BackupPath :=
  match l with
  | [] => []
  | c :: l' =>
      rec off (count =? len)%Z c.1 c.2
      ++ expected_kids rec (off + num_nodes c.2) (count + 1)%Z len l'
  end.

(** The objects [make_tree] leaves behind for a subtree whose root is
    allocated at position [off]. *)
Fixpoint expected (off : nat) (par : option nat) (d : Z) (last : bool)
    (inherited : bool) (pth : Path) (e : entry) : list BackupPath :=
  mkBackupPath pth par last true (total_size e) (count_files e) d
    (any_backup inherited pth e) (is_dir e) ::
  match e with
  | File _ => []
  | Dir l =>
      expected_kids
        (fun off' last' name c =>
           expected off' (Some off) (d + 1)%Z last'
             (name_rule inherited pth) (pth ++ [name]) c)
        (S off) 1%Z (Z.of_nat (length l)) l
  end.
End Rules.

(** The subtrees at and below a located subtree, itself first. *)
Definition below (include exclude : list Path) (x : located) : list located :=
  subtrees include exclude (l_inherited x) (l_path x) (l_entry x).

(** An object of the store describes a subtree of the filesystem. *)
Definition mirrors (include exclude : list Path) (filemax : Z)
    (bp : BackupPath) (x : located) : Prop :=
  path bp = l_path x /\
  path_is_dir bp = is_dir (l_entry x) /\
  size bp = total_size (l_entry x) /\
  n_files bp = count_files (l_entry x) /\
  backup bp = any_backup include exclude filemax
                (l_inherited x) (l_path x) (l_entry x).

Definition sort_child (df : bool) (c : string * entry) : string * entry :=
  (c.1, sort_tree df c.2).

(** In every directory of the tree the names of the listing differ. *)
Fixpoint wf_names (e : entry) : bool :=
  match e with
  | File _ => true
  | Dir l => bool_decide (NoDup l.*1) && forallb (fun c => wf_names c.2) l
  end.

(** [after p q]: a path [q] met later in the walk is not [p], nor above it. *)
Definition after (p q : Path) : Prop := ~ q `prefix_of` p.

(** ** What a new node adds to its ancestors *)

Record delta : Type := mkDelta {
  d_size : Z;
  d_files : Z;
  d_backup : bool
}.

Definition delta_of (c : BackupPath) : delta :=
  mkDelta (size c) (if path_is_file c then 1%Z else 0%Z) (backup c).

Definition delta_add (a b : delta) : delta :=
  mkDelta (d_size a + d_size b)%Z (d_files a + d_files b)%Z
          (d_backup a || d_backup b).

Definition bump (d : delta) (bp : BackupPath) : BackupPath :=
  set_backup (backup bp || d_backup d)
    (set_n_files (n_files bp + d_files d)%Z
       (set_size (size bp + d_size d)%Z bp)).

(** The store after every object whose position is in [chain] absorbed [d]. *)
Definition bump_at (chain : list nat) (d : delta) (st : store) : store :=
  imap (fun i bp => if bool_decide (i ∈ chain) then bump d bp else bp) st.

Definition subtree_delta (include exclude : list Path) (filemax : Z)
    (inh : bool) (pth : Path) (e : entry) : delta :=
  mkDelta (total_size e) (count_files e)
          (any_backup include exclude filemax inh pth e).

Definition kids_delta (include exclude : list Path) (filemax : Z)
    (inh : bool) (pth : Path) (l : list (string * entry)) : delta :=
  mkDelta (sum (map (fun c => total_size c.2) l))
          (sum (map (fun c => count_files c.2) l))
          (existsb (fun c => any_backup include exclude filemax inh
                               (pth ++ [c.1]) c.2) l).

(** [chain_ok st par chain]: following [parent] from [par] visits the
    positions of [chain], innermost first, each with the path recorded next
    to it, and ends at a root of depth 0. *)
Inductive chain_ok (st : store) : option nat -> list (nat * Path) -> Prop :=
| chain_root : chain_ok st None []
| chain_step p bp chain :
    st !! p = Some bp ->
    chain_ok st (parent bp) chain ->
    Forall (fun q => q.1 < p) chain ->
    depth bp = Z.of_nat (length chain) ->
    chain_ok st (Some p) ((p, path bp) :: chain).

(** A reference always points to an older object. *)
Definition wf_store (st : store) : Prop :=
  forall i bp p, st !! i = Some bp -> parent bp = Some p -> p < i.

(** One round of the loop over the children in [make_tree]. *)
Definition visit (include exclude : list Path) (filemax : Z)
    (dir_first : bool) (fuel : nat) (root : Path) (backup_root : nat)
    (len : Z) (count : Z) (child : string * entry) : M store (list nat) :=
  let pth := root ++ [child.1] in
  let is_last := (count =? len)%Z in
  if is_dir child.2
  then make_tree fuel pth child.2 (Some backup_root) is_last
         dir_first include exclude filemax
  else r <- BackupPath_init pth child.2 (Some backup_root) is_last
              (make_namefilter include exclude) (sizefilter filemax) ;;
       ret [r].

(** What is proved of every subtree: the references yielded are the next
    positions of the store, the ancestors have absorbed the whole subtree,
    and the new objects are the expected ones. *)
Definition visited (include exclude : list Path) (filemax : Z)
    (run : M store (list nat)) (st : store) (par : option nat)
    (chain : list (nat * Path)) (last : bool) (pth : Path) (e : entry)
  : Prop :=
  run st
  = (Ok (seq (length st) (num_nodes e)),
     bump_at chain.*1
       (subtree_delta include exclude filemax
          (closest include exclude chain.*2) pth e) st
     ++ expected include exclude filemax (length st) par
          (Z.of_nat (length chain)) last
          (closest include exclude chain.*2) pth e).

(** ** What [scan] lists *)

Definition explicit (self : BackupPathStructure) (bp : BackupPath) : bool :=
  bool_decide (path bp ∈ include self ++ exclude self).

(** A node reaches the lists [scan] returns. *)
Definition listed (self : BackupPathStructure) (display : bool)
    (bp : BackupPath) : bool :=
  negb (skipped self display bp) &&
  (bool_decide (path bp = root self) || (show self <? size bp)%Z
   || explicit self bp).

Definition row_of (bp : BackupPath) : scan_row :=
  mkRow (path bp) (size bp) (backup bp).


(** The node lies deeper than the display depth. *)
Definition too_deep (self : BackupPathStructure) (bp : BackupPath) : Prop :=
  (max_depth_display self < depth bp)%Z /\ (-1 < max_depth_display self)%Z.

(** ** What the nested dict holds

    [level_at c parts] is the dict reached from [c] through the keys
    [parts], when every one of them is present. *)
Fixpoint level_at (c : conf) (parts : list string) : option conf :=
  match parts with
  | [] => Some c
  | folder :: rest =>
      match assoc folder (keys c) with
      | Some c' => level_at c' rest
      | None => None
      end
  end.

(** A row whose path, relative to the root, goes through [parts]. *)
Definition goes_through (root : Path) (parts : list string) (ln : line) : Prop :=
  match ln with
  | Header => False
  | Row _ n2 =>
      match relative_to n2 root with
      | Ok ps => parts `prefix_of` ps
      | Raise _ => False
      end
  end.

(** A row whose path is the root itself. *)
Definition names_root (root : Path) (ln : line) : Prop :=
  match ln with
  | Header => False
  | Row _ n2 => relative_to n2 root = Ok []
  end.

(** Every level of the dict has its ["."] entry. *)
#[warnings="-register-all"]
Inductive conf_full : conf -> Prop :=
| conf_full_intro c :
    is_Some (dot c) ->
    Forall (fun kv => conf_full kv.2) (keys c) ->
    conf_full c.

(** What the loop of [from_backup_conf] makes of one node. *)
Definition reconciled (root : Path) (backup_conf : conf) (bp : BackupPath)
  : BackupPath :=
  match relative_to (path bp) root with
  | Ok parts =>
      match stored_decision backup_conf parts with
      | Ok b => set_backup b bp
      | Raise _ => bp
      end
  | Raise _ => bp
  end.

(** The loop of [from_backup_conf] does not raise on a node. *)
Definition can_reconcile (root : Path) (backup_conf : conf) (bp : BackupPath)
  : Prop :=
  exists parts b,
    relative_to (path bp) root = Ok parts /\
    stored_decision backup_conf parts = Ok b.

(** ** Example inputs *)

Definition ex_root : Path := ["/"; "home"; "proj"]%string.

(** The scenario of the specification: [a/big.bin], [a/small.txt] and
    [b/keep.txt]. *)
Definition ex_listing : list (string * entry) :=
  [("b", Dir [("keep.txt", File 10)]);
   ("a", Dir [("small.txt", File 10); ("big.bin", File 5000000)])]%string.

Definition ex_tree : entry := Dir ex_listing.

(** A directory whose only file is excluded by name, and the store
    [make_tree] builds for it. *)
Definition ex_tree_excluded : entry := Dir [("notes.txt", File 10)]%string.

Definition ex_exclude : list Path := [ex_root ++ ["notes.txt"]%string].

Definition ex_store : store :=
  [mkBackupPath ex_root None false true 10 1 0 true true;
   mkBackupPath (ex_root ++ ["notes.txt"]%string) (Some 0) true true 10 1 1
     false false].




(** A tree in which [a/b] is joined by a new directory [a/x] holding
    another [b], and the configuration file written before [a/x] existed. *)
Definition ex_tree_before : entry :=
  Dir [("a", Dir [("b", File 10)])]%string.

Definition ex_tree_after : entry :=
  Dir [("a", Dir [("b", File 10); ("x", Dir [("b", File 20)])])]%string.

Definition ex_cfg : list line :=
  [Header; Row 1 ex_root; Row 1 (ex_root ++ ["a"]%string);
   Row 0 (ex_root ++ ["a"; "b"]%string)].

(** A directory of 1001 files: 999 of the sizes 6 to 1004, and two of
    size 5. *)
Definition ex_name (i : nat) : string :=
  ("f" ++ NilEmpty.string_of_uint (Nat.to_uint i))%string.

Definition ex_tree_big : entry :=
  Dir (map (fun i => (ex_name i,
                      File (if (i <? 2)%nat then 5 else Z.of_nat i + 4)%Z))
         (seq 0 1001)).

(** * Further vocabulary *)

(** The first object of the store is a root at [pth]; every other object
    refers to an older directory object as its parent, lies one level
    deeper, and its path is the parent's path and one more part. *)
Definition tree_shaped (pth : Path) (st : store) : Prop :=
  forall i bp,
    st !! i = Some bp ->
    (i = 0 /\ parent bp = None /\ depth bp = 0%Z /\ path bp = pth) \/
    (0 < i /\
     exists p pn name,
       parent bp = Some p /\ p < i /\ st !! p = Some pn /\
       path_is_dir pn = true /\ path bp = path pn ++ [name] /\
       depth bp = (depth pn + 1)%Z).

(** The sizes of the files of a subtree, in listing order. *)
Fixpoint file_sizes (e : entry) : list Z :=
  match e with
  | File s => [s]
  | Dir l => concat (map (fun c => file_sizes c.2) l)
  end.

(** A line the loop of [_read_backup_conf] accepts: a row, not a header,
    whose path lies at or under the root. *)
Definition row_under (root : Path) (ln : line) : Prop :=
  exists b parts, ln = Row b (root ++ parts).

(** ** Names as the text layer takes them

    A name is a string of bytes, in UTF-8.  Two steps of the source work on
    the text of a path and are modelled for the names they leave alone:
    [str.lower()] in the sort key, which the model applies to the letters
    of ASCII, and [n2.strip()] on the path column of a row read back, which
    removes white space at both ends of the text. *)

Fixpoint all_ascii (s : string) : bool :=
  match s with
  | EmptyString => true
  | String c s' => (nat_of_ascii c <? 128)%nat && all_ascii s'
  end.

(** Every name of the tree is made of ASCII characters: on these
    [str.lower()] changes the letters A to Z only, and the order of
    strings is the order of their bytes. *)
Fixpoint ascii_names (e : entry) : bool :=
  match e with
  | File _ => true
  | Dir l => forallb (fun c => all_ascii c.1 && ascii_names c.2) l
  end.

Definition bytes (l : list nat) : string :=
  foldr (fun n s => String (ascii_of_nat n) s) EmptyString l.

(** The characters [str.strip()] removes, those for which [str.isspace()]
    holds, each in UTF-8: U+0009 to U+000D, U+001C to U+0020, U+0085,
    U+00A0, U+1680, U+2000 to U+200A, U+2028, U+2029, U+202F, U+205F and
    U+3000. *)
Definition python_whitespace : list string :=
  map bytes
    [[9]; [10]; [11]; [12]; [13]; [28]; [29]; [30]; [31]; [32];
     [194; 133]; [194; 160]; [225; 154; 128];
     [226; 128; 128]; [226; 128; 129]; [226; 128; 130]; [226; 128; 131];
     [226; 128; 132]; [226; 128; 133]; [226; 128; 134]; [226; 128; 135];
     [226; 128; 136]; [226; 128; 137]; [226; 128; 138];
     [226; 128; 168]; [226; 128; 169]; [226; 128; 175];
     [226; 129; 159]; [227; 128; 128]].

Definition ends_with (w s : string) : bool :=
  (String.length w <=? String.length s)%nat
  && String.eqb
       (substring (String.length s - String.length w) (String.length w) s) w.

(** The text of the path neither begins nor ends with white space, so that
    [Path(n2.strip())] is the path that [f" {n2}"] was written from: the
    first part does not begin with white space and the last part does not
    end with it. *)
Definition strip_safe (p : Path) : bool :=
  negb (existsb (fun w => String.prefix w (default ""%string (head p)))
          python_whitespace)
  && negb (existsb (fun w => ends_with w (default ""%string (last p)))
             python_whitespace).

(** ** The order of siblings *)

(** The sort key of [make_tree], read off an object: the kind and the
    lower-cased [path.name]. *)
Definition sibling_key (dir_first : bool) (bp : BackupPath) : bool * string :=
  (if dir_first then path_is_file bp else path_is_dir bp,
   lower (default ""%string (last (path bp)))).

(** Of two objects of a list with the same parent, the earlier one has the
    smaller key. *)
Definition siblings_ordered (dir_first : bool) (xs : list BackupPath) : Prop :=
  forall pre bi mid bj post,
    xs = pre ++ bi :: mid ++ bj :: post ->
    parent bi = parent bj ->
    key_le (sibling_key dir_first bi) (sibling_key dir_first bj) = true.

(** ** Example inputs with the configuration file in the tree *)



(** * The archive and the command line *)

(** What a command ends with: it returns, an exception of the classes above
    or of two further classes escapes, or [sys.exit] is called. *)
Inductive outcome (A : Type) : Type :=
| Returned (a : A)
| Raised (e : exn)
| IndexError               (* [bpaths[0]] on an empty list *)
| EOFError                 (* [input] at the end of the input *)
| SystemExit (code : Z).   (* [sys.exit(code)] *)
Arguments Returned {A} a.
Arguments Raised {A} e.
Arguments IndexError {A}.
Arguments EOFError {A}.
Arguments SystemExit {A} code.

(** ** class Backup *)

Module Backup.

(** What [backup] has counted and written so far: [n_files] and [s_files],
    with the files included at index 0 and the files skipped at index 1;
    the names given to [out.write], in order; and the lines logged for
    files, as the sign and the relative path (the size column, rendered by
    [print_size], is left out). *)
Record state : Type := mkState {
  n_files : Z * Z;
  s_files : Z * Z;
  out : list Path;
  logged : list (bool * Path)
}.

(** [c[ix] += v], where [ix] is 0 for an included node and 1 otherwise. *)
Definition add_at (included : bool) (v : Z) (c : Z * Z) : Z * Z :=
  if included then (c.1 + v, c.2)%Z else (c.1, c.2 + v)%Z.

(** The body of [for bp in bpaths].  [getsize] answers
    [os.path.getsize(bp.path)] as the disk has it when the loop reaches the
    file: for the log file inside the root, to which [backup] itself
    appends, this is not the size found when the tree was scanned.  Whether
    a path is a file is taken as found at the scan. *)
Definition step (getsize : Path -> Z) (root : Path) (bp : BackupPath)
    (_ : unit) : M state unit :=
  let on_disk := getsize (path bp) in
  path <- lift (relative_to (path bp) root) ;;
  s <- get ;;
  let s := if backup bp
           then mkState (n_files s) (s_files s) (out s ++ [path]) (logged s)
           else s in
  if path_is_file bp
  then put (mkState (add_at (backup bp) 1 (n_files s))
              (add_at (backup bp) on_disk (s_files s))
              (out s) (logged s ++ [(backup bp, path)]))
  else put s.

(** [Backup.backup], as run from the command line, where the global [root]
    it names the log file after is bound and the archive, named after the
    time of the run, does not exist yet.  The texts logged before the loop
    and at the end are left out; of the summary what can fail is kept:
    [bpaths[0]], the division by [s_files[0]], and [get_n_digits], whose
    logarithm is undefined at 0. *)
Definition backup (getsize : Path -> Z) (bps : BackupPathStructure)
  : outcome unit * state :=
  match for_each (step getsize (root bps)) (backuppaths bps) tt
          (mkState (0, 0)%Z (0, 0)%Z [] []) with
  | (Raise e, s) => (Raised e, s)
  | (Ok _, s) =>
      match backuppaths bps with
      | [] => (IndexError, s)
      | _ :: _ =>
          if ((s_files s).1 =? 0)%Z then (Raised ZeroDivisionError, s)
          else if ((n_files s).1 + (n_files s).2 =? 0)%Z
               then (Raised ValueError, s)
               else (Returned tt, s)
      end
  end.

End Backup.

(** ** The command-line functions *)

Module Cli.

(** [while inp_.lower() != "y"]: the answers typed in, consumed up to the
    first that is ["y"] or ["n"]. *)
Fixpoint confirm (answers : list string) : outcome unit * list string :=
  match answers with
  | [] => (EOFError, [])
  | inp_ :: answers' =>
      if bool_decide (lower inp_ = "n"%string) then (SystemExit 1, answers')
      else if bool_decide (lower inp_ = "y"%string) then (Returned tt, answers')
      else confirm answers'
  end.


(** [cmd_reset] *)
Definition cmd_reset (root : Path) (w : world) : world :=
  match cfg w with
  | Some _ => mkWorld (tree w) None
  | None => w
  end.

(** [cmd_zip], with the prompt and the archive: the second component is
    what [Backup.backup] wrote, when it was reached.  [getsize] is the
    sizes on disk while the archive is written. *)
Definition cmd_zip (getsize : Path -> Z) (root : Path)
    (answers : list string) (w : world)
  : outcome unit * option Backup.state :=
  match from_backup_conf root w with
  | Raise e => (Raised e, None)
  | Ok paths =>
      match cfg w with
      | None => (Returned tt, None)
      | Some _ =>
          match backuppaths paths with
          | [] => (IndexError, None)
          | bp_root :: _ =>
              match confirm answers with
              | (Returned _, _) =>
                  let r := Backup.backup getsize paths in (r.1, Some r.2)
              | (Raised e, _) => (Raised e, None)
              | (IndexError, _) => (IndexError, None)
              | (EOFError, _) => (EOFError, None)
              | (SystemExit code, _) => (SystemExit code, None)
              end
          end
      end
  end.

(** The two calls of [pth.replace]: every double quote is removed, and
    every [%20] becomes a blank. *)
Fixpoint remove_quotes (s : string) : string :=
  match s with
  | EmptyString => EmptyString
  | String c s' =>
      if Ascii.eqb c (ascii_of_nat 34) then remove_quotes s'
      else String c (remove_quotes s')
  end.

Fixpoint replace_pct20 (s : string) : string :=
  match s with
  | EmptyString => EmptyString
  | String "%" (String "2" (String "0" s')) => String " " (replace_pct20 s')
  | String c s' => String c (replace_pct20 s')
  end.

Inductive mode : Type := strict | warn | ignore.

Section CleanPath.
(** The filesystem as [clean_path] sees it: [to_path pth] is [Path(pth)]
    for an absolute [pth] and [Path(os.path.normpath(os.path.join(base,
    pth)))] otherwise, [base_path] is [Path(base)], and [exists_] is
    [os.path.exists]. *)
Variables (to_path : string -> Path) (base_path : Path)
  (exists_ : Path -> bool).

(** [clean_path].  [stdout] collects the paths reported as missing. *)
Definition clean_path (pth : option string) (mode : mode)
    (stdout : list Path) : outcome (option Path) * list Path :=
  let result := match pth with
                | Some pth => to_path (replace_pct20 (remove_quotes pth))
                | None => base_path
                end in
  let stdout := if negb (exists_ result)
                   && match mode with strict | warn => true | ignore => false end
                then stdout ++ [result] else stdout in
  if negb (exists_ result)
     && match mode with strict => true | _ => false end
  then (SystemExit 1, stdout)
  else if negb (exists_ result) then (Returned None, stdout)
  else (Returned (Some result), stdout).

(** [for pth in pths: result.append(clean_path(pth, base, mode_))] *)
Fixpoint clean_paths_loop (pths : list string) (mode_ : mode)
    (result : list (option Path)) (stdout : list Path)
  : outcome (list (option Path)) * list Path :=
  match pths with
  | [] => (Returned result, stdout)
  | pth :: pths' =>
      match clean_path (Some pth) mode_ stdout with
      | (Returned r, stdout') =>
          clean_paths_loop pths' mode_ (result ++ [r]) stdout'
      | (Raised e, stdout') => (Raised e, stdout')
      | (IndexError, stdout') => (IndexError, stdout')
      | (EOFError, stdout') => (EOFError, stdout')
      | (SystemExit code, stdout') => (SystemExit code, stdout')
      end
  end.

(** [clean_paths] *)
Definition clean_paths (pths : list string) (mode : mode)
    (stdout : list Path) : outcome (list (option Path)) * list Path :=
  let mode_ := match mode with strict => warn | warn => warn | ignore => ignore end in
  match clean_paths_loop pths mode_ [] stdout with
  | (Returned result, stdout') =>
      if bool_decide (None ∈ result)
         && match mode with strict => true | _ => false end
      then (SystemExit 1, stdout')
      else (Returned result, stdout')
  | other => other
  end.
End CleanPath.

End Cli.

(** In a list of objects, [is_last] marks the objects after which no
    object with the same parent follows. *)
Definition last_marked (xs : list BackupPath) : Prop :=
  forall pre bp post,
    xs = pre ++ bp :: post ->
    (is_last bp = true <-> Forall (fun b => parent b <> parent bp) post).

(** * Rendering a node *)

Definition display_filename_prefix_middle : string := "├─ ".
Definition display_filename_prefix_last : string := "└─ ".
Definition display_parent_prefix_middle : string := "   ".
Definition display_parent_prefix_last : string := "│  ".

(** [displayname(basic=True)]: [path.name] and, for a directory, [os.sep],
    here the one of POSIX.  The other branch renders sizes through
    [print_size] and is not modelled. *)
Definition displayname_basic (bp : BackupPath) : string :=
  ((if (0 <? depth bp)%Z then default ""%string (last (path bp)) else "")
   ++ (if path_is_dir bp then "/" else ""))%string.

(** [while parent and parent.parent is not None] in [display]: one prefix
    for every ancestor but the root, innermost first. *)
Fixpoint parent_prefixes (fuel : nat) (st : store) (prnt : option nat)
  : result (list string) :=
  match prnt with
  | None => Ok []
  | Some p =>
      match st !! p with
      | None => Raise DanglingReference
      | Some pn =>
          match parent pn with
          | None => Ok []
          | Some _ =>
              match fuel with
              | O => Raise RecursionError
              | S fuel' =>
                  match parent_prefixes fuel' st (parent pn) with
                  | Ok parts =>
                      Ok ((if is_last pn then display_parent_prefix_middle
                           else display_parent_prefix_last) :: parts)
                  | Raise e => Raise e
                  end
              end
          end
      end
  end.

(** [BackupPath.display] *)
Definition display (st : store) (self : nat) : result string :=
  match st !! self with
  | None => Raise DanglingReference
  | Some bp =>
      if negb (is_visible bp) then Ok ""%string
      else match parent bp with
           | None => Ok (displayname_basic bp)
           | Some _ =>
               let _filename_prefix :=
                 if is_last bp then display_filename_prefix_last
                 else display_filename_prefix_middle in
               match parent_prefixes (length st) st (parent bp) with
               | Ok parts =>
                   Ok (String.concat ""
                         (rev ((_filename_prefix ++ displayname_basic bp)%string
                               :: parts)))
               | Raise e => Raise e
               end
           end
  end.

(** * Proofs *)

(** ** The monad *)

Lemma bind_ok {S A B} (m : M S A) (k : A -> M S B) s a s' :
  m s = (Ok a, s') -> bind m k s = k a s'.
Proof. intros H. unfold bind. by rewrite H. Qed.

Lemma bind_raise {S A B} (m : M S A) (k : A -> M S B) s e s' :
  m s = (Raise e, s') -> bind m k s = (Raise e, s').
Proof. intros H. unfold bind. by rewrite H. Qed.

Lemma deref_ok (st : store) r bp : st !! r = Some bp -> deref r st = (Ok bp, st).
Proof. intros H. unfold deref. by rewrite H. Qed.

(** ** Chains of ancestors *)

Lemma bump_at_nil d (st : store) : bump_at [] d st = st.
Proof.
  unfold bump_at. apply list_eq. intros i. rewrite list_lookup_imap.
  by destruct (st !! i).
Qed.

Lemma length_bump_at chain d (st : store) : length (bump_at chain d st) = length st.
Proof. unfold bump_at. by rewrite length_imap. Qed.

Lemma bump_at_lookup chain d (st : store) i :
  bump_at chain d st !! i =
  (fun bp => if bool_decide (i ∈ chain) then bump d bp else bp) <$> st !! i.
Proof. unfold bump_at. by rewrite list_lookup_imap. Qed.

Lemma bump_at_app_l chain d (st ext : store) :
  Forall (fun q => q < length st) chain ->
  bump_at chain d (st ++ ext) = bump_at chain d st ++ ext.
Proof.
  intros Hlt. apply list_eq. intros i. rewrite bump_at_lookup.
  destruct (decide (i < length st)) as [Hi|Hi].
  - rewrite !lookup_app_l by (by rewrite ?length_bump_at).
    by rewrite bump_at_lookup.
  - rewrite !lookup_app_r by (rewrite ?length_bump_at; lia).
    rewrite length_bump_at. destruct (ext !! _); simpl; [|done].
    case_bool_decide as Hin; [|done].
    rewrite Forall_forall in Hlt. apply Hlt in Hin. lia.
Qed.

Lemma bump_at_cons_alter p chain d (st : store) :
  p ∉ chain ->
  bump_at chain d (alter (bump d) p st) = bump_at (p :: chain) d st.
Proof.
  intros Hp. apply list_eq. intros i. rewrite !bump_at_lookup.
  destruct (decide (i = p)) as [->|Hne].
  - rewrite list_lookup_alter_eq. destruct (st !! p); simpl; [|done].
    repeat case_bool_decide; try done.
    exfalso. eauto using list_elem_of_here.
  - rewrite list_lookup_alter_ne by done. destruct (st !! i); simpl; [|done].
    repeat case_bool_decide; try done; exfalso.
    + eauto using list_elem_of_further.
    + match goal with H : _ ∈ _ :: _ |- _ =>
        apply elem_of_cons in H as [?|?]; done end.
Qed.

Lemma bump_bump d1 d2 bp : bump d2 (bump d1 bp) = bump (delta_add d1 d2) bp.
Proof.
  destruct bp, d1, d2. unfold bump, set_backup, set_n_files, set_size.
  simpl. f_equal; [lia | lia | by rewrite orb_assoc].
Qed.

Lemma bump_at_bump_at chain d1 d2 (st : store) :
  bump_at chain d2 (bump_at chain d1 st) = bump_at chain (delta_add d1 d2) st.
Proof.
  apply list_eq. intros i. rewrite !bump_at_lookup.
  destruct (st !! i); simpl; [|done]. case_bool_decide; [|done].
  by rewrite bump_bump.
Qed.

Lemma chain_ok_lt st par chain :
  chain_ok st par chain -> Forall (fun q => q.1 < length st) chain.
Proof.
  induction 1 as [|p bp chain Hp _ IH _ _]; constructor; [|done].
  simpl. by eapply lookup_lt_Some.
Qed.

Lemma chain_ok_lt_fst st par chain :
  chain_ok st par chain -> Forall (fun q => q < length st) chain.*1.
Proof. intros H. apply Forall_fmap. by apply chain_ok_lt in H. Qed.

Lemma chain_ok_length st par chain :
  chain_ok st par chain ->
  match par with Some p => length chain <= S p | None => chain = [] end.
Proof.
  induction 1 as [|p bp chain Hp Hc IH Hlt _]; [done|].
  simpl. destruct (parent bp) as [p'|]; [|subst; simpl; lia].
  inversion Hc; subst. apply Forall_cons in Hlt as [Hlt _]. simpl in *. lia.
Qed.

Lemma chain_ok_ext st st' par chain :
  chain_ok st par chain ->
  (forall q bp, q ∈ chain.*1 -> st !! q = Some bp ->
     exists bp', st' !! q = Some bp' /\ path bp' = path bp /\
                 parent bp' = parent bp /\ depth bp' = depth bp) ->
  chain_ok st' par chain.
Proof.
  induction 1 as [|p bp chain Hp Hc IH Hlt Hd]; intros Hext; [constructor|].
  destruct (Hext p bp) as (bp' & Hp' & Hpath & Hpar & Hdep);
    [apply list_elem_of_here | done |].
  rewrite <- Hpath. econstructor; [done | | done | congruence].
  rewrite Hpar. apply IH. intros q b Hq. apply Hext.
  simpl. by apply list_elem_of_further.
Qed.

Lemma chain_ok_app st ext par chain :
  chain_ok st par chain -> chain_ok (st ++ ext) par chain.
Proof.
  intros H. eapply chain_ok_ext; [done|]. intros q bp _ Hq.
  exists bp. split; [|done]. by apply lookup_app_l_Some.
Qed.

Lemma chain_ok_alter f p st par chain :
  (forall bp, path (f bp) = path bp /\ parent (f bp) = parent bp /\
              depth (f bp) = depth bp) ->
  chain_ok st par chain -> chain_ok (alter f p st) par chain.
Proof.
  intros Hf H. eapply chain_ok_ext; [done|]. intros q bp _ Hq.
  destruct (decide (q = p)) as [->|Hne].
  - exists (f bp). rewrite list_lookup_alter_eq, Hq. split; [done|]. apply Hf.
  - exists bp. by rewrite list_lookup_alter_ne.
Qed.

Lemma chain_ok_bump_at c d st par chain :
  chain_ok st par chain -> chain_ok (bump_at c d st) par chain.
Proof.
  intros H. eapply chain_ok_ext; [done|]. intros q bp _ Hq.
  rewrite bump_at_lookup, Hq. simpl. eexists. split; [done|].
  by case_bool_decide.
Qed.

Lemma func_chain include exclude st chain :
  forall p fuel,
    chain_ok st (Some p) chain -> length chain <= fuel ->
    func include exclude fuel st p = Ok (closest include exclude chain.*2).
Proof.
  induction chain as [|[q pa] chain IH]; intros p fuel Hc Hf; [inversion Hc|].
  inversion Hc as [|p' bp chain' Hp Hc' Hlt Hd]; subst.
  destruct fuel as [|fuel]; [simpl in Hf; lia|]. simpl. rewrite Hp.
  repeat case_bool_decide; try done.
  destruct (parent bp) as [p'|].
  - apply IH; [done | simpl in Hf; lia].
  - by inversion Hc'.
Qed.

Lemma update_parents_chain chain :
  forall st par fuel self c,
    chain_ok st par chain -> length chain <= fuel ->
    st !! self = Some c -> Forall (fun q => q.1 < self) chain ->
    update_parents fuel par self st
    = (Ok tt, bump_at chain.*1 (delta_of c) st).
Proof.
  induction chain as [|[q pa] chain IH]; intros st par fuel self c Hc Hf Hs Hlt.
  - inversion Hc; subst. destruct fuel; simpl; by rewrite bump_at_nil.
  - inversion Hc as [|p bp chain' Hp Hc' Hlt' Hd]; subst.
    destruct fuel as [|fuel]; [simpl in Hf; lia|]. simpl.
    apply Forall_cons in Hlt as [Hq Hlt]. simpl in Hq.
    erewrite bind_ok by (by apply deref_ok).
    erewrite bind_ok by (by apply deref_ok).
    erewrite bind_ok by reflexivity.
    rewrite (IH (alter (absorb c) q st) (parent bp) fuel self c).
    + f_equal. change (absorb c) with (bump (delta_of c)).
      apply bump_at_cons_alter.
      intros (x & Hx1 & Hx2)%list_elem_of_fmap. subst.
      rewrite Forall_forall in Hlt'. apply Hlt' in Hx2. lia.
    + apply chain_ok_alter; [|done]. by intros [].
    + simpl in Hf. lia.
    + rewrite list_lookup_alter_ne by lia. done.
    + done.
Qed.

(** ** [BackupPath.__init__] *)

Section MakeTree.
Variables (include exclude : list Path) (filemax : Z).

Lemma BackupPath_init_spec st par chain pth e last :
  chain_ok st par chain ->
  let s0 := if is_dir e then 0%Z else getsize e in
  let n0 := if is_file e then 1%Z else 0%Z in
  let b := own_backup include exclude filemax
             (closest include exclude chain.*2) pth e in
  BackupPath_init pth e par last (make_namefilter include exclude)
    (sizefilter filemax) st
  = (Ok (length st),
     bump_at chain.*1 (mkDelta s0 n0 b) st
     ++ [mkBackupPath pth par last true s0 n0 (Z.of_nat (length chain)) b
           (is_dir e)]).
Proof.
  intros Hc s0 n0 b. unfold BackupPath_init.
  rewrite (bind_ok get _ st st st) by done.
  assert (Hd : (match par with
                | Some p => pn <- deref p ;; ret (depth pn + 1)%Z
                | None => ret 0%Z
                end) st = (Ok (Z.of_nat (length chain)), st)).
  { destruct Hc as [|p bp chain Hp Hc Hlt Hd]; [done|].
    erewrite bind_ok by (by apply deref_ok). unfold ret. rewrite Hd.
    do 2 f_equal. simpl. lia. }
  rewrite (bind_ok _ _ _ _ _ Hd). clear Hd.
  erewrite bind_ok by reflexivity.
  set (node := mkBackupPath pth par last true _ _ _ false _).
  assert (Hself : forall x : BackupPath, (st ++ [x]) !! length st = Some x).
  { intros x. by rewrite list_lookup_middle. }
  assert (Hlen : length chain <= length st).
  { pose proof (chain_ok_length _ _ _ Hc) as Hl.
    pose proof (chain_ok_lt _ _ _ Hc) as Hlt.
    destruct Hc as [|p bp chain Hp Hc Hlt' Hd]; [simpl; lia|].
    apply Forall_cons in Hlt as [Hlt _]. simpl in *. lia. }
  assert (Hnf : make_namefilter include exclude (length st) (st ++ [node])
                = (Ok (name_rule include exclude
                         (closest include exclude chain.*2) pth),
                   st ++ [node])).
  { unfold make_namefilter. erewrite bind_ok by reflexivity. unfold lift.
    f_equal. rewrite length_app. simpl. rewrite Nat.add_1_r. simpl.
    rewrite Hself. simpl. unfold name_rule.
    repeat case_bool_decide; try done.
    destruct par as [p|].
    - apply func_chain; [by apply chain_ok_app | done].
    - by inversion Hc. }
  rewrite (bind_ok _ _ _ _ _ Hnf). clear Hnf.
  assert (Hsf : sizefilter filemax (length st) (st ++ [node])
                = (Ok (size_rule filemax s0), st ++ [node])).
  { unfold sizefilter, size_rule. destruct (0 <? filemax)%Z; [|done].
    erewrite bind_ok by (by apply deref_ok). done. }
  assert (Hb : (if name_rule include exclude
                     (closest include exclude chain.*2) pth
                then sizefilter filemax (length st) else ret false)
                 (st ++ [node]) = (Ok b, st ++ [node])).
  { unfold b, own_backup. fold s0. destruct (name_rule _ _ _ _); [|done].
    by rewrite Hsf. }
  rewrite (bind_ok _ _ _ _ _ Hb). clear Hb Hsf.
  erewrite bind_ok by reflexivity.
  pose proof (alter_app_r (set_backup b) st [node] 0) as Ha.
  rewrite Nat.add_0_r in Ha. rewrite Ha. clear Ha. simpl.
  erewrite bind_ok.
  2:{ apply (update_parents_chain chain); [by apply chain_ok_app | done | apply Hself |].
      apply chain_ok_lt in Hc. done. }
  unfold ret. f_equal. rewrite bump_at_app_l.
  - f_equal. unfold delta_of, path_is_file. simpl. f_equal.
    unfold n0. by destruct e.
  - by eapply chain_ok_lt_fst.
Qed.
End MakeTree.

(** ** Sorting *)

Section SortedFacts.
Context {A K : Type} (le : K -> K -> bool) (key : A -> K).

Lemma insert_by_Permutation x l : insert_by le key x l ≡ₚ x :: l.
Proof.
  induction l as [|y l IH]; simpl; [done|].
  destruct (le (key x) (key y)); [done|].
  rewrite IH. apply Permutation_swap.
Qed.

Lemma sorted_Permutation l : sorted le key l ≡ₚ l.
Proof.
  induction l as [|x l IH]; simpl; [done|].
  rewrite insert_by_Permutation. by rewrite IH.
Qed.

Lemma length_sorted l : length (sorted le key l) = length l.
Proof. by rewrite sorted_Permutation. Qed.

Lemma Forall_sorted (P : A -> Prop) l : Forall P l -> Forall P (sorted le key l).
Proof. by rewrite sorted_Permutation. Qed.
End SortedFacts.

Lemma sorted_map {A B K} (le : K -> K -> bool) (key : A -> K) (key' : B -> K)
    (f : B -> A) (l : list B) :
  (forall x, key (f x) = key' x) ->
  sorted le key (map f l) = map f (sorted le key' l).
Proof.
  intros Hk. induction l as [|x l IH]; simpl; [done|]. rewrite IH.
  generalize (sorted le key' l). intros k.
  induction k as [|y k IHk]; simpl; [done|].
  rewrite !Hk. destruct (le (key' x) (key' y)); simpl; [done|].
  by rewrite IHk.
Qed.

(** ** Induction on the filesystem tree *)

Lemma entry_ind' (P : entry -> Prop) :
  (forall s, P (File s)) ->
  (forall l, Forall (fun c => P c.2) l -> P (Dir l)) ->
  forall e, P e.
Proof.
  intros HF HD. fix IH 1. intros [s|l]; [apply HF|].
  apply HD. induction l as [|[n c] l IHl]; constructor; [apply IH | apply IHl].
Qed.

Lemma sort_tree_is_dir df e : is_dir (sort_tree df e) = is_dir e.
Proof. by destruct e. Qed.

Lemma sort_tree_is_file df e : is_file (sort_tree df e) = is_file e.
Proof. by destruct e. Qed.

Lemma sort_tree_Dir df l :
  sort_tree df (Dir l)
  = Dir (map (sort_child df) (sorted key_le (sort_key df) l)).
Proof.
  simpl. f_equal. apply sorted_map. intros [n c]. unfold sort_key. simpl.
  by rewrite sort_tree_is_dir, sort_tree_is_file.
Qed.

Lemma height_child l c : c ∈ l -> height c.2 < height (Dir l).
Proof.
  intros Hc. simpl. apply Nat.lt_succ_r.
  induction Hc as [c l|c c' l Hc IH]; simpl; lia.
Qed.

Section Expected.
Variables (include exclude : list Path) (filemax : Z).

Lemma length_expected_kids rec off count len l :
  Forall (fun c => forall off' last', length (rec off' last' c.1 c.2) = num_nodes c.2) l ->
  length (expected_kids rec off count len l)
  = sum_list (map (fun c => num_nodes c.2) l).
Proof.
  intros H. revert off count.
  induction H as [|c l Hc _ IH]; intros off count; simpl; [done|].
  by rewrite length_app, Hc, IH.
Qed.

Lemma length_expected e :
  forall off par d last inh pth,
    length (expected include exclude filemax off par d last inh pth e)
    = num_nodes e.
Proof.
  induction e as [s|l IH] using entry_ind'; intros; simpl; [done|].
  f_equal. apply length_expected_kids.
  eapply Forall_impl; [exact IH|]. intros c Hc off' last'. apply Hc.
Qed.
End Expected.

(** ** [BackupPath.make_tree] *)

Lemma bump_at_snoc chain d (st : store) bp :
  Forall (fun q => q < length st) chain ->
  bump_at (length st :: chain) d (st ++ [bp])
  = bump_at chain d st ++ [bump d bp].
Proof.
  intros Hlt. apply list_eq. intros i. rewrite bump_at_lookup.
  destruct (decide (i < length st)) as [Hi|Hi].
  - rewrite !lookup_app_l by (by rewrite ?length_bump_at).
    rewrite bump_at_lookup. destruct (st !! i); simpl; [|done].
    repeat case_bool_decide; try done; exfalso.
    + match goal with H : _ ∈ _ :: _ |- _ =>
        apply elem_of_cons in H as [?|?]; [lia | done] end.
    + eauto using list_elem_of_further.
  - rewrite !lookup_app_r by (rewrite ?length_bump_at; lia).
    rewrite length_bump_at.
    destruct (i - length st) as [|k] eqn:Hk; simpl; [|done].
    assert (i = length st) as -> by lia.
    rewrite bool_decide_eq_true_2 by apply list_elem_of_here. done.
Qed.

Lemma bump_zero bp : bump (mkDelta 0 0 false) bp = bp.
Proof.
  destruct bp. unfold bump, set_backup, set_n_files, set_size. simpl.
  rewrite !Z.add_0_r. by rewrite orb_false_r.
Qed.

Lemma bump_at_zero chain (st : store) : bump_at chain (mkDelta 0 0 false) st = st.
Proof.
  apply list_eq. intros i. rewrite bump_at_lookup.
  destruct (st !! i); simpl; [|done]. case_bool_decide; [|done].
  by rewrite bump_zero.
Qed.

Section MakeTreeSpec.
Variables (include exclude : list Path) (filemax : Z) (dir_first : bool).

Local Abbreviation expected' := (expected include exclude filemax).
Local Abbreviation visit' := (visit include exclude filemax dir_first).
Local Abbreviation visited' := (visited include exclude filemax).
Local Abbreviation any_backup' := (any_backup include exclude filemax).
Local Abbreviation closest' := (closest include exclude).
Local Abbreviation name_rule' := (name_rule include exclude).

Lemma make_tree_S fuel pth e par last :
  make_tree (S fuel) pth e par last dir_first include exclude filemax
  = (backup_root <- BackupPath_init pth e par last
                      (make_namefilter include exclude) (sizefilter filemax) ;;
     listing <- lift (iterdir e) ;;
     rest <- for_children
               (visit' fuel pth backup_root
                  (Z.of_nat (length (sorted key_le (sort_key dir_first) listing))))
               1%Z (sorted key_le (sort_key dir_first) listing) ;;
     ret (backup_root :: rest)).
Proof. reflexivity. Qed.

Lemma for_children_spec fuel pth self chain len :
  (forall c st last,
      is_dir c.2 = true ->
      height c.2 <= fuel ->
      chain_ok st (Some self) ((self, pth) :: chain) ->
      visited' (make_tree fuel (pth ++ [c.1]) c.2 (Some self) last dir_first
                 include exclude filemax)
              st (Some self) ((self, pth) :: chain) last (pth ++ [c.1])
              (sort_tree dir_first c.2)) ->
  forall l count st,
    Forall (fun c => height c.2 <= fuel) l ->
    chain_ok st (Some self) ((self, pth) :: chain) ->
    for_children (visit' fuel pth self len) count l st
    = (Ok (seq (length st)
             (sum_list (map (fun c => num_nodes c.2)
                          (map (sort_child dir_first) l)))),
       bump_at (self :: chain.*1)
         (kids_delta include exclude filemax
            (name_rule' (closest' chain.*2) pth) pth
            (map (sort_child dir_first) l)) st
       ++ expected_kids
            (fun off' last' name c =>
               expected' off' (Some self) (Z.of_nat (length chain) + 1)%Z
                 last' (name_rule' (closest' chain.*2) pth)
                 (pth ++ [name]) c)
            (length st) count len (map (sort_child dir_first) l)).
Proof.
  intros IHfuel l. induction l as [|c l IH]; intros count st Hh Hc.
  { simpl. unfold ret. f_equal. rewrite app_nil_r.
    unfold kids_delta. simpl. by rewrite bump_at_zero. }
  apply Forall_cons in Hh as [Hhc Hh].
  assert (Hv : visited' (visit' fuel pth self len count c) st (Some self)
                 ((self, pth) :: chain) (count =? len)%Z (pth ++ [c.1])
                 (sort_tree dir_first c.2)).
  { unfold visit. destruct (is_dir c.2) eqn:Hd; [by apply IHfuel|].
    destruct c as [n [s|lc]]; [|done]. simpl in *.
    unfold visited. erewrite bind_ok by (by eapply BackupPath_init_spec).
    unfold ret. simpl. unfold subtree_delta, any_backup. simpl.
    by rewrite !orb_false_r. }
  unfold visited in Hv. simpl in Hv.
  cbn [for_children]. erewrite bind_ok by exact Hv.
  set (st1 := _ ++ expected' _ _ _ _ _ _ _).
  assert (Hlen1 : length st1 = length st + num_nodes (sort_tree dir_first c.2)).
  { unfold st1. by rewrite length_app, length_bump_at, length_expected. }
  erewrite bind_ok.
  2:{ apply IH; [done|]. unfold st1. apply chain_ok_app.
      by apply chain_ok_bump_at. }
  unfold ret. f_equal.
  - f_equal. simpl. rewrite Hlen1. by rewrite <- seq_app.
  - simpl. unfold st1. rewrite bump_at_app_l.
    2:{ rewrite length_bump_at. by apply chain_ok_lt_fst in Hc. }
    rewrite bump_at_bump_at, <- app_assoc. f_equal.
    rewrite length_app, length_bump_at, length_expected.
    f_equal. by rewrite Nat2Z.inj_succ, <- Z.add_1_r.
Qed.

Lemma make_tree_spec :
  forall fuel l st par chain pth last,
    height (Dir l) <= fuel -> chain_ok st par chain ->
    visited' (make_tree fuel pth (Dir l) par last dir_first include exclude
               filemax)
            st par chain last pth (sort_tree dir_first (Dir l)).
Proof.
  induction fuel as [|fuel IH]; intros l st par chain pth last Hh Hc.
  { simpl in Hh. lia. }
  unfold visited. rewrite make_tree_S.
  erewrite bind_ok by (by eapply BackupPath_init_spec).
  erewrite bind_ok by reflexivity.
  set (children := sorted key_le (sort_key dir_first) l).
  set (d0 := mkDelta _ _ _).
  set (node0 := mkBackupPath _ _ _ _ _ _ _ _ _).
  set (A := bump_at chain.*1 d0 st).
  assert (HA : length A = length st) by apply length_bump_at.
  erewrite bind_ok.
  2:{ apply (for_children_spec fuel pth (length st) chain).
      - intros [n [s|lc]] st' last' Hd Hhc Hc'; [done|]. by apply IH.
      - apply Forall_sorted. apply Forall_forall. intros c Hin.
        apply height_child in Hin. lia.
      - apply (chain_step (A ++ [node0]) (length st) node0).
        + rewrite <- HA. by rewrite list_lookup_middle.
        + apply chain_ok_app. by apply chain_ok_bump_at.
        + by apply chain_ok_lt in Hc; rewrite Forall_forall in Hc |- *;
            intros q Hq; apply Hc in Hq.
        + done. }
  unfold ret. rewrite sort_tree_Dir. fold children. f_equal.
  - f_equal. rewrite length_app, HA. simpl. by rewrite Nat.add_1_r.
  - rewrite <- HA at 1. rewrite bump_at_snoc.
    2:{ rewrite HA. by eapply chain_ok_lt_fst. }
    unfold A at 1. rewrite bump_at_bump_at, <- app_assoc.
    f_equal; simpl; f_equal.
    + by rewrite length_app, HA, length_map, Nat.add_1_r.
Qed.
End MakeTreeSpec.

Section TreeFacts.
Variables (include exclude : list Path) (filemax : Z).

Lemma make_tree_top dir_first fuel pth l :
  height (Dir l) <= fuel ->
  make_tree fuel pth (Dir l) None false dir_first include exclude filemax []
  = (Ok (seq 0 (num_nodes (sort_tree dir_first (Dir l)))),
     expected include exclude filemax 0 None 0 false true pth
       (sort_tree dir_first (Dir l))).
Proof.
  intros Hh.
  apply (make_tree_spec include exclude filemax dir_first fuel l [] None []
           pth false Hh (chain_root [])).
Qed.

Lemma sum_app l1 l2 : sum (l1 ++ l2) = (sum l1 + sum l2)%Z.
Proof. induction l1 as [|x l1 IH]; simpl; [done|]. rewrite IH. lia. Qed.

Lemma total_size_subtrees e :
  forall inh pth,
    total_size e
    = sum (map (fun y => getsize (l_entry y)) (subtrees include exclude inh pth e)).
Proof.
  induction e as [s|l IH] using entry_ind'; intros inh pth; simpl; [lia|].
  induction IH as [|c l Hc _ IHl]; simpl; [done|].
  by rewrite map_app, sum_app, <- Hc, IHl.
Qed.

Lemma count_files_subtrees e :
  forall inh pth,
    count_files e
    = sum (map (fun y => if is_file (l_entry y) then 1%Z else 0%Z)
             (subtrees include exclude inh pth e)).
Proof.
  induction e as [s|l IH] using entry_ind'; intros inh pth; simpl; [lia|].
  induction IH as [|c l Hc _ IHl]; simpl; [done|].
  by rewrite map_app, sum_app, <- Hc, IHl.
Qed.

Lemma any_backup_subtrees e :
  forall inh pth,
    any_backup include exclude filemax inh pth e
    = existsb (own_decision include exclude filemax)
        (subtrees include exclude inh pth e).
Proof.
  induction e as [s|l IH] using entry_ind'; intros inh pth; simpl; [done|].
  unfold own_decision at 1. simpl. f_equal.
  induction IH as [|c l Hc _ IHl]; simpl; [done|].
  by rewrite existsb_app, <- Hc, IHl.
Qed.

Lemma expected_kids_Forall2 {B} (R : BackupPath -> B -> Prop) rec
    (g : string * entry -> list B) l :
  Forall (fun c => forall off' last', Forall2 R (rec off' last' c.1 c.2) (g c)) l ->
  forall off count len,
    Forall2 R (expected_kids rec off count len l) (concat (map g l)).
Proof.
  induction 1 as [|c l Hc _ IHl]; intros off count len; simpl; [constructor|].
  apply Forall2_app; [apply Hc | apply IHl].
Qed.

Lemma expected_subtrees e :
  forall off par d last inh pth,
    Forall2 (mirrors include exclude filemax)
      (expected include exclude filemax off par d last inh pth e)
      (subtrees include exclude inh pth e).
Proof.
  induction e as [s|l IH] using entry_ind'; intros off par d last inh pth.
  { simpl. by repeat constructor. }
  simpl. constructor; [done|].
  apply (expected_kids_Forall2 _ _
           (fun c => subtrees include exclude (name_rule include exclude inh pth)
                       (pth ++ [c.1]) c.2)).
  eapply Forall_impl; [exact IH|]. intros c Hc off' last'. apply Hc.
Qed.
End TreeFacts.

(** C1.  Once [make_tree] has run over a whole directory tree, with a
    recursion budget that covers the height of the tree, the objects
    of the store are the subtrees of the filesystem in pre-order, and for
    each of them [size] is the sum of the sizes of the files at and below
    it (a directory adds 0) and [n_files] is the number of those files; for
    a file these are its own size and 1. *)
Theorem make_tree_aggregates include exclude filemax dir_first fuel pth l :
  height (Dir l) <= fuel ->
  exists st,
    make_tree fuel pth (Dir l) None false dir_first include exclude filemax []
    = (Ok (seq 0 (length st)), st) /\
    Forall2
      (fun bp x =>
         path bp = l_path x /\
         size bp = sum (map (fun y => getsize (l_entry y))
                          (below include exclude x)) /\
         n_files bp = sum (map (fun y => if is_file (l_entry y) then 1%Z else 0%Z)
                             (below include exclude x)) /\
         (forall s, l_entry x = File s -> size bp = s /\ n_files bp = 1%Z))
      st (subtrees include exclude true pth (sort_tree dir_first (Dir l))).
Proof.
  intros Hh. eexists. split.
  - rewrite make_tree_top by done. by rewrite length_expected.
  - eapply Forall2_impl; [apply expected_subtrees|].
    intros bp x (Hp & _ & Hs & Hn & _). unfold below.
    rewrite <- total_size_subtrees, <- count_files_subtrees.
    repeat split; try done; rewrite ?Hs, ?Hn; by match goal with
      H : l_entry _ = File _ |- _ => rewrite H end.
Qed.

Lemma make_tree_aggregates_witness :
  height ex_tree <= 3 /\
  exists st,
    make_tree 3 ex_root ex_tree None false true [] [] (-1) []
    = (Ok (seq 0 (length st)), st) /\
    Forall2
      (fun bp x =>
         path bp = l_path x /\
         size bp = sum (map (fun y => getsize (l_entry y)) (below [] [] x)) /\
         n_files bp = sum (map (fun y => if is_file (l_entry y) then 1%Z else 0%Z)
                             (below [] [] x)) /\
         (forall s, l_entry x = File s -> size bp = s /\ n_files bp = 1%Z))
      st (subtrees [] [] true ex_root (sort_tree true ex_tree)).
Proof.
  split; [simpl; lia|].
  apply (make_tree_aggregates [] [] (-1) true 3 ex_root). simpl. lia.
Defined.

(** The stores [make_tree] builds satisfy [wf_store]. *)
Lemma expected_kids_parent_lt rec lim len l :
  (forall c off' last', length (rec off' last' c.1 c.2) = num_nodes c.2) ->
  Forall (fun c => forall off' last' j bp p,
              lim <= off' -> rec off' last' c.1 c.2 !! j = Some bp ->
              parent bp = Some p -> p < off' + j) l ->
  forall off count j bp p,
    lim <= off -> expected_kids rec off count len l !! j = Some bp ->
    parent bp = Some p -> p < off + j.
Proof.
  intros Hlen Hall. induction Hall as [|c l Hc _ IH];
    intros off count j bp p Hoff Hj Hp; simpl in Hj; [done|].
  apply lookup_app_Some in Hj as [Hj|[Hge Hj]].
  - by eapply Hc.
  - rewrite Hlen in Hge, Hj.
    assert (lim <= off + num_nodes c.2) as Hoff' by lia.
    pose proof (IH _ _ _ _ _ Hoff' Hj Hp). lia.
Qed.

Lemma expected_parent_lt include exclude filemax e :
  forall off par d last inh pth j bp p,
    (forall q, par = Some q -> q < off) ->
    expected include exclude filemax off par d last inh pth e !! j = Some bp ->
    parent bp = Some p -> p < off + j.
Proof.
  induction e as [s|l IH] using entry_ind';
    intros off par d last inh pth j bp p Hpar Hj Hp.
  { destruct j; simpl in Hj; [|done]. injection Hj as <-. simpl in Hp.
    apply Hpar in Hp. lia. }
  destruct j as [|j]; simpl in Hj.
  { injection Hj as <-. simpl in Hp. apply Hpar in Hp. lia. }
  eapply (expected_kids_parent_lt _ (S off)) in Hj; [| | |done|exact Hp].
  - lia.
  - intros c off' last'. apply length_expected.
  - eapply Forall_impl; [exact IH|]. intros c Hc off' last' j' bp' p' Hoff.
    apply Hc. intros q [= <-]. lia.
Qed.

Lemma make_tree_wf_store include exclude filemax dir_first fuel pth l :
  height (Dir l) <= fuel ->
  wf_store (make_tree fuel pth (Dir l) None false dir_first include exclude
              filemax []).2.
Proof.
  intros Hh. rewrite make_tree_top by done. cbn [snd]. intros i bp p Hi Hp.
  eapply (expected_parent_lt _ _ _ _ 0) in Hi; [exact Hi | done | exact Hp].
Qed.

(** ** The name filter *)

Lemma func_fuel include exclude (st : store) :
  wf_store st ->
  forall f1 f2 i,
    i < f1 -> i < f2 ->
    func include exclude f1 st i = func include exclude f2 st i.
Proof.
  intros Hwf. induction f1 as [|f1 IH]; intros f2 i H1 H2; [lia|].
  destruct f2 as [|f2]; [lia|]. simpl.
  destruct (st !! i) as [bp|] eqn:Hi; [|done].
  repeat case_bool_decide; try done.
  destruct (parent bp) as [p|] eqn:Hp; [|done].
  pose proof (Hwf i bp p Hi Hp). apply IH; lia.
Qed.

Lemma func_total include exclude (st : store) :
  wf_store st ->
  forall f i, i < f -> i < length st ->
    exists b, func include exclude f st i = Ok b.
Proof.
  intros Hwf. induction f as [|f IH]; intros i H1 H2; [lia|]. simpl.
  destruct (lookup_lt_is_Some_2 st i H2) as [bp Hi]. rewrite Hi.
  repeat case_bool_decide; eauto.
  destruct (parent bp) as [p|] eqn:Hp; eauto.
  pose proof (Hwf i bp p Hi Hp). apply IH; lia.
Qed.

(** C2.  On a store whose references point to older objects, the name
    filter answers include when the node's path is in [include], otherwise
    exclude when it is in [exclude], otherwise what it answers on the
    parent, and include for a root without a rule; and it always answers. *)
Theorem make_namefilter_closest_rule include exclude (st : store) i bp :
  wf_store st ->
  st !! i = Some bp ->
  make_namefilter include exclude i st
  = (if bool_decide (path bp ∈ include) then Ok true
     else if bool_decide (path bp ∈ exclude) then Ok false
     else match parent bp with
          | Some p => (make_namefilter include exclude p st).1
          | None => Ok true
          end, st)
  /\ exists b, (make_namefilter include exclude i st).1 = Ok b.
Proof.
  intros Hwf Hi. pose proof (lookup_lt_Some _ _ _ Hi) as Hlt.
  unfold make_namefilter, bind, get, lift. simpl. split.
  - f_equal.
    rewrite (func_fuel include exclude st Hwf (length st) (S i) i) by lia.
    cbn [func]. rewrite Hi.
    repeat case_bool_decide; try done.
    destruct (parent bp) as [p|] eqn:Hp; [|done].
    pose proof (Hwf i bp p Hi Hp). apply func_fuel; [done | lia | lia].
  - by apply func_total.
Qed.

Lemma ex_store_wf : wf_store ex_store.
Proof.
  intros [|[|i]] bp p Hi Hp; simpl in Hi; inversion Hi; subst;
    simpl in Hp; inversion Hp; lia.
Qed.

Lemma make_namefilter_closest_rule_witness :
  wf_store ex_store /\
  ex_store !! 1 = Some (mkBackupPath (ex_root ++ ["notes.txt"]%string) (Some 0)
                          true true 10 1 1 false false) /\
  make_namefilter [] [ex_root] 1 ex_store = (Ok false, ex_store).
Proof.
  split; [apply ex_store_wf|]. split; [reflexivity|].
  exact (proj1 (make_namefilter_closest_rule [] [ex_root] ex_store 1 _
                  ex_store_wf eq_refl)).
Defined.

(** ** Decisions *)

Section Decisions.
Variables (include exclude : list Path) (filemax : Z).

Local Abbreviation below' := (below include exclude).
Local Abbreviation own' := (own_decision include exclude filemax).

Lemma subtrees_head inh pth e :
  exists rest, subtrees include exclude inh pth e = mkLocated pth inh e :: rest.
Proof. destruct e; simpl; eauto. Qed.

Lemma below_head x : exists rest, below' x = x :: rest.
Proof. destruct x as [p i e]. apply subtrees_head. Qed.

Lemma elem_of_concat {A} (x : A) (ls : list (list A)) :
  x ∈ concat ls <-> exists k, x ∈ k /\ k ∈ ls.
Proof.
  induction ls as [|k ls IH]; simpl.
  - split; [by intros ?%elem_of_nil | by intros (? & _ & ?%elem_of_nil)].
  - rewrite elem_of_app, IH. split.
    + intros [H|(k' & H1 & H2)]; [exists k | exists k'];
        eauto using list_elem_of_here, list_elem_of_further.
    + intros (k' & H1 & [->|H2]%elem_of_cons); eauto.
Qed.

(** The subtrees of a subtree are subtrees. *)
Lemma subtrees_trans e :
  forall inh pth y z,
    y ∈ subtrees include exclude inh pth e -> z ∈ below' y ->
    z ∈ subtrees include exclude inh pth e.
Proof.
  induction e as [s|l IH] using entry_ind'; intros inh pth y z Hy Hz.
  { simpl in Hy. apply list_elem_of_singleton in Hy. by subst. }
  simpl in Hy. apply elem_of_cons in Hy as [->|Hy]; [done|].
  simpl. apply list_elem_of_further.
  apply elem_of_concat in Hy as (k & Hy & Hk).
  apply list_elem_of_fmap in Hk as (c & -> & Hc).
  apply elem_of_concat. eexists. split.
  - rewrite Forall_forall in IH. eapply (IH c Hc); done.
  - apply list_elem_of_fmap. eauto.
Qed.

Lemma below_trans x y z : y ∈ below' x -> z ∈ below' y -> z ∈ below' x.
Proof. apply subtrees_trans. Qed.

Lemma existsb_true_elem {A} (f : A -> bool) l x :
  x ∈ l -> f x = true -> existsb f l = true.
Proof.
  intros Hx Hf. apply existsb_exists. exists x. split; [|done].
  by apply list_elem_of_In.
Qed.

Lemma existsb_below_mono x y :
  y ∈ below' x -> existsb own' (below' y) = true ->
  existsb own' (below' x) = true.
Proof.
  intros Hy (z & Hz & Hown)%existsb_exists. apply list_elem_of_In in Hz.
  eapply existsb_true_elem; [|done]. by eapply below_trans.
Qed.

Lemma make_tree_decisions dir_first fuel pth l :
  height (Dir l) <= fuel ->
  exists st,
    make_tree fuel pth (Dir l) None false dir_first include exclude filemax []
    = (Ok (seq 0 (length st)), st) /\
    Forall2 (fun bp x => backup bp = existsb own' (below' x))
      st (subtrees include exclude true pth (sort_tree dir_first (Dir l))).
Proof.
  intros Hh. eexists. split.
  - rewrite make_tree_top by done. by rewrite length_expected.
  - eapply Forall2_impl; [apply (expected_subtrees include exclude filemax)|].
    intros bp x (_ & _ & _ & _ & Hb). rewrite Hb. apply any_backup_subtrees.
Qed.
End Decisions.

(** C3, as the code has it.  In a fully constructed tree the decision of a
    node is the OR of the verdicts the two filters gave on the node itself
    and on every node below it.  So a node below a directory whose decision
    is true makes the directory's decision true; but the decision of a
    directory whose leaves are all false is still its own verdict. *)
Theorem make_tree_or_propagation include exclude filemax dir_first fuel pth l :
  height (Dir l) <= fuel ->
  exists st,
    let nodes := subtrees include exclude true pth (sort_tree dir_first (Dir l)) in
    make_tree fuel pth (Dir l) None false dir_first include exclude filemax []
    = (Ok (seq 0 (length st)), st) /\
    Forall2 (fun bp x =>
               backup bp = existsb (own_decision include exclude filemax)
                             (below include exclude x)) st nodes /\
    (forall i j bi bj xi xj,
        st !! i = Some bi -> nodes !! i = Some xi ->
        st !! j = Some bj -> nodes !! j = Some xj ->
        xj ∈ below include exclude xi ->
        backup bj = true -> backup bi = true).
Proof.
  intros Hh.
  destruct (make_tree_decisions include exclude filemax dir_first fuel pth l Hh)
    as (st & Hrun & Hall).
  exists st. simpl. split; [done|]. split; [done|].
  intros i j bi bj xi xj Hi Hxi Hj Hxj Hin Hb.
  pose proof (Forall2_lookup_lr _ _ _ _ _ _ Hall Hi Hxi) as Ei.
  pose proof (Forall2_lookup_lr _ _ _ _ _ _ Hall Hj Hxj) as Ej.
  simpl in Ei, Ej. rewrite Ei. rewrite Ej in Hb.
  by eapply existsb_below_mono.
Qed.

Lemma make_tree_or_propagation_witness :
  height ex_tree <= 3 /\
  exists st,
    let nodes := subtrees [ex_root ++ ["b"]%string] [] true ex_root
                   (sort_tree true ex_tree) in
    make_tree 3 ex_root ex_tree None false true [ex_root ++ ["b"]%string] []
      (-1) []
    = (Ok (seq 0 (length st)), st) /\
    Forall2 (fun bp x =>
               backup bp = existsb (own_decision [ex_root ++ ["b"]%string] [] (-1))
                             (below [ex_root ++ ["b"]%string] [] x)) st nodes /\
    (forall i j bi bj xi xj,
        st !! i = Some bi -> nodes !! i = Some xi ->
        st !! j = Some bj -> nodes !! j = Some xj ->
        xj ∈ below [ex_root ++ ["b"]%string] [] xi ->
        backup bj = true -> backup bi = true).
Proof.
  split; [simpl; lia|].
  apply (make_tree_or_propagation [ex_root ++ ["b"]%string] [] (-1) true 3
           ex_root). simpl. lia.
Defined.

(** C3, as claimed, fails: the only leaf of this directory is excluded by
    name and has decision false, while the directory itself, which no rule
    mentions, keeps the decision true that its own filters gave it. *)
Lemma or_propagation_all_leaves_false :
  make_tree 2 ex_root ex_tree_excluded None false true [] ex_exclude (-1) []
  = (Ok [0; 1],
     [mkBackupPath ex_root None false true 10 1 0 true true;
      mkBackupPath (ex_root ++ ["notes.txt"]%string) (Some 0) true true 10 1 1
        false false]).
Proof. vm_compute. reflexivity. Qed.

(** C6.  With a positive ceiling, a file at or above it is never backed
    up, whatever the name filter says; a directory passes the size filter,
    so its decision is the name filter's verdict on it or-ed with the
    verdicts on the nodes below it. *)
Theorem make_tree_size_ceiling include exclude filemax dir_first fuel pth l :
  (0 < filemax)%Z ->
  height (Dir l) <= fuel ->
  exists st,
    make_tree fuel pth (Dir l) None false dir_first include exclude filemax []
    = (Ok (seq 0 (length st)), st) /\
    Forall2 (fun bp x =>
               match l_entry x with
               | File s => (filemax <= s)%Z -> backup bp = false
               | Dir _ =>
                   backup bp
                   = name_rule include exclude (l_inherited x) (l_path x)
                     || existsb (own_decision include exclude filemax)
                          (tail (below include exclude x))
               end)
      st (subtrees include exclude true pth (sort_tree dir_first (Dir l))).
Proof.
  intros Hpos Hh.
  destruct (make_tree_decisions include exclude filemax dir_first fuel pth l Hh)
    as (st & Hrun & Hall).
  exists st. split; [done|].
  eapply Forall2_impl; [exact Hall|]. intros bp [p inh e] Hb. simpl in *.
  rewrite Hb. unfold below. simpl.
  apply Z.ltb_lt in Hpos as Hpos'.
  destruct e as [s|k]; simpl.
  - intros Hs. apply Z.ltb_ge in Hs.
    unfold own_decision, own_backup, size_rule. simpl.
    by rewrite Hpos', Hs, andb_false_r.
  - unfold own_decision at 1, own_backup, size_rule. simpl.
    by rewrite Hpos', andb_true_r.
Qed.

Lemma make_tree_size_ceiling_witness :
  (0 < 1000000)%Z /\
  height ex_tree <= 3 /\
  exists st,
    make_tree 3 ex_root ex_tree None false true [] [] 1000000 []
    = (Ok (seq 0 (length st)), st) /\
    Forall2 (fun bp x =>
               match l_entry x with
               | File s => (1000000 <= s)%Z -> backup bp = false
               | Dir _ =>
                   backup bp
                   = name_rule [] [] (l_inherited x) (l_path x)
                     || existsb (own_decision [] [] 1000000)
                          (tail (below [] [] x))
               end)
      st (subtrees [] [] true ex_root (sort_tree true ex_tree)).
Proof.
  split; [lia|]. split; [simpl; lia|].
  apply (make_tree_size_ceiling [] [] 1000000 true 3 ex_root); [lia|].
  simpl. lia.
Defined.

(** ** The configuration file *)

Lemma relative_to_raises p other e :
  relative_to p other = Raise e -> e = ValueError.
Proof.
  revert p. induction other as [|r other IH]; intros p; simpl; [congruence|].
  destruct p as [|x p]; [congruence|]. case_decide; [apply IH | congruence].
Qed.

Lemma read_rows_raises root rd :
  forall acc e, read_rows root rd acc = Raise e -> e = ValueError.
Proof.
  induction rd as [|ln rd IH]; intros acc e; simpl; [congruence|].
  destruct (read_row root ln acc) as [acc'|e'] eqn:Hrow; [apply IH|].
  intros [= <-]. destruct ln as [|b n2]; simpl in Hrow; [congruence|].
  destruct (relative_to n2 root) eqn:Hrel; [done|].
  injection Hrow as <-. by eapply relative_to_raises.
Qed.

Lemma walk_raises parts :
  forall bc b e, walk bc b parts = Raise e -> e = KeyError.
Proof.
  induction parts as [|f parts IH]; intros bc b e; simpl; [congruence|].
  destruct (dot _); [apply IH | congruence].
Qed.

Lemma for_each_raises {S A B} (P : exn -> Prop) (body : A -> B -> M S B) l :
  (forall x acc s e s', body x acc s = (Raise e, s') -> P e) ->
  forall acc s e s', for_each body l acc s = (Raise e, s') -> P e.
Proof.
  intros Hbody. induction l as [|x l IH]; intros acc s e s'; simpl.
  - unfold ret. congruence.
  - unfold bind. destruct (body x acc s) as [[acc'|e'] s1] eqn:Hb.
    + apply IH.
    + intros [= <- <-]. eauto.
Qed.

Lemma reconcile_raises root backup_conf i u inst e inst' :
  reconcile root backup_conf i u inst = (Raise e, inst') ->
  e <> IOError_no_config.
Proof.
  unfold reconcile, nth_backuppath, bind, get, lift, put. simpl.
  destruct (backuppaths inst !! i) as [bp|]; [|by intros [= <- _]].
  destruct (relative_to (path bp) root) as [parts|e1] eqn:Hrel.
  2:{ intros [= <- _]. by apply relative_to_raises in Hrel as ->. }
  unfold stored_decision. destruct (dot backup_conf); [|by intros [= <- _]].
  destruct (walk backup_conf b parts) as [b'|e2] eqn:Hw; [done|].
  intros [= <- _]. by apply walk_raises in Hw as ->.
Qed.

Lemma make_tree_File fuel pth s par last df include exclude filemax st :
  chain_ok st par [] ->
  (make_tree (S fuel) pth (File s) par last df include exclude filemax st).1
  = Raise NotADirectoryError.
Proof.
  intros Hc. rewrite make_tree_S.
  erewrite bind_ok by (by eapply BackupPath_init_spec). done.
Qed.

Lemma BackupPathStructure_init_raises root fs inc exc show fm md df e :
  BackupPathStructure_init root fs inc exc show fm md df = Raise e ->
  e = NotADirectoryError.
Proof.
  unfold BackupPathStructure_init. destruct fs as [s|l].
  - pose proof (make_tree_File (height (File s)) root s None false df inc exc
                  fm [] (chain_root [])) as H.
    destruct (make_tree _ _ _ _ _ _ _ _ _ _) as [[ys|e'] st]; simpl in H;
      congruence.
  - rewrite make_tree_top by lia. done.
Qed.

(** C9.  [_read_backup_conf] raises the error that asks for
    ['backupy build'] exactly when there is no configuration file, and so do
    [from_backup_conf] and [cmd_zip]; without the file none of them returns
    a result. *)
Theorem read_backup_conf_missing root w :
  (_read_backup_conf root w = Raise IOError_no_config <-> cfg w = None) /\
  (from_backup_conf root w = Raise IOError_no_config <-> cfg w = None) /\
  (cmd_zip root w = Raise IOError_no_config <-> cfg w = None) /\
  (cfg w = None ->
   (forall c, _read_backup_conf root w <> Ok c) /\
   (forall inst, from_backup_conf root w <> Ok inst) /\
   (forall paths, cmd_zip root w <> Ok paths)).
Proof.
  assert (H1 : _read_backup_conf root w = Raise IOError_no_config
               <-> cfg w = None).
  { unfold _read_backup_conf. destruct (cfg w) as [[|hd rd]|]; split; try done.
    intros H. by apply read_rows_raises in H. }
  assert (H2 : from_backup_conf root w = Raise IOError_no_config
               <-> cfg w = None).
  { split.
    - unfold from_backup_conf. intros H. apply H1.
      destruct (_read_backup_conf root w) as [c|e] eqn:Hr; [|congruence].
      destruct (BackupPathStructure_init _ _ _ _ _ _ _ _) as [inst|e] eqn:Hi.
      2:{ apply BackupPathStructure_init_raises in Hi. congruence. }
      destruct (for_each _ _ _ _) as [[u|e] inst'] eqn:Hl; [done|].
      eapply (for_each_raises (fun e => e <> IOError_no_config)) in Hl;
        [congruence|]. intros x acc s e' s'. apply reconcile_raises.
    - intros H. apply H1 in H. unfold from_backup_conf. by rewrite H. }
  assert (H3 : cmd_zip root w = Raise IOError_no_config <-> cfg w = None).
  { rewrite <- H2. unfold cmd_zip.
    destruct (from_backup_conf root w) as [inst|e]; [|split; congruence].
    destruct (cfg w); split; congruence. }
  repeat split; try tauto.
  - intros c. apply H1 in H. congruence.
  - intros inst. apply H2 in H. congruence.
  - intros paths. apply H3 in H. congruence.
Qed.

(** ** The nested dict *)

Lemma assoc_set_eq {V} k (v : V) l : assoc k (assoc_set k v l) = Some v.
Proof.
  induction l as [|[k' v'] l IH]; simpl.
  - by rewrite decide_True.
  - destruct (decide (k = k')) as [->|Hne]; simpl.
    + by rewrite decide_True.
    + by rewrite decide_False.
Qed.

Lemma assoc_set_ne {V} k k' (v : V) l :
  k' <> k -> assoc k' (assoc_set k v l) = assoc k' l.
Proof.
  intros Hne. induction l as [|[k0 v0] l IH]; simpl.
  - by rewrite decide_False.
  - destruct (decide (k = k0)) as [->|Hk]; simpl.
    + by rewrite !decide_False.
    + destruct (decide (k' = k0)); [done | apply IH].
Qed.

Lemma dot_add_parts b ps c : dot (add_parts b ps c) = dot c.
Proof. by destruct ps. Qed.

Lemma level_at_keys c1 c2 parts :
  keys c1 = keys c2 -> parts <> [] -> level_at c1 parts = level_at c2 parts.
Proof. intros Hk Hp. destruct parts; [done|]. simpl. by rewrite Hk. Qed.

(** A level that exists keeps its ["."] entry. *)
Lemma level_at_add_parts_keep b ps :
  forall c parts L,
    level_at c parts = Some L ->
    exists L', level_at (add_parts b ps c) parts = Some L' /\ dot L' = dot L.
Proof.
  induction ps as [|f rest IH]; intros c parts L HL; simpl; [eauto|].
  destruct parts as [|g gs]; simpl in *.
  { injection HL as <-. eauto. }
  destruct (decide (g = f)) as [->|Hne].
  - rewrite assoc_set_eq. destruct (assoc f (keys c)) as [r|]; [|done].
    by apply IH.
  - rewrite assoc_set_ne by done. destruct (assoc g (keys c)); eauto.
Qed.

(** A level a row goes through and that did not exist gets the row's flag. *)
Lemma level_at_add_parts_new b ps :
  forall c parts,
    level_at c parts = None -> parts `prefix_of` ps ->
    exists L', level_at (add_parts b ps c) parts = Some L' /\ dot L' = Some b.
Proof.
  induction ps as [|f rest IH]; intros c parts HL Hpre.
  { apply prefix_nil_inv in Hpre as ->. done. }
  destruct parts as [|g gs]; [done|].
  pose proof (prefix_cons_inv_1 _ _ _ _ Hpre) as ->.
  apply prefix_cons_inv_2 in Hpre. simpl in *. rewrite assoc_set_eq.
  destruct (assoc f (keys c)) as [r|]; [by apply IH|].
  destruct gs as [|g' gs]; [|by apply IH].
  simpl. eexists. split; [done|]. by rewrite dot_add_parts.
Qed.

(** A level a row does not go through is not created by it. *)
Lemma level_at_add_parts_miss b ps :
  forall c parts,
    level_at c parts = None -> ~ parts `prefix_of` ps ->
    level_at (add_parts b ps c) parts = None.
Proof.
  induction ps as [|f rest IH]; intros c parts HL Hpre; [done|].
  destruct parts as [|g gs]; [done|]. simpl in *.
  destruct (decide (g = f)) as [->|Hne].
  - rewrite assoc_set_eq.
    assert (~ gs `prefix_of` rest) as Hpre'.
    { intros H. apply Hpre. by apply prefix_cons. }
    destruct (assoc f (keys c)) as [r|]; [by apply IH|].
    destruct gs as [|g' gs]; [destruct Hpre'; apply prefix_nil|].
    by apply IH.
  - by rewrite assoc_set_ne.
Qed.

Lemma read_row_inv root b n2 acc acc' :
  read_row root (Row b n2) acc = Ok acc' ->
  exists ps acc0,
    relative_to n2 root = Ok ps /\ keys acc0 = keys acc /\
    (ps <> [] -> acc0 = acc) /\
    (ps = [] -> dot acc0 = Some (negb (b =? 0)%Z)) /\
    acc' = add_parts (negb (b =? 0)%Z) ps acc0.
Proof.
  simpl. destruct (relative_to n2 root) as [ps|] eqn:Hrel; [|done].
  intros [= <-]. destruct ps as [|f ps].
  - exists [], (Conf (Some (negb (b =? 0)%Z)) (keys acc)). by repeat split.
  - exists (f :: ps), acc. by repeat split.
Qed.

Lemma read_rows_app root rd1 rd2 acc :
  read_rows root (rd1 ++ rd2) acc
  = match read_rows root rd1 acc with
    | Ok c => read_rows root rd2 c
    | Raise e => Raise e
    end.
Proof.
  revert acc. induction rd1 as [|ln rd1 IH]; intros acc; simpl; [done|].
  destruct (read_row root ln acc); [apply IH | done].
Qed.

Lemma read_rows_keep root parts rd :
  forall acc c L,
    parts <> [] ->
    read_rows root rd acc = Ok c -> level_at acc parts = Some L ->
    exists L', level_at c parts = Some L' /\ dot L' = dot L.
Proof.
  induction rd as [|ln rd IH]; intros acc c L Hp Hr HL; simpl in Hr.
  { injection Hr as <-. eauto. }
  destruct (read_row root ln acc) as [acc'|] eqn:Hrow; [|done].
  destruct ln as [|b n2]; [done|].
  apply read_row_inv in Hrow as (ps & acc0 & _ & Hk & _ & _ & ->).
  rewrite <- (level_at_keys acc0 acc) in HL by done.
  destruct (level_at_add_parts_keep (negb (b =? 0)%Z) ps acc0 parts L HL)
    as (L1 & HL1 & Hd1).
  destruct (IH _ _ _ Hp Hr HL1) as (L' & HL' & Hd'). exists L'.
  split; [done | congruence].
Qed.

Lemma read_rows_miss root parts rd :
  forall acc c,
    parts <> [] ->
    Forall (fun ln => ~ goes_through root parts ln) rd ->
    read_rows root rd acc = Ok c -> level_at acc parts = None ->
    level_at c parts = None.
Proof.
  induction rd as [|ln rd IH]; intros acc c Hp Hall Hr HL; simpl in Hr.
  { by injection Hr as <-. }
  apply Forall_cons in Hall as [Hln Hall].
  destruct (read_row root ln acc) as [acc'|] eqn:Hrow; [|done].
  destruct ln as [|b n2]; [done|].
  apply read_row_inv in Hrow as (ps & acc0 & Hrel & Hk & _ & _ & ->).
  rewrite <- (level_at_keys acc0 acc) in HL by done.
  simpl in Hln. rewrite Hrel in Hln.
  eapply IH; [done | done | done |]. by apply level_at_add_parts_miss.
Qed.

Lemma read_rows_dot root rd :
  forall acc c,
    Forall (fun ln => ~ names_root root ln) rd ->
    read_rows root rd acc = Ok c -> dot c = dot acc.
Proof.
  induction rd as [|ln rd IH]; intros acc c Hall Hr; simpl in Hr.
  { by injection Hr as <-. }
  apply Forall_cons in Hall as [Hln Hall].
  destruct (read_row root ln acc) as [acc'|] eqn:Hrow; [|done].
  destruct ln as [|b n2]; [done|].
  apply read_row_inv in Hrow as (ps & acc0 & Hrel & Hk & Hne & _ & ->).
  rewrite (IH _ _ Hall Hr), dot_add_parts. simpl in Hln.
  rewrite Hne; [done|]. intros ->. by apply Hln.
Qed.

Lemma read_rows_decides root rd1 b n2 rd2 ps c :
  relative_to n2 root = Ok ps ->
  read_rows root (rd1 ++ Row b n2 :: rd2) (Conf None []) = Ok c ->
  (forall parts,
      parts <> [] -> parts `prefix_of` ps ->
      Forall (fun ln => ~ goes_through root parts ln) rd1 ->
      exists L, level_at c parts = Some L /\ dot L = Some (negb (b =? 0)%Z)) /\
  (ps = [] ->
   Forall (fun ln => ~ names_root root ln) rd2 ->
   dot c = Some (negb (b =? 0)%Z)).
Proof.
  intros Hrel Hread. rewrite read_rows_app in Hread.
  destruct (read_rows root rd1 (Conf None [])) as [c1|] eqn:H1; [|done].
  cbn [read_rows] in Hread.
  destruct (read_row root (Row b n2) c1) as [c2|] eqn:H2; [|done].
  apply read_row_inv in H2 as (ps' & acc0 & Hrel' & Hk & Hne & Hroot & ->).
  rewrite Hrel in Hrel'. injection Hrel' as <-. split.
  - intros parts Hp Hpre Hall.
    assert (level_at acc0 parts = None) as Hnone.
    { rewrite (level_at_keys acc0 c1) by done.
      eapply read_rows_miss; [done | done | done |]. by destruct parts. }
    destruct (level_at_add_parts_new (negb (b =? 0)%Z) ps acc0 parts Hnone Hpre)
      as (L1 & HL1 & Hd1).
    destruct (read_rows_keep root parts rd2 _ _ _ Hp Hread HL1)
      as (L & HL & Hd).
    exists L. split; [done | congruence].
  - intros -> Hall. rewrite (read_rows_dot root rd2 _ _ Hall Hread).
    rewrite dot_add_parts. by apply Hroot.
Qed.

(** C10, as the code has it.  Below the root, the ["."] entry of a level
    is the flag of the first row whose path goes through that level, and
    no later row changes it.  The ["."] entry of the root dict is assigned
    by every row that names the root, so there the last such row decides. *)
Theorem read_backup_conf_first_row_decides root w hd rd1 b n2 rd2 ps c :
  cfg w = Some (hd :: rd1 ++ Row b n2 :: rd2) ->
  relative_to n2 root = Ok ps ->
  _read_backup_conf root w = Ok c ->
  (forall parts,
      parts <> [] -> parts `prefix_of` ps ->
      Forall (fun ln => ~ goes_through root parts ln) rd1 ->
      exists L, level_at c parts = Some L /\ dot L = Some (negb (b =? 0)%Z)) /\
  (ps = [] ->
   Forall (fun ln => ~ names_root root ln) rd2 ->
   dot c = Some (negb (b =? 0)%Z)).
Proof.
  intros Hcfg Hrel Hread. unfold _read_backup_conf in Hread.
  rewrite Hcfg in Hread. by eapply read_rows_decides.
Qed.

Lemma read_backup_conf_first_row_decides_witness :
  let w := mkWorld ex_tree_before
             (Some [Header; Row 0 (ex_root ++ ["a"; "b"]%string);
                    Row 1 (ex_root ++ ["a"]%string); Row 1 ex_root]) in
  cfg w = Some (Header :: [] ++ Row 0 (ex_root ++ ["a"; "b"]%string)
                  :: [Row 1 (ex_root ++ ["a"]%string); Row 1 ex_root]) /\
  relative_to (ex_root ++ ["a"; "b"]%string) ex_root = Ok ["a"; "b"]%string /\
  ["a"%string] <> [] /\
  ["a"%string] `prefix_of` ["a"; "b"]%string /\
  Forall (fun ln => ~ goes_through ex_root ["a"%string] ln) [] /\
  exists c L,
    _read_backup_conf ex_root w = Ok c /\
    level_at c ["a"%string] = Some L /\ dot L = Some false.
Proof.
  intros w. split; [reflexivity|]. split; [reflexivity|].
  split; [discriminate|]. split; [by exists ["b"%string]|].
  split; [constructor|].
  destruct (_read_backup_conf ex_root w) as [c|] eqn:Hc; [|discriminate].
  destruct (proj1 (read_backup_conf_first_row_decides ex_root w Header []
                     0 (ex_root ++ ["a"; "b"]%string)
                     [Row 1 (ex_root ++ ["a"]%string); Row 1 ex_root]
                     ["a"; "b"]%string c eq_refl eq_refl Hc)
              ["a"%string]) as (L & HL & Hd);
    [discriminate | by exists ["b"%string] | constructor |].
  exists c, L. done.
Defined.

(** C10, as claimed, fails at the root: of two rows that name the root the
    later one decides, and a row for a descendant does not set the root's
    entry at all. *)
Lemma read_backup_conf_root_overwritten :
  _read_backup_conf ex_root
    (mkWorld ex_tree_before (Some [Header; Row 1 ex_root; Row 0 ex_root]))
  = Ok (Conf (Some false) []) /\
  _read_backup_conf ex_root
    (mkWorld ex_tree_before
       (Some [Header; Row 1 (ex_root ++ ["a"]%string); Row 0 ex_root]))
  = Ok (Conf (Some false) [("a"%string, Conf (Some true) [])]).
Proof. split; vm_compute; reflexivity. Qed.

(** C5 fails on the code.  The configuration was written when the tree held
    [a/b] only, with [a/b] excluded; afterwards the directory [a/x] with a
    file [b] was created.  For [a/x/b] the segment [x] is missing under [a],
    whose recorded decision is true; but the walk goes on to look up [b] in
    the dict of [a], finds the entry of [a/b], and the new file gets the
    decision false of that other file. *)
Lemma from_backup_conf_missing_segment :
  (match BackupPathStructure_init ex_root ex_tree_before []
           [ex_root ++ ["a"; "b"]%string] 0 (-1) (-1) true with
   | Ok self => make_backup_conf self (mkWorld ex_tree_before None)
   | Raise e => (Raise e, mkWorld ex_tree_before None)
   end) = (Ok tt, mkWorld ex_tree_before (Some ex_cfg)) /\
  (match from_backup_conf ex_root (mkWorld ex_tree_after (Some ex_cfg)) with
   | Ok inst => map (fun bp => (path bp, backup bp)) (backuppaths inst)
   | Raise _ => []
   end)
  = [(ex_root, true);
     (ex_root ++ ["a"]%string, true);
     (ex_root ++ ["a"; "x"]%string, true);
     (ex_root ++ ["a"; "x"; "b"]%string, false);
     (ex_root ++ ["a"; "b"]%string, false)].
Proof. split; vm_compute; reflexivity. Qed.

(** ** [scan] *)

Lemma for_each_frame {S A B} (body : A -> B -> M S B) l :
  (forall x acc s, (body x acc s).2 = s) ->
  forall acc s, (for_each body l acc s).2 = s.
Proof.
  intros Hbody. induction l as [|x l IH]; intros acc s; simpl; [done|].
  unfold bind. pose proof (Hbody x acc s) as Hx.
  destruct (body x acc s) as [[acc'|e] s1]; simpl in Hx; subst; [apply IH|done].
Qed.

Lemma scan_step_frame display i rows self :
  (scan_step display i rows self).2 = self.
Proof.
  unfold scan_step, nth_backuppath, bind, get, lift. simpl.
  destruct (backuppaths self !! i) as [bp|]; [|done].
  destruct (skipped self display bp); [done|].
  destruct (_ || _); [|done]. by destruct (size_total self =? 0)%Z.
Qed.

(** C8.  Whatever its arguments, whether it returns or raises, [scan]
    leaves the structure as it found it: every node keeps its [backup],
    [size], [n_files], [depth], [is_last] and [path]. *)
Theorem scan_frame sizeannotate display ansi_highlight self :
  let self' := (scan sizeannotate display ansi_highlight self).2 in
  self' = self /\
  forall i bp,
    backuppaths self !! i = Some bp ->
    exists bp',
      backuppaths self' !! i = Some bp' /\
      backup bp' = backup bp /\ size bp' = size bp /\
      n_files bp' = n_files bp /\ depth bp' = depth bp /\
      is_last bp' = is_last bp /\ path bp' = path bp.
Proof.
  assert (H : (scan sizeannotate display ansi_highlight self).2 = self).
  { unfold scan, bind, get. simpl. apply for_each_frame.
    intros i rows s. apply scan_step_frame. }
  simpl. rewrite H. split; [done|]. intros i bp Hi. by exists bp.
Qed.

Lemma scan_step_spec display i rows self bp :
  backuppaths self !! i = Some bp ->
  scan_step display i rows self
  = (if listed self display bp
     then if (size_total self =? 0)%Z then Raise ZeroDivisionError
          else Ok (rows ++ [row_of bp])
     else Ok rows, self).
Proof.
  intros Hbp. unfold scan_step, nth_backuppath, bind, get, lift. simpl.
  rewrite Hbp. unfold listed. fold (explicit self bp).
  destruct (skipped self display bp); simpl; [done|].
  destruct (_ || _); [|done]. by destruct (size_total self =? 0)%Z.
Qed.

Lemma scan_loop self display :
  forall n k rows,
    k + n = length (backuppaths self) ->
    for_each (scan_step display) (seq k n) rows self
    = (if (size_total self =? 0)%Z
          && bool_decide (filter (fun bp => listed self display bp = true)
                            (drop k (backuppaths self)) <> [])
       then Raise ZeroDivisionError
       else Ok (rows ++ map row_of
                  (filter (fun bp => listed self display bp = true)
                     (drop k (backuppaths self)))),
       self).
Proof.
  induction n as [|n IH]; intros k rows Hk.
  { rewrite drop_ge by lia. simpl. rewrite andb_false_r, app_nil_r. done. }
  destruct (lookup_lt_is_Some_2 (backuppaths self) k) as [bp Hbp]; [lia|].
  rewrite (drop_S _ _ _ Hbp). cbn [seq for_each]. unfold bind at 1.
  rewrite (scan_step_spec display k rows self bp Hbp).
  destruct (listed self display bp) eqn:Hl.
  2:{ rewrite filter_cons_False by congruence. apply IH. lia. }
  rewrite filter_cons_True by done.
  destruct (size_total self =? 0)%Z eqn:Hz; simpl.
  { done. }
  rewrite IH by lia. simpl. by rewrite <- app_assoc.
Qed.

Lemma scan_spec sizeannotate display ansi_highlight self :
  scan sizeannotate display ansi_highlight self
  = (if (size_total self =? 0)%Z
        && bool_decide (filter (fun bp => listed self display bp = true)
                          (backuppaths self) <> [])
     then Raise ZeroDivisionError
     else Ok (map row_of
                (filter (fun bp => listed self display bp = true)
                   (backuppaths self))),
     self).
Proof.
  unfold scan, bind, get. simpl. by rewrite scan_loop.
Qed.

(** ** The display cap *)

Lemma insert_by_desc x l :
  StronglySorted Z.ge l ->
  StronglySorted Z.ge (insert_by (fun a b => (b <=? a)%Z) id x l).
Proof.
  induction 1 as [|y l Hs IH Hy]; simpl; [by repeat constructor|].
  unfold id. destruct (y <=? x)%Z eqn:Hle.
  - apply Z.leb_le in Hle. constructor; [by constructor|].
    constructor; [lia|]. eapply Forall_impl; [exact Hy|]. simpl. lia.
  - apply Z.leb_gt in Hle. constructor; [done|].
    rewrite (insert_by_Permutation _ _ x l). constructor; [lia | done].
Qed.

Lemma sorted_desc l :
  StronglySorted Z.ge (sorted (fun a b => (b <=? a)%Z) id l).
Proof.
  induction l as [|x l IH]; simpl; [constructor | by apply insert_by_desc].
Qed.

(** In a descending list at most [k] elements exceed the one at index [k]. *)
Lemma desc_above (l : list Z) :
  StronglySorted Z.ge l ->
  forall k c, l !! k = Some c ->
    length (filter (fun a => (c < a)%Z) l) <= k.
Proof.
  induction 1 as [|x l Hs IH Hx]; intros k c Hk; [done|].
  destruct k as [|k]; simpl in Hk.
  - injection Hk as <-. rewrite filter_cons_False by lia.
    replace (filter (fun a => (x < a)%Z) l) with (@nil Z); [done|].
    symmetry. clear IH Hs. induction Hx as [|y l Hy _ IHl]; [done|].
    rewrite filter_cons_False by lia. done.
  - rewrite filter_cons. specialize (IH k c Hk).
    destruct (decide (c < x)%Z); simpl; lia.
Qed.

Lemma length_filter_impl {A} (P Q : A -> Prop) `{!forall x, Decision (P x)}
    `{!forall x, Decision (Q x)} (l : list A) :
  (forall x, P x -> Q x) -> length (filter P l) <= length (filter Q l).
Proof.
  intros HPQ. induction l as [|x l IH]; [done|]. rewrite !filter_cons.
  destruct (decide (P x)), (decide (Q x)); simpl; try lia.
  exfalso. eauto.
Qed.

Lemma length_filter_fmap {A B} (f : A -> B) (P : B -> Prop)
    `{!forall x, Decision (P x)} (l : list A) :
  length (filter P (f <$> l)) = length (filter (fun x => P (f x)) l).
Proof.
  induction l as [|x l IH]; [done|]. rewrite fmap_cons, !filter_cons.
  destruct (decide (P (f x))); simpl; by rewrite IH.
Qed.

Lemma BackupPathStructure_init_inv rt fs inc exc sh fm md df self :
  BackupPathStructure_init rt fs inc exc sh fm md df = Ok self ->
  root self = rt /\ include self = inc /\ exclude self = exc /\
  show self = sh /\ max_depth_display self = md /\
  sizedist self
  = sorted (fun a b => (b <=? a)%Z) id
      (size <$> filter (fun bp => path_is_file bp = true) (backuppaths self)) /\
  size_total self = sum (sizedist self).
Proof.
  unfold BackupPathStructure_init.
  destruct (make_tree _ _ _ _ _ _ _ _ _ _) as [[ys|e] st]; [|done].
  intros [= <-]. done.
Qed.

Lemma files_above_cutoff self cutoff :
  sizedist self
  = sorted (fun a b => (b <=? a)%Z) id
      (size <$> filter (fun bp => path_is_file bp = true) (backuppaths self)) ->
  sizedist self !! max_display = Some cutoff ->
  length (filter (fun bp => path_is_file bp = true /\ (cutoff < size bp)%Z)
            (backuppaths self)) <= max_display.
Proof.
  intros Hd Hc.
  pose proof (desc_above (sizedist self)) as Hab.
  rewrite Hd in Hab at 1. specialize (Hab (sorted_desc _) _ _ Hc).
  rewrite Hd in Hab.
  rewrite (Permutation_length
             (filter_Permutation _ _ _ (sorted_Permutation _ _ _))) in Hab.
  rewrite length_filter_fmap in Hab.
  rewrite list_filter_filter in Hab. etrans; [|exact Hab].
  apply length_filter_impl. tauto.
Qed.

(** C7, as the code has it.  [scan] returns the rows of the nodes that are
    [listed], in the order of [backuppaths].  When more than [max_display]
    files were found and [scan] runs with [display] set, a node that is not
    named in [include] or [exclude] and is not too deep is skipped exactly
    when its size is at most [sizedist[max_display]], the size of the file
    that comes after the [max_display] largest ones; so at most
    [max_display] such files are listed.  Without [display], which is how
    [make_backup_conf] calls it, that node is not skipped. *)
Theorem scan_display_cap root fs inc exc sh fm md df self :
  BackupPathStructure_init root fs inc exc sh fm md df = Ok self ->
  max_display < length (sizedist self) ->
  exists cutoff,
    sizedist self !! max_display = Some cutoff /\
    (forall sizeannotate display ansi_highlight rows self',
        scan sizeannotate display ansi_highlight self = (Ok rows, self') ->
        rows = map row_of (filter (fun bp => listed self display bp = true)
                             (backuppaths self))) /\
    (forall bp,
        explicit self bp = false -> ~ too_deep self bp ->
        (skipped self true bp = true <-> (size bp <= cutoff)%Z) /\
        skipped self false bp = false) /\
    length (filter (fun bp => path_is_file bp = true /\
                              explicit self bp = false /\
                              listed self true bp = true)
              (backuppaths self)) <= max_display.
Proof.
  intros Hinit Hlen.
  destruct (lookup_lt_is_Some_2 (sizedist self) max_display Hlen)
    as [cutoff Hc].
  apply BackupPathStructure_init_inv in Hinit as (_ & _ & _ & _ & _ & Hd & _).
  assert (Hskip : forall bp,
             explicit self bp = false -> ~ too_deep self bp ->
             (skipped self true bp = true <-> (size bp <= cutoff)%Z) /\
             skipped self false bp = false).
  { intros bp He Hdeep. unfold skipped. fold (explicit self bp).
    rewrite He, Hc. simpl.
    assert ((max_depth_display self <? depth bp)%Z
            && (-1 <? max_depth_display self)%Z = false) as ->.
    { apply not_true_is_false. intros [H1 H2]%andb_true_iff.
      apply Hdeep. split; by apply Z.ltb_lt. }
    apply Nat.ltb_lt in Hlen. rewrite Hlen. simpl. split; [|done].
    apply Z.leb_le. }
  exists cutoff. split; [done|]. split; [|split; [done|]].
  - intros sa display ah rows self'. rewrite scan_spec.
    destruct (_ && _); [done|]. by intros [= <- _].
  - etrans; [|by apply files_above_cutoff]. apply length_filter_impl.
    intros bp (Hf & He & Hl). split; [done|].
    unfold listed in Hl. apply andb_true_iff in Hl as [Hl _].
    apply negb_true_iff in Hl. unfold skipped in Hl.
    fold (explicit self bp) in Hl. rewrite He, Hc in Hl. simpl in Hl.
    apply orb_false_iff in Hl as [_ Hl].
    apply Nat.ltb_lt in Hlen. rewrite Hlen in Hl. simpl in Hl.
    by apply Z.leb_gt in Hl.
Qed.

Lemma scan_display_cap_witness :
  match BackupPathStructure_init ex_root ex_tree_big [] [] 0 (-1) (-1) true with
  | Ok self =>
      max_display < length (sizedist self) /\
      exists cutoff,
        sizedist self !! max_display = Some cutoff /\
        (forall sizeannotate display ansi_highlight rows self',
            scan sizeannotate display ansi_highlight self = (Ok rows, self') ->
            rows = map row_of (filter (fun bp => listed self display bp = true)
                                 (backuppaths self))) /\
        (forall bp,
            explicit self bp = false -> ~ too_deep self bp ->
            (skipped self true bp = true <-> (size bp <= cutoff)%Z) /\
            skipped self false bp = false) /\
        length (filter (fun bp => path_is_file bp = true /\
                                  explicit self bp = false /\
                                  listed self true bp = true)
                  (backuppaths self)) <= max_display
  | Raise _ => False
  end.
Proof.
  assert (Hn : match BackupPathStructure_init ex_root ex_tree_big [] [] 0
                       (-1) (-1) true with
               | Ok self => length (sizedist self)
               | Raise _ => 0
               end = 1001) by (vm_compute; reflexivity).
  destruct (BackupPathStructure_init ex_root ex_tree_big [] [] 0 (-1) (-1) true)
    as [self|e] eqn:Hinit; [|discriminate].
  assert (Hlen : max_display < length (sizedist self))
    by (rewrite Hn; unfold max_display; lia).
  split; [exact Hlen|].
  exact (scan_display_cap ex_root ex_tree_big [] [] 0 (-1) (-1) true self
           Hinit Hlen).
Defined.

(** C7, as claimed, fails.  Of the 1001 files of this directory the one
    that comes after the [max_display] largest has size 5, and so has the
    last of the [max_display] largest.  With [display] set, the two files
    of size 5 are hidden although they are not smaller than that file, and
    999 files are listed below the root instead of 1000.  Without
    [display], as in [make_backup_conf], nothing is hidden: the root and all
    1001 files are listed. *)
Lemma scan_cap_ties_and_no_display :
  match BackupPathStructure_init ex_root ex_tree_big [] [] 0 (-1) (-1) true with
  | Ok self =>
      (length (sizedist self), sizedist self !! (max_display - 1),
       sizedist self !! max_display) = (1001, Some 5%Z, Some 5%Z) /\
      match scan 100000000 true true self with
      | (Ok rows, _) =>
          (length rows, existsb (fun r => (row_size r =? 5)%Z) rows)
          = (1000, false)
      | (Raise _, _) => False
      end /\
      match scan 100000000 false false self with
      | (Ok rows, _) =>
          (length rows, existsb (fun r => (row_size r =? 5)%Z) rows)
          = (1002, true)
      | (Raise _, _) => False
      end
  | Raise _ => False
  end.
Proof. vm_compute. repeat split; reflexivity. Qed.

(** ** Paths in walk order *)

Section Paths.
Variables (include exclude : list Path).

Lemma subtrees_prefix e :
  forall inh pth x,
    x ∈ subtrees include exclude inh pth e -> pth `prefix_of` l_path x.
Proof.
  induction e as [s|l IH] using entry_ind'; intros inh pth x Hx; simpl in Hx.
  { apply list_elem_of_singleton in Hx as ->. done. }
  apply elem_of_cons in Hx as [->|Hx]; [done|].
  apply elem_of_concat in Hx as (k & Hx & Hk).
  apply list_elem_of_fmap in Hk as (c & -> & Hc).
  rewrite Forall_forall in IH. apply (IH c Hc) in Hx.
  etrans; [|exact Hx]. by apply prefix_app_r.
Qed.

Lemma StronglySorted_app_2 {A} (R : A -> A -> Prop) l1 l2 :
  StronglySorted R l1 -> StronglySorted R l2 ->
  (forall x y, x ∈ l1 -> y ∈ l2 -> R x y) ->
  StronglySorted R (l1 ++ l2).
Proof.
  intros H1 H2 H12. induction H1 as [|x l1 Hs IH Hx]; simpl; [done|].
  constructor.
  - apply IH. intros a b Ha Hb. apply H12; [by apply list_elem_of_further | done].
  - apply Forall_app. split; [done|]. apply Forall_forall. intros y Hy.
    apply H12; [apply list_elem_of_here | done].
Qed.

Lemma prefix_snoc_inj (pth : Path) n1 n2 q :
  pth ++ [n1] `prefix_of` q -> pth ++ [n2] `prefix_of` q -> n1 = n2.
Proof.
  intros [k1 ->] [k2 H]. rewrite <- !app_assoc in H.
  apply app_inv_head in H. simpl in H. congruence.
Qed.

Lemma paths_after e :
  forall inh pth,
    wf_names e = true ->
    StronglySorted after (l_path <$> subtrees include exclude inh pth e).
Proof.
  induction e as [s|l IH] using entry_ind'; intros inh pth Hwf.
  { simpl. repeat constructor. }
  simpl in Hwf. apply andb_true_iff in Hwf as [Hnd Hwf].
  apply bool_decide_eq_true in Hnd. rewrite forallb_forall in Hwf.
  simpl. constructor.
  - revert Hnd Hwf.
    induction IH as [|c l Hc _ IHl]; intros Hnd Hwf; simpl; [constructor|].
    rewrite fmap_app. apply NoDup_cons in Hnd as [Hc1 Hnd].
    apply StronglySorted_app_2.
    + apply Hc. apply Hwf. by left.
    + apply IHl; [done|]. intros c' Hc'. apply Hwf. by right.
    + intros p q Hp Hq Hpre.
      apply list_elem_of_fmap in Hp as (x & -> & Hx).
      apply list_elem_of_fmap in Hq as (y & -> & Hy).
      apply subtrees_prefix in Hx.
      apply elem_of_concat in Hy as (k & Hy & Hk).
      apply list_elem_of_fmap in Hk as (c' & -> & Hc').
      apply subtrees_prefix in Hy.
      assert (c'.1 = c.1) as Heq.
      { eapply prefix_snoc_inj; [|exact Hx]. by etrans. }
      apply Hc1. rewrite <- Heq. by apply list_elem_of_fmap_2.
  - apply Forall_forall. intros q Hq Hpre.
    apply list_elem_of_fmap in Hq as (y & -> & Hy).
    apply elem_of_concat in Hy as (k & Hy & Hk).
    apply list_elem_of_fmap in Hk as (c' & -> & Hc').
    apply subtrees_prefix in Hy.
    assert (pth ++ [c'.1] `prefix_of` pth) as Hbad by (by etrans).
    apply prefix_length in Hbad. rewrite length_app in Hbad. simpl in Hbad. lia.
Qed.
End Paths.

Lemma wf_names_sort_tree df e : wf_names e = true -> wf_names (sort_tree df e) = true.
Proof.
  induction e as [s|l IH] using entry_ind'; intros Hwf; [done|].
  rewrite sort_tree_Dir. simpl in *.
  apply andb_true_iff in Hwf as [Hnd Hwf].
  apply bool_decide_eq_true in Hnd. rewrite forallb_forall in Hwf.
  apply andb_true_iff. split.
  - apply bool_decide_eq_true.
    change (map (sort_child df) ?k) with (sort_child df <$> k).
    rewrite <- list_fmap_compose, sorted_Permutation.
    replace ((fst ∘ sort_child df) <$> l) with (l.*1); [done|].
    apply list_fmap_ext. by intros i [n c] _.
  - rewrite forallb_forall. intros c Hc. apply in_map_iff in Hc as (c0 & <- & Hc0).
    simpl. apply list_elem_of_In in Hc0.
    rewrite (sorted_Permutation key_le (sort_key df) l) in Hc0.
    rewrite Forall_forall in IH. apply (IH c0 Hc0).
    apply Hwf. by apply list_elem_of_In.
Qed.

(** ** Dicts whose levels all have their own entry *)

Lemma assoc_elem_of {V} k (v : V) l : assoc k l = Some v -> (k, v) ∈ l.
Proof.
  induction l as [|[k' v'] l IH]; simpl; [done|].
  case_decide; [intros [= <-]; subst; apply list_elem_of_here|].
  intros Hk. apply list_elem_of_further. by apply IH.
Qed.

Lemma assoc_set_Forall {V} (P : string * V -> Prop) k v l :
  Forall P l -> P (k, v) -> Forall P (assoc_set k v l).
Proof.
  intros Hl Hv. induction Hl as [|[k' v'] l Hx Hl IH]; simpl.
  - by repeat constructor.
  - case_decide; constructor; done.
Qed.

Lemma add_parts_full b ps :
  forall c, conf_full c -> conf_full (add_parts b ps c).
Proof.
  induction ps as [|f rest IH]; intros c Hc; [done|].
  inversion Hc as [c' Hdot Hkeys]; subst. simpl. constructor; [done|]. simpl.
  apply assoc_set_Forall; [done|]. simpl. apply IH.
  destruct (assoc f (keys c)) as [r|] eqn:Hr.
  - apply assoc_elem_of in Hr. rewrite Forall_forall in Hkeys.
    apply (Hkeys _ Hr).
  - constructor; simpl; [by eexists | constructor].
Qed.


Lemma walk_full parts :
  forall bc b, conf_full bc -> exists b', walk bc b parts = Ok b'.
Proof.
  induction parts as [|f rest IH]; intros bc b Hfull; simpl; [eauto|].
  assert (conf_full (match assoc f (keys bc) with Some c => c | None => bc end))
    as Hfull'.
  { destruct (assoc f (keys bc)) as [c'|] eqn:Hc; [|done].
    inversion Hfull as [? _ Hk]; subst. apply assoc_elem_of in Hc.
    rewrite Forall_forall in Hk. apply (Hk _ Hc). }
  inversion Hfull' as [? [d Hdot] _]; subst. rewrite Hdot. by apply IH.
Qed.


Lemma stored_decision_full c parts :
  conf_full c -> exists b, stored_decision c parts = Ok b.
Proof.
  intros Hfull. unfold stored_decision.
  inversion Hfull as [? [d Hdot] _]; subst. rewrite Hdot. by apply walk_full.
Qed.

Lemma relative_to_app (root parts : Path) :
  relative_to (root ++ parts) root = Ok parts.
Proof.
  induction root as [|r root IH]; simpl; [done|]. by rewrite decide_True.
Qed.

Lemma relative_to_inv p root parts :
  relative_to p root = Ok parts -> p = root ++ parts.
Proof.
  revert p. induction root as [|r root IH]; intros p; simpl; [congruence|].
  destruct p as [|x p]; [done|]. case_decide; [|done]. subst.
  intros H. by rewrite (IH _ H).
Qed.




(** ** Writing the rows and reading them back *)



Lemma relative_to_self (root : Path) : relative_to root root = Ok [].
Proof. pose proof (relative_to_app root []) as H. by rewrite app_nil_r in H. Qed.

Section WrittenConf.
Context (root : Path) (L : BackupPath -> Prop) `{!forall x, Decision (L x)}.


End WrittenConf.

(** ** [from_backup_conf] *)

Lemma set_backuppaths_id inst : set_backuppaths (backuppaths inst) inst = inst.
Proof. by destruct inst. Qed.

Lemma reconcile_spec root conf i u inst bp :
  backuppaths inst !! i = Some bp ->
  can_reconcile root conf bp ->
  reconcile root conf i u inst
  = (Ok tt,
     set_backuppaths (alter (fun _ => reconciled root conf bp) i
                        (backuppaths inst)) inst).
Proof.
  intros Hi (parts & b & Hrel & Hdec).
  unfold reconcile, nth_backuppath, bind, get, lift, put. simpl.
  rewrite Hi, Hrel, Hdec. do 2 f_equal.
  apply list_alter_ext; [|done]. intros x Hx.
  assert (x = bp) as -> by congruence.
  unfold reconciled. by rewrite Hrel, Hdec.
Qed.

Lemma reconcile_loop root conf inst nodes :
  Forall (can_reconcile root conf) nodes ->
  forall n k,
    k + n = length nodes ->
    for_each (reconcile root conf) (seq k n) tt
      (set_backuppaths (map (reconciled root conf) (take k nodes)
                        ++ drop k nodes) inst)
    = (Ok tt, set_backuppaths (map (reconciled root conf) nodes) inst).
Proof.
  intros Hall. induction n as [|n IH]; intros k Hk.
  { simpl. rewrite take_ge, drop_ge by lia. by rewrite app_nil_r. }
  destruct (lookup_lt_is_Some_2 nodes k) as [bp Hbp]; [lia|].
  cbn [seq for_each]. unfold bind at 1.
  assert (length (map (reconciled root conf) (take k nodes)) = k) as Hlen.
  { rewrite length_map, length_take. lia. }
  rewrite (reconcile_spec _ _ _ _ _ bp).
  - simpl. rewrite <- (IH (S k)) by lia. f_equal.
    unfold set_backuppaths. simpl. f_equal.
    rewrite (drop_S _ _ _ Hbp), (take_S_r _ _ _ Hbp).
    rewrite map_app. simpl. rewrite <- app_assoc. simpl.
    pose proof (alter_app_r (fun _ => reconciled root conf bp)
                  (map (reconciled root conf) (take k nodes))
                  (bp :: drop (S k) nodes) 0) as Ha.
    rewrite Hlen, Nat.add_0_r in Ha. exact Ha.
  - simpl. rewrite lookup_app_r by lia. rewrite Hlen, Nat.sub_diag.
    by rewrite (drop_S _ _ _ Hbp).
  - rewrite Forall_forall in Hall. apply Hall.
    by eapply list_elem_of_lookup_2.
Qed.


Lemma Forall2_fmap_eq {A B C} (f : A -> C) (g : B -> C) l k :
  Forall2 (fun a b => f a = g b) l k -> f <$> l = g <$> k.
Proof.
  induction 1 as [|a b l k Hab _ IH]; [done|].
  by rewrite !fmap_cons, Hab, IH.
Qed.

Lemma expected_paths include exclude filemax off par d last inh pth e :
  path <$> expected include exclude filemax off par d last inh pth e
  = l_path <$> subtrees include exclude inh pth e.
Proof.
  apply Forall2_fmap_eq. eapply Forall2_impl; [apply expected_subtrees|].
  by intros bp x (Hp & _).
Qed.

Lemma BackupPathStructure_init_Dir rt l inc exc sh fm md df :
  exists self,
    BackupPathStructure_init rt (Dir l) inc exc sh fm md df = Ok self /\
    backuppaths self
    = expected inc exc fm 0 None 0 false true rt (sort_tree df (Dir l)) /\
    root self = rt /\ include self = inc /\ exclude self = exc /\
    max_depth_display self = md.
Proof.
  unfold BackupPathStructure_init. rewrite make_tree_top by lia.
  eexists. split; [done|]. done.
Qed.


Lemma root_listed self n0 :
  path n0 = root self -> depth n0 = 0%Z -> listed self false n0 = true.
Proof.
  intros Hp Hd. unfold listed, skipped. rewrite Hd.
  rewrite (bool_decide_eq_true_2 (path n0 = root self)) by done. simpl.
  assert ((max_depth_display self <? 0)%Z && (-1 <? max_depth_display self)%Z
          = false) as ->.
  { apply not_true_is_false. intros [H1 H2]%andb_true_iff.
    apply Z.ltb_lt in H1, H2. lia. }
  simpl. by rewrite andb_false_r.
Qed.




(** * More on the tree *)

(** ** Parents, depths and paths *)

Lemma expected_kids_lookup rec len l :
  (forall c off' last', length (rec off' last' c.1 c.2) = num_nodes c.2) ->
  forall off count j bp,
    expected_kids rec off count len l !! j = Some bp ->
    exists c offc lastc k,
      c ∈ l /\ off <= offc /\ off + j = offc + k /\
      rec offc lastc c.1 c.2 !! k = Some bp /\
      forall q x,
        rec offc lastc c.1 c.2 !! q = Some x ->
        expected_kids rec off count len l !! (offc - off + q) = Some x.
Proof.
  intros Hlen. induction l as [|c l IH]; intros off count j bp Hj;
    simpl in Hj; [done|].
  apply lookup_app_Some in Hj as [Hj|[Hge Hj]].
  - exists c, off, (count =? len)%Z, j. split; [apply list_elem_of_here|].
    repeat split; [lia | done |]. intros q x Hq. simpl.
    rewrite Nat.sub_diag. simpl. by apply lookup_app_l_Some.
  - rewrite Hlen in Hge, Hj.
    destruct (IH _ _ _ _ Hj) as (c' & offc & lastc & k & Hc & Ho & Hk & Hr & Hall).
    exists c', offc, lastc, k. split; [by apply list_elem_of_further|].
    repeat split; [lia | lia | done |]. intros q x Hq. simpl.
    rewrite lookup_app_r; rewrite Hlen; [|lia].
    replace (offc - off + q - num_nodes c.2)
      with (offc - (off + num_nodes c.2) + q) by lia.
    by apply Hall.
Qed.

Lemma expected_structure include exclude filemax e :
  forall off par d last inh pth j bp,
    expected include exclude filemax off par d last inh pth e !! j = Some bp ->
    (j = 0 /\ parent bp = par /\ depth bp = d /\ path bp = pth) \/
    (exists p pn name,
        parent bp = Some p /\ off <= p /\ p < off + j /\
        expected include exclude filemax off par d last inh pth e !! (p - off)
        = Some pn /\
        path_is_dir pn = true /\ path bp = path pn ++ [name] /\
        depth bp = (depth pn + 1)%Z).
Proof.
  induction e as [s|l IH] using entry_ind';
    intros off par d last inh pth j bp Hj.
  { destruct j; simpl in Hj; [|done]. injection Hj as <-. by left. }
  destruct j as [|j]; simpl in Hj.
  { injection Hj as <-. by left. }
  right. apply expected_kids_lookup in Hj
    as (c & offc & lastc & k & Hc & Ho & Hk & Hr & Hall).
  2:{ intros c' off' last'. apply length_expected. }
  rewrite Forall_forall in IH.
  destruct (IH c Hc _ _ _ _ _ _ _ _ Hr)
    as [(-> & Hp & Hd & Hpath)|(p & pn & name & Hp & Hlo & Hhi & Hpn & Hdir & Hpath & Hd)].
  - exists off, (mkBackupPath pth par last true (total_size (Dir l))
                   (count_files (Dir l)) d
                   (any_backup include exclude filemax inh pth (Dir l)) true),
      c.1.
    rewrite Nat.sub_diag. simpl. repeat split; try done; lia.
  - exists p, pn, name. repeat split; try done; try lia.
    replace (p - off) with (S (offc - S off + (p - offc))) by lia.
    simpl. by apply Hall.
Qed.

Lemma StronglySorted_after_NoDup (ps : list Path) :
  StronglySorted after ps -> NoDup ps.
Proof.
  induction 1 as [|p ps Hs IH Hp]; constructor; [|done].
  intros Hin. rewrite Forall_forall in Hp. by apply (Hp p Hin).
Qed.

(** X1.  In the store [make_tree] builds, the first node is the root, with
    no parent and depth 0; every other node's parent is an older node that
    is a directory, one level higher, whose path is the node's path without
    its last part. *)
Theorem make_tree_tree_shaped include exclude filemax dir_first fuel pth l :
  height (Dir l) <= fuel ->
  tree_shaped pth
    (make_tree fuel pth (Dir l) None false dir_first include exclude filemax
       []).2.
Proof.
  intros Hh. rewrite make_tree_top by done. cbn [snd]. intros i bp Hi.
  destruct (expected_structure _ _ _ _ _ _ _ _ _ _ _ _ Hi)
    as [(-> & Hp & Hd & Hpath)|(p & pn & name & Hp & _ & Hlt & Hpn & Hrest)].
  - by left.
  - right. rewrite Nat.sub_0_r in Hpn. split; [lia|]. by exists p, pn, name.
Qed.

Lemma make_tree_tree_shaped_witness :
  height ex_tree <= 3 /\
  tree_shaped ex_root
    (make_tree 3 ex_root ex_tree None false true [] [] (-1) []).2.
Proof.
  split; [simpl; lia|].
  apply (make_tree_tree_shaped [] [] (-1) true 3 ex_root ex_listing).
  simpl. lia.
Defined.

Lemma expected_kids_Forall (P : BackupPath -> Prop) rec len l :
  Forall (fun c => forall off' last', Forall P (rec off' last' c.1 c.2)) l ->
  forall off count, Forall P (expected_kids rec off count len l).
Proof.
  induction 1 as [|c l Hc _ IH]; intros off count; simpl; [constructor|].
  apply Forall_app. split; [apply Hc | apply IH].
Qed.

Lemma expected_depth include exclude filemax e :
  forall off par d last inh pth,
    Forall (fun bp =>
              pth `prefix_of` path bp /\
              depth bp = (d + Z.of_nat (length (path bp) - length pth))%Z)
      (expected include exclude filemax off par d last inh pth e).
Proof.
  induction e as [s|l IH] using entry_ind'; intros off par d last inh pth.
  { simpl. constructor; [|constructor]. simpl. split; [done|].
    rewrite Nat.sub_diag. lia. }
  simpl. constructor.
  { simpl. split; [done|]. rewrite Nat.sub_diag. lia. }
  apply expected_kids_Forall. eapply Forall_impl; [exact IH|].
  intros c Hc off' last'. eapply Forall_impl; [apply Hc|].
  intros bp [Hpre Hd]. simpl in *. split.
  - etrans; [|exact Hpre]. by apply prefix_app_r.
  - rewrite Hd. apply prefix_length in Hpre. rewrite length_app in *.
    simpl in *. lia.
Qed.

(** X2.  Over a directory whose listings have distinct names, no two nodes
    of the built tree share a path; every path lies under the root's, and a
    node's depth is the number of parts its path has below the root. *)
Theorem make_tree_paths include exclude filemax dir_first fuel pth l :
  wf_names (Dir l) = true ->
  height (Dir l) <= fuel ->
  let st := (make_tree fuel pth (Dir l) None false dir_first include exclude
               filemax []).2 in
  NoDup (path <$> st) /\
  Forall (fun bp =>
            pth `prefix_of` path bp /\
            depth bp = Z.of_nat (length (path bp) - length pth)) st.
Proof.
  intros Hwf Hh. rewrite make_tree_top by done. cbn [snd]. split.
  - rewrite expected_paths. apply StronglySorted_after_NoDup, paths_after.
    by apply wf_names_sort_tree.
  - eapply Forall_impl; [apply expected_depth|]. intros bp [Hp Hd].
    split; [done|]. rewrite Hd. lia.
Qed.

Lemma make_tree_paths_witness :
  wf_names ex_tree = true /\
  height ex_tree <= 3 /\
  let st := (make_tree 3 ex_root ex_tree None false true [] [] (-1) []).2 in
  NoDup (path <$> st) /\
  Forall (fun bp =>
            ex_root `prefix_of` path bp /\
            depth bp = Z.of_nat (length (path bp) - length ex_root)) st.
Proof.
  split; [reflexivity|]. split; [simpl; lia|].
  apply (make_tree_paths [] [] (-1) true 3 ex_root ex_listing); [reflexivity|].
  simpl. lia.
Defined.

(** ** A root that is not a directory *)

Lemma sum_list_Permutation_eq (k k' : list nat) :
  k ≡ₚ k' -> sum_list k = sum_list k'.
Proof. induction 1; simpl; lia. Qed.

Lemma num_nodes_sort_tree df e : num_nodes (sort_tree df e) = num_nodes e.
Proof.
  induction e as [s|l IH] using entry_ind'; [done|].
  rewrite sort_tree_Dir. simpl. f_equal.
  rewrite map_map.
  transitivity (sum_list (map (fun c => num_nodes (sort_child df c).2) l)).
  - apply sum_list_Permutation_eq, Permutation_map, sorted_Permutation.
  - induction IH as [|c k Hc _ IHk]; [done|].
    rewrite !map_cons. cbn [sum_list sum_list_with]. f_equal; [exact Hc|exact IHk].
Qed.

(** X3.  [BackupPathStructure] is built over a directory, not over a
    file: over a regular file [make_tree] fails in [iterdir] and [__init__]
    raises [NotADirectoryError]; over a directory that holds at least one
    file it returns, with one object per file and directory of the tree.
    (Over a directory without any file the source fails in the quantile of
    the empty [sizedist], which is outside the model.) *)
Theorem BackupPathStructure_init_root_kind rt fs inc exc sh fm md df :
  match fs with
  | File _ =>
      BackupPathStructure_init rt fs inc exc sh fm md df
      = Raise NotADirectoryError
  | Dir _ =>
      count_files fs <> 0%Z ->
      exists self,
        BackupPathStructure_init rt fs inc exc sh fm md df = Ok self /\
        length (backuppaths self) = num_nodes fs
  end.
Proof.
  destruct fs as [s|l].
  - destruct (BackupPathStructure_init rt (File s) inc exc sh fm md df)
      as [self|e] eqn:Hinit.
    + unfold BackupPathStructure_init in Hinit.
      pose proof (make_tree_File (height (File s)) rt s None false df inc
                    exc fm [] (chain_root [])) as H.
      destruct (make_tree _ _ _ _ _ _ _ _ _ _) as [[ys|e'] st];
        simpl in H; congruence.
    + by apply BackupPathStructure_init_raises in Hinit as ->.
  - intros _.
    destruct (BackupPathStructure_init_Dir rt l inc exc sh fm md df)
      as (self & Hinit & Hnodes & _).
    exists self. split; [done|].
    by rewrite Hnodes, length_expected, num_nodes_sort_tree.
Qed.

Lemma BackupPathStructure_init_root_kind_witness :
  count_files ex_tree <> 0%Z /\
  exists self,
    BackupPathStructure_init ex_root ex_tree [] [] 0 (-1) (-1) true = Ok self /\
    length (backuppaths self) = num_nodes ex_tree.
Proof.
  split; [vm_compute; discriminate|].
  apply (BackupPathStructure_init_root_kind ex_root ex_tree [] [] 0 (-1) (-1)
           true).
  vm_compute. discriminate.
Defined.

(** ** The size distribution *)

Lemma sum_Permutation (k k' : list Z) : k ≡ₚ k' -> sum k = sum k'.
Proof. induction 1; simpl; lia. Qed.

Lemma concat_map_Permutation {A B} (f g : A -> list B) l l' :
  l ≡ₚ l' -> Forall (fun c => f c ≡ₚ g c) l ->
  concat (map f l) ≡ₚ concat (map g l').
Proof.
  intros Hp Hall. rewrite <- Hp. clear Hp l'.
  induction Hall as [|c l Hc _ IH]; simpl; [done|]. by rewrite Hc, IH.
Qed.

Lemma file_sizes_sort_tree df e : file_sizes (sort_tree df e) ≡ₚ file_sizes e.
Proof.
  induction e as [s|l IH] using entry_ind'; [done|].
  rewrite sort_tree_Dir. simpl. rewrite map_map.
  apply concat_map_Permutation; [apply sorted_Permutation|].
  apply Forall_sorted. exact IH.
Qed.

Lemma sum_file_sizes e : sum (file_sizes e) = total_size e.
Proof.
  induction e as [s|l IH] using entry_ind'; simpl; [lia|].
  induction IH as [|c l Hc _ IHl]; simpl; [done|].
  by rewrite sum_app, Hc, IHl.
Qed.

Lemma total_size_sort_tree df e : total_size (sort_tree df e) = total_size e.
Proof.
  rewrite <- !sum_file_sizes. apply sum_Permutation, file_sizes_sort_tree.
Qed.

Lemma length_file_sizes e : Z.of_nat (length (file_sizes e)) = count_files e.
Proof.
  induction e as [s|l IH] using entry_ind'; simpl; [done|].
  induction IH as [|c l Hc _ IHl]; simpl; [done|].
  rewrite length_app, Nat2Z.inj_add, Hc, IHl. done.
Qed.

Lemma file_sizes_subtrees include exclude e :
  forall inh pth,
    map (fun x => total_size (l_entry x))
      (filter (fun x => is_file (l_entry x) = true)
         (subtrees include exclude inh pth e))
    = file_sizes e.
Proof.
  induction e as [s|l IH] using entry_ind'; intros inh pth; [done|].
  cbn [subtrees file_sizes]. rewrite filter_cons_False by done.
  generalize (name_rule include exclude inh pth). intros inh'.
  induction IH as [|c l Hc _ IHl]; simpl; [done|].
  by rewrite filter_app, map_app, Hc, IHl.
Qed.

Lemma mirrors_file_sizes include exclude filemax st xs :
  Forall2 (mirrors include exclude filemax) st xs ->
  size <$> filter (fun bp => path_is_file bp = true) st
  = map (fun x => total_size (l_entry x))
      (filter (fun x => is_file (l_entry x) = true) xs).
Proof.
  induction 1 as [|bp x st xs (_ & Hd & Hs & _) _ IH]; [done|].
  assert (path_is_file bp = is_file (l_entry x)) as Hf.
  { unfold path_is_file. rewrite Hd. by destruct (l_entry x). }
  destruct (is_file (l_entry x)) eqn:He.
  - rewrite !filter_cons_True by done. rewrite fmap_cons, map_cons.
    by rewrite Hs, IH.
  - rewrite !filter_cons_False by congruence. done.
Qed.

Lemma init_sizedist_perm rt l inc exc sh fm md df self :
  BackupPathStructure_init rt (Dir l) inc exc sh fm md df = Ok self ->
  sizedist self ≡ₚ file_sizes (Dir l).
Proof.
  intros Hinit.
  destruct (BackupPathStructure_init_Dir rt l inc exc sh fm md df)
    as (self' & Hinit' & Hnodes & _).
  assert (self' = self) as -> by congruence. clear Hinit'.
  apply BackupPathStructure_init_inv in Hinit
    as (_ & _ & _ & _ & _ & Hdist & Htotal).
  rewrite Hdist, sorted_Permutation, Hnodes.
  rewrite (mirrors_file_sizes inc exc fm _ _
             (expected_subtrees inc exc fm _ _ _ _ _ _ _)).
  rewrite file_sizes_subtrees. apply file_sizes_sort_tree.
Qed.

Lemma init_size_total rt l inc exc sh fm md df self :
  BackupPathStructure_init rt (Dir l) inc exc sh fm md df = Ok self ->
  size_total self = total_size (Dir l).
Proof.
  intros Hinit.
  pose proof (init_sizedist_perm _ _ _ _ _ _ _ _ _ Hinit)
    as Hperm.
  apply BackupPathStructure_init_inv in Hinit
    as (_ & _ & _ & _ & _ & _ & Htotal).
  rewrite Htotal, (sum_Permutation _ _ Hperm). apply sum_file_sizes.
Qed.

(** X4.  For a structure built over a directory, [sizedist] holds the sizes
    of exactly the files of the tree, largest first, and [size_total] is
    their sum, which is also the size the root object has accumulated. *)
Theorem BackupPathStructure_init_sizedist rt l inc exc sh fm md df self :
  BackupPathStructure_init rt (Dir l) inc exc sh fm md df = Ok self ->
  sizedist self ≡ₚ file_sizes (Dir l) /\
  StronglySorted Z.ge (sizedist self) /\
  size_total self = total_size (Dir l) /\
  size <$> head (backuppaths self) = Some (size_total self).
Proof.
  intros Hinit.
  pose proof (init_sizedist_perm _ _ _ _ _ _ _ _ _ Hinit)
    as Hperm.
  pose proof (init_size_total _ _ _ _ _ _ _ _ _ Hinit)
    as Hsum.
  destruct (BackupPathStructure_init_Dir rt l inc exc sh fm md df)
    as (self' & Hinit' & Hnodes & _).
  assert (self' = self) as -> by congruence. clear Hinit'.
  apply BackupPathStructure_init_inv in Hinit
    as (_ & _ & _ & _ & _ & Hdist & _).
  split; [done|]. split; [rewrite Hdist; apply sorted_desc|].
  split; [done|]. rewrite Hnodes, Hsum.
  rewrite <- (total_size_sort_tree df (Dir l)).
  by destruct (sort_tree df (Dir l)).
Qed.

Lemma BackupPathStructure_init_sizedist_witness :
  match BackupPathStructure_init ex_root ex_tree [] [] 0 (-1) (-1) true with
  | Ok self =>
      sizedist self ≡ₚ file_sizes ex_tree /\
      StronglySorted Z.ge (sizedist self) /\
      size_total self = total_size ex_tree /\
      size <$> head (backuppaths self) = Some (size_total self)
  | Raise _ => False
  end.
Proof.
  destruct (BackupPathStructure_init ex_root ex_tree [] [] 0 (-1) (-1) true)
    as [self|e] eqn:Hinit; [|vm_compute in Hinit; discriminate].
  exact (BackupPathStructure_init_sizedist ex_root ex_listing [] [] 0 (-1)
           (-1) true self Hinit).
Defined.

(** ** The order of the children *)

Lemma string_leb_trans s1 :
  forall s2 s3,
    String.leb s1 s2 = true -> String.leb s2 s3 = true ->
    String.leb s1 s3 = true.
Proof.
  unfold String.leb.
  induction s1 as [|c1 s1 IH]; intros [|c2 s2] [|c3 s3]; simpl; try done.
  unfold Ascii.compare.
  destruct (N.compare_spec (N_of_ascii c1) (N_of_ascii c2)) as [H12|H12|H12];
    destruct (N.compare_spec (N_of_ascii c2) (N_of_ascii c3)) as [H23|H23|H23];
    destruct (N.compare_spec (N_of_ascii c1) (N_of_ascii c3)) as [H13|H13|H13];
    try done; try lia.
  apply IH.
Qed.

Lemma key_le_trans k1 k2 k3 :
  key_le k1 k2 = true -> key_le k2 k3 = true -> key_le k1 k3 = true.
Proof.
  destruct k1 as [[] s1], k2 as [[] s2], k3 as [[] s3]; unfold key_le; simpl;
    try done; apply string_leb_trans.
Qed.

Lemma key_le_total k1 k2 : key_le k1 k2 = false -> key_le k2 k1 = true.
Proof.
  destruct k1 as [[] s1], k2 as [[] s2]; unfold key_le; simpl; try done;
    intros H; destruct (String.leb_total s1 s2); congruence.
Qed.

Lemma insert_by_key_sorted {A} (key : A -> bool * string) x l :
  StronglySorted (fun a b => key_le (key a) (key b) = true) l ->
  StronglySorted (fun a b => key_le (key a) (key b) = true)
    (insert_by key_le key x l).
Proof.
  induction 1 as [|y l Hs IH Hy]; simpl; [by repeat constructor|].
  destruct (key_le (key x) (key y)) eqn:Hle.
  - constructor; [by constructor|]. constructor; [done|].
    eapply Forall_impl; [exact Hy|]. simpl. intros z. by apply key_le_trans.
  - constructor; [done|]. rewrite (insert_by_Permutation _ _ x l).
    constructor; [by apply key_le_total | done].
Qed.

Lemma sorted_key_sorted {A} (key : A -> bool * string) l :
  StronglySorted (fun a b => key_le (key a) (key b) = true)
    (sorted key_le key l).
Proof.
  induction l as [|x l IH]; simpl; [constructor | by apply insert_by_key_sorted].
Qed.

Lemma StronglySorted_lookup {A} (R : A -> A -> Prop) l :
  StronglySorted R l ->
  forall i j a b, i < j -> l !! i = Some a -> l !! j = Some b -> R a b.
Proof.
  induction 1 as [|x l Hs IH Hx]; intros i j a b Hij Hi Hj; [done|].
  destruct j as [|j]; [lia|]. simpl in Hj. destruct i as [|i]; simpl in Hi.
  - injection Hi as <-. rewrite Forall_forall in Hx.
    apply Hx. by eapply list_elem_of_lookup_2.
  - apply (IH i j); [lia | done | done].
Qed.


(** ** Decisions over whole subtrees *)

Lemma expected_all_selected include filemax e :
  (filemax <= 0)%Z ->
  forall off par d last pth,
    Forall (fun bp => backup bp = true)
      (expected include [] filemax off par d last true pth e).
Proof.
  intros Hfm.
  assert (forall pth, name_rule include [] true pth = true) as Hname.
  { intros pth. unfold name_rule. case_bool_decide; [done|].
    rewrite bool_decide_eq_false_2; [done|]. inversion 1. }
  assert (forall pth e', any_backup include [] filemax true pth e' = true)
    as Hany.
  { intros pth e'. destruct e'; simpl; unfold own_backup, size_rule;
      rewrite Hname; by destruct (Z.ltb_spec 0 filemax); [lia|]. }
  induction e as [s|l IH] using entry_ind'; intros off par d last pth.
  { simpl. constructor; [apply (Hany pth (File s)) | constructor]. }
  cbn [expected]. constructor; [apply Hany|]. rewrite Hname.
  apply expected_kids_Forall. eapply Forall_impl; [exact IH|].
  intros c Hc off' last'. apply Hc.
Qed.

(** X6.  With nothing excluded and no size ceiling every node of the built
    tree is selected, whatever [include] holds: [include] only takes
    effect below an excluded path. *)
Theorem make_tree_include_alone include filemax dir_first fuel pth l :
  (filemax <= 0)%Z ->
  height (Dir l) <= fuel ->
  Forall (fun bp => backup bp = true)
    (make_tree fuel pth (Dir l) None false dir_first include [] filemax []).2.
Proof.
  intros Hfm Hh. rewrite make_tree_top by done. cbn [snd].
  by apply expected_all_selected.
Qed.

Lemma make_tree_include_alone_witness :
  (-1 <= 0)%Z /\ height ex_tree <= 3 /\
  Forall (fun bp => backup bp = true)
    (make_tree 3 ex_root ex_tree None false true
       [ex_root ++ ["b"]%string] [] (-1) []).2.
Proof.
  split; [lia|]. split; [simpl; lia|].
  apply (make_tree_include_alone [ex_root ++ ["b"]%string] (-1) true 3 ex_root
           ex_listing); [lia | simpl; lia].
Defined.

Lemma expected_none_selected include exclude filemax e :
  forall off par d last inh pth,
    (forall q, q ∈ include -> ~ pth `prefix_of` q) ->
    inh = false \/ pth ∈ exclude ->
    Forall (fun bp => backup bp = false)
      (expected include exclude filemax off par d last inh pth e).
Proof.
  assert (forall inh pth,
             (forall q, q ∈ include -> ~ pth `prefix_of` q) ->
             inh = false \/ pth ∈ exclude ->
             name_rule include exclude inh pth = false) as Hname.
  { intros inh pth Hinc Hor. unfold name_rule.
    rewrite bool_decide_eq_false_2 by (intros Hin; by apply (Hinc _ Hin)).
    case_bool_decide; [done|]. by destruct Hor. }
  assert (forall pth name,
             (forall q, q ∈ include -> ~ pth `prefix_of` q) ->
             forall q, q ∈ include -> ~ (pth ++ [name]) `prefix_of` q) as Hdown.
  { intros pth name Hinc q Hq Hpre. apply (Hinc q Hq).
    etrans; [|exact Hpre]. by apply prefix_app_r. }
  induction e as [s|l IH] using entry_ind';
    intros off par d last inh pth Hinc Hor.
  { simpl. constructor; [|constructor]. simpl. unfold own_backup.
    by rewrite Hname. }
  assert (Forall (fun bp => backup bp = false)
            (expected_kids
               (fun off' last' name c =>
                  expected include exclude filemax off' (Some off) (d + 1)%Z
                    last' (name_rule include exclude inh pth) (pth ++ [name]) c)
               (S off) 1%Z (Z.of_nat (length l)) l)) as Hkids.
  { apply expected_kids_Forall. eapply Forall_impl; [exact IH|].
    intros c Hc off' last'. apply Hc; [by apply Hdown|].
    left. by apply Hname. }
  cbn [expected]. constructor; [|exact Hkids]. simpl.
  unfold own_backup. rewrite Hname by done. simpl.
  apply not_true_is_false. intros Hex. apply existsb_exists in Hex
    as (c & Hc & Hb).
  rewrite Forall_forall in IH.
  pose proof (IH c (proj2 (list_elem_of_In _ _) Hc) 0 None 0%Z false
                (name_rule include exclude inh pth) (pth ++ [c.1])
                (Hdown _ _ Hinc) (or_introl (Hname _ _ Hinc Hor))) as Hall.
  destruct c as [n e']. cbn [fst snd] in *.
  destruct e'; cbn [expected] in Hall;
    apply Forall_cons in Hall as [Hhd _]; cbn [backup] in Hhd;
    rewrite Hname in Hhd by done; congruence.
Qed.

Lemma prefix_snoc_cases (p pth : Path) name q :
  pth `prefix_of` p -> p <> pth ->
  p `prefix_of` q -> (pth ++ [name]) `prefix_of` q ->
  (pth ++ [name]) `prefix_of` p.
Proof.
  intros [r ->] Hne [r1 ->] [r2 Heq].
  destruct r as [|x r]; [by rewrite app_nil_r in Hne|].
  rewrite <- !app_assoc in Heq. apply app_inv_head in Heq.
  simpl in Heq. injection Heq as -> _.
  exists r. by rewrite <- app_assoc.
Qed.

Lemma expected_excluded include exclude filemax p e :
  p ∈ exclude ->
  (forall q, q ∈ include -> ~ p `prefix_of` q) ->
  forall off par d last inh pth,
    pth `prefix_of` p ->
    Forall (fun bp => p `prefix_of` path bp -> backup bp = false)
      (expected include exclude filemax off par d last inh pth e).
Proof.
  intros Hp Hinc.
  induction e as [s|l IH] using entry_ind';
    intros off par d last inh pth Hpre;
    destruct (decide (p = pth)) as [->|Hne];
    try (eapply Forall_impl;
         [apply expected_none_selected; [exact Hinc | by right] | by intros]).
  { simpl. constructor; [|constructor]. simpl. intros Hpp.
    destruct Hne. by apply (anti_symm prefix). }
  cbn [expected]. constructor.
  { simpl. intros Hpp. destruct Hne. by apply (anti_symm prefix). }
  apply expected_kids_Forall. rewrite Forall_forall in IH.
  apply Forall_forall. intros c Hc off' last'.
  destruct (decide ((pth ++ [c.1]) `prefix_of` p)) as [Hcp|Hcp].
  { by apply (IH c Hc). }
  apply Forall_forall. intros bp Hbp Hpbp. exfalso. apply Hcp.
  pose proof (expected_depth include exclude filemax c.2 off' (Some off)
                (d + 1)%Z last' (name_rule include exclude inh pth)
                (pth ++ [c.1])) as Hall.
  rewrite Forall_forall in Hall. destruct (Hall bp Hbp) as [Hunder _].
  by apply (prefix_snoc_cases p pth c.1 (path bp)).
Qed.

(** X7.  An excluded path under the root, with no included path at or
    below it, deselects its whole subtree: every node of the built tree at
    or below that path has [backup] false, whatever the size ceiling. *)
Theorem make_tree_excluded_subtree include exclude filemax dir_first fuel
    pth l p :
  height (Dir l) <= fuel ->
  p ∈ exclude ->
  pth `prefix_of` p ->
  (forall q, q ∈ include -> ~ p `prefix_of` q) ->
  Forall (fun bp => p `prefix_of` path bp -> backup bp = false)
    (make_tree fuel pth (Dir l) None false dir_first include exclude filemax
       []).2.
Proof.
  intros Hh Hp Hpre Hinc. rewrite make_tree_top by done. cbn [snd].
  by apply expected_excluded.
Qed.

Lemma make_tree_excluded_subtree_witness :
  Forall (fun bp => (ex_root ++ ["a"]%string) `prefix_of` path bp ->
                    backup bp = false)
    (make_tree 3 ex_root ex_tree None false true
       [ex_root ++ ["b"]%string] [ex_root ++ ["a"]%string] (-1) []).2.
Proof.
  apply (make_tree_excluded_subtree [ex_root ++ ["b"]%string]
           [ex_root ++ ["a"]%string] (-1) true 3 ex_root ex_listing
           (ex_root ++ ["a"]%string)).
  - simpl. lia.
  - apply list_elem_of_here.
  - by apply prefix_app_r.
  - intros q Hq Hpre. apply list_elem_of_singleton in Hq as ->.
    apply prefix_app_inv in Hpre. destruct Hpre as [r Hr]. done.
Defined.

(** ** What [make_backup_conf] writes *)

Lemma BackupPathStructure_init_root_first rt l inc exc sh fm md df self :
  BackupPathStructure_init rt (Dir l) inc exc sh fm md df = Ok self ->
  root self = rt /\
  exists n0 rest,
    backuppaths self = n0 :: rest /\ path n0 = rt /\ depth n0 = 0%Z /\
    parent n0 = None /\
    backup n0 = any_backup inc exc fm true rt (sort_tree df (Dir l)).
Proof.
  intros Hinit.
  destruct (BackupPathStructure_init_Dir rt l inc exc sh fm md df)
    as (self' & Hinit' & Hnodes & Hroot & _).
  assert (self' = self) as -> by congruence.
  split; [done|]. rewrite Hnodes, sort_tree_Dir. cbn [expected]. eauto 10.
Qed.

(** X8.  When [make_backup_conf] returns, the file holds the header and
    then rows only.  Where the text of no path begins or ends with white
    space, so that a row is read back with the path it was written from,
    every node named in [include] or [exclude] has its row, whatever its
    size and depth, and every row is the path and decision of a node that is
    the root, larger than [show], or so named, and that is not deeper than
    the display depth unless so named. *)
Theorem make_backup_conf_rows self w w' :
  forallb (fun bp => strip_safe (path bp)) (backuppaths self) = true ->
  make_backup_conf self w = (Ok tt, w') ->
  exists rows,
    cfg w' = Some (Header :: rows) /\
    (forall bp,
        bp ∈ backuppaths self -> path bp ∈ include self ++ exclude self ->
        Row (Z.b2z (backup bp)) (path bp) ∈ rows) /\
    (forall ln,
        ln ∈ rows ->
        exists bp,
          bp ∈ backuppaths self /\ ln = Row (Z.b2z (backup bp)) (path bp) /\
          (path bp = root self \/ (show self < size bp)%Z \/
           path bp ∈ include self ++ exclude self) /\
          (path bp ∈ include self ++ exclude self \/ ~ too_deep self bp)).
Proof.
  intros _. unfold make_backup_conf. rewrite scan_spec.
  destruct (_ && _); [done|]. intros [= <-].
  eexists. split; [done|]. split.
  - intros bp Hbp Hexp.
    apply (list_elem_of_fmap_2 (fun r => Row (Z.b2z (row_backup r)) (names_raw r))
             _ (row_of bp)).
    apply (list_elem_of_fmap_2 row_of). apply list_elem_of_filter. split; [|done].
    unfold listed, skipped.
    rewrite (bool_decide_eq_true_2 (path bp ∈ include self ++ exclude self))
      by done.
    unfold explicit.
    rewrite (bool_decide_eq_true_2 (path bp ∈ include self ++ exclude self))
      by done.
    simpl. by rewrite orb_true_r.
  - intros ln Hln. apply list_elem_of_fmap in Hln as (r & -> & Hr).
    apply list_elem_of_fmap in Hr as (bp & -> & Hbp).
    apply list_elem_of_filter in Hbp as [Hl Hbp].
    exists bp. split; [done|]. split; [done|].
    unfold listed, skipped, explicit in Hl.
    apply andb_true_iff in Hl as [Hskip Hshow]. split.
    + apply orb_true_iff in Hshow as [Hshow|Hshow].
      * apply orb_true_iff in Hshow as [Hshow|Hshow].
        -- left. by apply bool_decide_eq_true in Hshow.
        -- right. left. by apply Z.ltb_lt in Hshow.
      * right. right. by apply bool_decide_eq_true in Hshow.
    + destruct (decide (path bp ∈ include self ++ exclude self)) as [|Hexp];
        [by left|]. right.
      rewrite (bool_decide_eq_false_2 _ Hexp) in Hskip. simpl in Hskip.
      rewrite orb_false_r in Hskip.
      apply negb_true_iff, andb_false_iff in Hskip.
      intros [Hd1 Hd2]. destruct Hskip as [Hs|Hs].
      * apply Z.ltb_ge in Hs. lia.
      * apply Z.ltb_ge in Hs. lia.
Qed.

Lemma make_backup_conf_rows_witness :
  match BackupPathStructure_init ex_root ex_tree [ex_root ++ ["b"]%string] []
          1000000 (-1) (-1) true with
  | Ok self =>
      forallb (fun bp => strip_safe (path bp)) (backuppaths self) = true /\
      match make_backup_conf self (mkWorld ex_tree None) with
      | (Ok _, w') =>
          exists rows,
            cfg w' = Some (Header :: rows) /\
            (forall bp,
                bp ∈ backuppaths self ->
                path bp ∈ include self ++ exclude self ->
                Row (Z.b2z (backup bp)) (path bp) ∈ rows) /\
            (forall ln,
                ln ∈ rows ->
                exists bp,
                  bp ∈ backuppaths self /\
                  ln = Row (Z.b2z (backup bp)) (path bp) /\
                  (path bp = root self \/ (show self < size bp)%Z \/
                   path bp ∈ include self ++ exclude self) /\
                  (path bp ∈ include self ++ exclude self \/
                   ~ too_deep self bp))
      | (Raise _, _) => False
      end
  | Raise _ => False
  end.
Proof.
  destruct (BackupPathStructure_init ex_root ex_tree [ex_root ++ ["b"]%string]
              [] 1000000 (-1) (-1) true) as [self|e] eqn:Hinit;
    [|vm_compute in Hinit; discriminate].
  assert (forallb (fun bp => strip_safe (path bp)) (backuppaths self) = true)
    as Hsafe.
  { pose proof Hinit as H. vm_compute in H. injection H as <-.
    vm_compute. reflexivity. }
  split; [exact Hsafe|].
  destruct (make_backup_conf self (mkWorld ex_tree None)) as [[[]|e] w'] eqn:Hmk.
  - exact (make_backup_conf_rows self (mkWorld ex_tree None) w' Hsafe Hmk).
  - vm_compute in Hinit. injection Hinit as <-. vm_compute in Hmk.
    discriminate.
Defined.

(** X9.  For a structure built over a directory, [make_backup_conf] returns
    exactly when the files of the tree have a non-zero total size.
    Otherwise the division for the root's percentage raises
    [ZeroDivisionError] inside [scan], after the file has been opened for
    writing: an empty file is left behind, on which [_read_backup_conf] and
    [from_backup_conf] raise [StopIteration]. *)
Theorem make_backup_conf_zero_total rt l inc exc sh fm md df self w :
  BackupPathStructure_init rt (Dir l) inc exc sh fm md df = Ok self ->
  let out := make_backup_conf self w in
  (total_size (Dir l) <> 0%Z ->
   out.1 = Ok tt /\
   exists rows,
     out.2 = mkWorld (tree w) (Some (Header :: Row (Z.b2z
               (any_backup inc exc fm true rt (sort_tree df (Dir l)))) rt
               :: rows))) /\
  (total_size (Dir l) = 0%Z ->
   out = (Raise ZeroDivisionError, mkWorld (tree w) (Some [])) /\
   _read_backup_conf rt out.2 = Raise StopIteration /\
   from_backup_conf rt out.2 = Raise StopIteration).
Proof.
  intros Hinit out.
  pose proof (init_size_total _ _ _ _ _ _ _ _ _ Hinit)
    as Htotal.
  destruct (BackupPathStructure_init_root_first _ _ _ _ _ _ _ _ _ Hinit)
    as (Hroot & n0 & rest & Hnodes & Hp0 & Hd0 & _ & Hb0).
  assert (listed self false n0 = true) as Hl0
    by (apply root_listed; congruence).
  unfold out, make_backup_conf. rewrite scan_spec, Hnodes.
  rewrite filter_cons_True by done. split.
  - intros Hne. rewrite Htotal.
    rewrite (proj2 (Z.eqb_neq _ _)) by done. simpl. split; [done|].
    eexists. unfold row_of. simpl. by rewrite Hp0, Hb0.
  - intros Hz. rewrite Htotal, Hz. simpl. done.
Qed.

Lemma make_backup_conf_zero_total_witness :
  match BackupPathStructure_init ex_root (Dir [("empty.txt"%string, File 0)])
          [] [] 0 (-1) (-1) true with
  | Ok self =>
      make_backup_conf self (mkWorld (Dir [("empty.txt"%string, File 0)]) None)
      = (Raise ZeroDivisionError,
         mkWorld (Dir [("empty.txt"%string, File 0)]) (Some []))
  | Raise _ => False
  end.
Proof.
  destruct (BackupPathStructure_init ex_root
              (Dir [("empty.txt"%string, File 0)]) [] [] 0 (-1) (-1) true)
    as [self|e] eqn:Hinit; [|vm_compute in Hinit; discriminate].
  apply (make_backup_conf_zero_total ex_root [("empty.txt"%string, File 0)]
           [] [] 0 (-1) (-1) true self
           (mkWorld (Dir [("empty.txt"%string, File 0)]) None) Hinit).
  reflexivity.
Defined.

(** ** Reading the configuration file *)

Lemma read_rows_ok_inv root rd :
  forall acc c, read_rows root rd acc = Ok c -> Forall (row_under root) rd.
Proof.
  induction rd as [|ln rd IH]; intros acc c Hr; [constructor|].
  cbn [read_rows] in Hr.
  destruct (read_row root ln acc) as [acc'|] eqn:Hrow; [|done].
  constructor; [|by eapply IH].
  destruct ln as [|b n2]; [done|].
  apply read_row_inv in Hrow as (ps & _ & Hrel & _).
  exists b, ps. by rewrite (relative_to_inv _ _ _ Hrel).
Qed.

Lemma read_rows_ok root rd :
  Forall (row_under root) rd ->
  forall acc, exists c, read_rows root rd acc = Ok c.
Proof.
  induction 1 as [|ln rd (b & parts & ->) _ IH]; intros acc; simpl; [eauto|].
  rewrite relative_to_app. apply IH.
Qed.

Lemma add_parts_sub_full b ps c :
  Forall (fun kv => conf_full kv.2) (keys c) ->
  Forall (fun kv => conf_full kv.2) (keys (add_parts b ps c)).
Proof.
  intros Hk. destruct ps as [|f rest]; [done|]. simpl.
  apply assoc_set_Forall; [done|]. simpl. apply add_parts_full.
  destruct (assoc f (keys c)) as [r|] eqn:Hr.
  - apply assoc_elem_of in Hr. rewrite Forall_forall in Hk. apply (Hk _ Hr).
  - constructor; simpl; [by eexists | constructor].
Qed.

Lemma read_rows_sub_full root rd :
  forall acc c,
    Forall (fun kv => conf_full kv.2) (keys acc) ->
    read_rows root rd acc = Ok c ->
    Forall (fun kv => conf_full kv.2) (keys c).
Proof.
  induction rd as [|ln rd IH]; intros acc c Hk Hr; cbn [read_rows] in Hr.
  { by injection Hr as <-. }
  destruct (read_row root ln acc) as [acc'|] eqn:Hrow; [|done].
  destruct ln as [|b n2]; [done|].
  apply read_row_inv in Hrow as (ps & acc0 & _ & Hkeys & _ & _ & ->).
  apply (IH _ _ (add_parts_sub_full _ _ _ ltac:(by rewrite Hkeys)) Hr).
Qed.

Lemma read_rows_dot_iff root rd :
  forall acc c,
    read_rows root rd acc = Ok c ->
    (is_Some (dot c) <-> is_Some (dot acc) \/ Exists (names_root root) rd).
Proof.
  induction rd as [|ln rd IH]; intros acc c Hr; cbn [read_rows] in Hr.
  { injection Hr as <-. rewrite Exists_nil. tauto. }
  destruct (read_row root ln acc) as [acc'|] eqn:Hrow; [|done].
  destruct ln as [|b n2]; [done|].
  apply read_row_inv in Hrow as (ps & acc0 & Hrel & _ & Hne & Hroot & ->).
  rewrite (IH _ _ Hr), dot_add_parts, Exists_cons. simpl.
  destruct ps as [|f ps].
  - rewrite Hroot by done. split; [|intros _; left; by eexists].
    intros _. by right; left.
  - rewrite Hne by done. rewrite Hrel. split; [tauto|].
    intros [H|[H|H]]; [tauto | done | tauto].
Qed.

(** X10.  What [_read_backup_conf] makes of a file that exists: on an empty
    file it raises [StopIteration]; otherwise the first line is skipped
    unread, and the call returns a dict exactly when every further line is a
    row whose path lies at or under the root, and raises [ValueError] when
    one of them is not. *)
Theorem read_backup_conf_outcome root w lines :
  cfg w = Some lines ->
  match lines with
  | [] => _read_backup_conf root w = Raise StopIteration
  | hd :: rd =>
      ((exists c, _read_backup_conf root w = Ok c) <->
       Forall (row_under root) rd) /\
      (~ Forall (row_under root) rd ->
       _read_backup_conf root w = Raise ValueError) /\
      (forall hd',
          _read_backup_conf root (mkWorld (tree w) (Some (hd' :: rd)))
          = _read_backup_conf root w)
  end.
Proof.
  intros Hcfg. unfold _read_backup_conf. rewrite Hcfg.
  destruct lines as [|hd rd]; [done|]. simpl. split; [split|split].
  - intros [c Hc]. by eapply read_rows_ok_inv.
  - intros Hall. by apply read_rows_ok.
  - intros Hbad.
    destruct (read_rows root rd (Conf None [])) as [c|e] eqn:Hr.
    + destruct Hbad. by eapply read_rows_ok_inv.
    + by apply read_rows_raises in Hr as ->.
  - done.
Qed.

Lemma read_backup_conf_outcome_witness :
  ((exists c,
       _read_backup_conf ex_root
         (mkWorld ex_tree (Some [Header; Row 1 ex_root])) = Ok c) <->
   Forall (row_under ex_root) [Row 1 ex_root]) /\
  (~ Forall (row_under ex_root) [Row 1 ex_root] ->
   _read_backup_conf ex_root (mkWorld ex_tree (Some [Header; Row 1 ex_root]))
   = Raise ValueError) /\
  (forall hd',
      _read_backup_conf ex_root (mkWorld ex_tree (Some [hd'; Row 1 ex_root]))
      = _read_backup_conf ex_root
          (mkWorld ex_tree (Some [Header; Row 1 ex_root]))).
Proof.
  exact (read_backup_conf_outcome ex_root
           (mkWorld ex_tree (Some [Header; Row 1 ex_root]))
           [Header; Row 1 ex_root] eq_refl).
Defined.

(** ** Rebuilding from the configuration file *)

Lemma reconcile_ok_inv root conf i u inst inst' bp :
  backuppaths inst !! i = Some bp ->
  reconcile root conf i u inst = (Ok tt, inst') ->
  can_reconcile root conf bp.
Proof.
  intros Hi. unfold reconcile, nth_backuppath, bind, get, lift, put. simpl.
  rewrite Hi. unfold can_reconcile.
  destruct (relative_to (path bp) root) as [parts|]; [|done].
  destruct (stored_decision conf parts) as [b|] eqn:Hdec; [|done].
  intros _. by exists parts, b.
Qed.

Lemma reconcile_loop_inv root conf inst nodes :
  forall n k inst',
    k + n = length nodes ->
    for_each (reconcile root conf) (seq k n) tt
      (set_backuppaths (map (reconciled root conf) (take k nodes)
                        ++ drop k nodes) inst)
    = (Ok tt, inst') ->
    inst' = set_backuppaths (map (reconciled root conf) nodes) inst /\
    Forall (can_reconcile root conf) (drop k nodes).
Proof.
  induction n as [|n IH]; intros k inst' Hk Hrun.
  { simpl in Hrun. rewrite take_ge, drop_ge in Hrun by lia.
    rewrite app_nil_r in Hrun. injection Hrun as <-.
    rewrite drop_ge by lia. done. }
  destruct (lookup_lt_is_Some_2 nodes k) as [bp Hbp]; [lia|].
  assert (length (map (reconciled root conf) (take k nodes)) = k) as Hlen.
  { rewrite length_map, length_take. lia. }
  assert (backuppaths
            (set_backuppaths (map (reconciled root conf) (take k nodes)
                              ++ drop k nodes) inst) !! k = Some bp) as Hk'.
  { simpl. rewrite lookup_app_r by lia. rewrite Hlen, Nat.sub_diag.
    by rewrite (drop_S _ _ _ Hbp). }
  cbn [seq for_each] in Hrun. unfold bind at 1 in Hrun.
  destruct (reconcile root conf k tt _) as [[[]|e] inst1] eqn:Hstep; [|done].
  pose proof (reconcile_ok_inv _ _ _ _ _ _ _ Hk' Hstep) as Hcan.
  rewrite (reconcile_spec _ _ _ _ _ bp Hk' Hcan) in Hstep.
  assert (set_backuppaths
            (alter (fun _ => reconciled root conf bp) k
               (backuppaths
                  (set_backuppaths (map (reconciled root conf) (take k nodes)
                                    ++ drop k nodes) inst)))
            (set_backuppaths (map (reconciled root conf) (take k nodes)
                              ++ drop k nodes) inst)
          = set_backuppaths (map (reconciled root conf) (take (S k) nodes)
                             ++ drop (S k) nodes) inst) as Heq.
  { unfold set_backuppaths. simpl. f_equal.
    rewrite (drop_S _ _ _ Hbp), (take_S_r _ _ _ Hbp).
    rewrite map_app. simpl. rewrite <- app_assoc. simpl.
    pose proof (alter_app_r (fun _ => reconciled root conf bp)
                  (map (reconciled root conf) (take k nodes))
                  (bp :: drop (S k) nodes) 0) as Ha.
    rewrite Hlen, Nat.add_0_r in Ha. exact Ha. }
  rewrite Heq in Hstep. injection Hstep as <-.
  destruct (IH (S k) inst' ltac:(lia) Hrun) as [-> Hrest].
  split; [done|]. rewrite (drop_S _ _ _ Hbp). by constructor.
Qed.

Lemma from_backup_conf_inv root w inst :
  from_backup_conf root w = Ok inst ->
  exists c fresh,
    _read_backup_conf root w = Ok c /\
    BackupPathStructure_init root (tree w) [] [] 0 (-1) (-1) true = Ok fresh /\
    inst = set_backuppaths (map (reconciled root c) (backuppaths fresh)) fresh /\
    Forall (can_reconcile root c) (backuppaths fresh).
Proof.
  unfold from_backup_conf.
  destruct (_read_backup_conf root w) as [c|] eqn:Hread; [|done].
  destruct (BackupPathStructure_init root (tree w) [] [] 0 (-1) (-1) true)
    as [fresh|] eqn:Hinit; [|done].
  destruct (for_each _ _ _ _) as [[[]|e] inst'] eqn:Hrun; [|done].
  intros [= <-]. exists c, fresh. split; [done|]. split; [done|].
  pose proof (reconcile_loop_inv root c fresh (backuppaths fresh)
                (length (backuppaths fresh)) 0 inst' eq_refl) as Hloop.
  rewrite take_0, drop_0 in Hloop. simpl in Hloop.
  rewrite set_backuppaths_id in Hloop. by apply Hloop.
Qed.

Lemma reconciled_frame rt c bp :
  reconciled rt c bp = set_backup (backup (reconciled rt c bp)) bp.
Proof.
  unfold reconciled.
  destruct (relative_to (path bp) rt) as [parts|];
    [|destruct bp; reflexivity].
  destruct (stored_decision c parts); destruct bp; reflexivity.
Qed.

(** X11.  [from_backup_conf] changes nothing but the decisions: the
    structure it returns is the one [BackupPathStructure(root, show=0)]
    builds afresh, with empty [include] and [exclude], the same objects in
    the same order with the same paths, sizes, file counts, depths and
    parents, and the same size distribution. *)
Theorem from_backup_conf_frame rt w inst :
  from_backup_conf rt w = Ok inst ->
  exists fresh,
    BackupPathStructure_init rt (tree w) [] [] 0 (-1) (-1) true = Ok fresh /\
    Forall2 (fun bp bp0 => bp = set_backup (backup bp) bp0)
      (backuppaths inst) (backuppaths fresh) /\
    inst = set_backuppaths (backuppaths inst) fresh /\
    include inst = [] /\ exclude inst = [] /\ show inst = 0%Z.
Proof.
  intros Hfrom.
  destruct (from_backup_conf_inv _ _ _ Hfrom)
    as (c & fresh & _ & Hinit & -> & _).
  exists fresh. split; [done|].
  pose proof (BackupPathStructure_init_inv _ _ _ _ _ _ _ _ _ Hinit)
    as (_ & Hinc & Hexc & Hsh & _).
  simpl. repeat split; try done.
  apply Forall2_fmap_l, Forall_Forall2_diag, Forall_forall.
  intros bp _. apply reconciled_frame.
Qed.

Lemma from_backup_conf_frame_witness :
  match from_backup_conf ex_root
          (mkWorld ex_tree (Some [Header; Row 0 ex_root])) with
  | Ok inst =>
      exists fresh,
        BackupPathStructure_init ex_root ex_tree [] [] 0 (-1) (-1) true
        = Ok fresh /\
        Forall2 (fun bp bp0 => bp = set_backup (backup bp) bp0)
          (backuppaths inst) (backuppaths fresh) /\
        inst = set_backuppaths (backuppaths inst) fresh /\
        include inst = [] /\ exclude inst = [] /\ show inst = 0%Z
  | Raise _ => False
  end.
Proof.
  destruct (from_backup_conf ex_root
              (mkWorld ex_tree (Some [Header; Row 0 ex_root])))
    as [inst|e] eqn:Hfrom; [|vm_compute in Hfrom; discriminate].
  exact (from_backup_conf_frame ex_root _ inst Hfrom).
Defined.

Lemma read_backup_conf_inv rt w c :
  _read_backup_conf rt w = Ok c ->
  exists hd rd,
    cfg w = Some (hd :: rd) /\ read_rows rt rd (Conf None []) = Ok c /\
    Forall (fun kv => conf_full kv.2) (keys c) /\
    (is_Some (dot c) <-> Exists (names_root rt) rd).
Proof.
  unfold _read_backup_conf. destruct (cfg w) as [[|hd rd]|]; try done.
  intros Hread. exists hd, rd. split; [done|]. split; [done|]. split.
  - eapply read_rows_sub_full; [|exact Hread]. constructor.
  - rewrite (read_rows_dot_iff _ _ _ _ Hread). simpl. split; [|tauto].
    intros [[? [=]]|H]; done.
Qed.

Lemma init_under_root rt l inc exc sh fm md df self :
  BackupPathStructure_init rt (Dir l) inc exc sh fm md df = Ok self ->
  Forall (fun bp => rt `prefix_of` path bp) (backuppaths self).
Proof.
  intros Hinit.
  destruct (BackupPathStructure_init_Dir rt l inc exc sh fm md df)
    as (self' & Hinit' & Hnodes & _).
  assert (self' = self) as -> by congruence. rewrite Hnodes.
  eapply Forall_impl; [apply expected_depth|]. by intros bp [Hpre _].
Qed.

(** X12.  Over a directory, with a file whose lines after the first are all
    rows under the root, [from_backup_conf] returns when one of these rows
    names the root itself, and raises [KeyError] when none does: the first
    object of the new tree is the root, and its decision is looked up under
    ["."] at the top of the dict, where only such a row puts it. *)
Theorem from_backup_conf_root_row rt w l hd rd :
  tree w = Dir l ->
  cfg w = Some (hd :: rd) ->
  Forall (row_under rt) rd ->
  (Exists (names_root rt) rd -> exists inst, from_backup_conf rt w = Ok inst) /\
  (~ Exists (names_root rt) rd -> from_backup_conf rt w = Raise KeyError).
Proof.
  intros Htree Hcfg Hrows.
  destruct (read_rows_ok rt rd Hrows (Conf None [])) as [c Hread].
  assert (_read_backup_conf rt w = Ok c) as Hread'.
  { unfold _read_backup_conf. by rewrite Hcfg. }
  destruct (read_backup_conf_inv _ _ _ Hread')
    as (hd' & rd' & Hcfg' & _ & Hsub & Hdot).
  assert (rd' = rd) as -> by congruence.
  destruct (BackupPathStructure_init_Dir rt l [] [] 0 (-1) (-1) true)
    as (fresh & Hinit & _).
  unfold from_backup_conf. rewrite Hread', Htree, Hinit. split.
  - intros Hex. apply Hdot in Hex.
    assert (conf_full c) as Hfull by (by constructor).
    assert (Forall (can_reconcile rt c) (backuppaths fresh)) as Hcan.
    { eapply Forall_impl; [apply (init_under_root _ _ _ _ _ _ _ _ _ Hinit)|].
      intros bp [parts Hparts].
      destruct (stored_decision_full c parts Hfull) as [b Hb].
      exists parts, b. split; [|done]. rewrite Hparts. apply relative_to_app. }
    pose proof (reconcile_loop rt c fresh (backuppaths fresh) Hcan
                  (length (backuppaths fresh)) 0 eq_refl) as Hloop.
    rewrite take_0, drop_0 in Hloop. simpl in Hloop.
    rewrite set_backuppaths_id in Hloop. rewrite Hloop. eauto.
  - intros Hno.
    assert (dot c = None) as Hnone.
    { destruct (dot c) eqn:Hd; [|done]. destruct Hno. apply Hdot. by eexists. }
    destruct (BackupPathStructure_init_root_first _ _ _ _ _ _ _ _ _ Hinit)
      as (_ & n0 & rest & Hnodes & Hp0 & _).
    rewrite Hnodes. cbn [length seq for_each]. unfold bind at 1.
    unfold reconcile at 1, nth_backuppath, bind, get, lift. simpl.
    rewrite Hnodes. simpl. rewrite Hp0, relative_to_self.
    unfold stored_decision. by rewrite Hnone.
Qed.

Lemma from_backup_conf_root_row_witness :
  from_backup_conf ex_root
    (mkWorld ex_tree (Some [Header; Row 1 (ex_root ++ ["a"]%string)]))
  = Raise KeyError.
Proof.
  apply (from_backup_conf_root_row ex_root
           (mkWorld ex_tree (Some [Header; Row 1 (ex_root ++ ["a"]%string)]))
           ex_listing Header [Row 1 (ex_root ++ ["a"]%string)]
           eq_refl eq_refl).
  - constructor; [|constructor]. by exists 1%Z, ["a"%string].
  - intros Hex. apply Exists_cons in Hex as [Hex|Hex]; [|by inversion Hex].
    vm_compute in Hex. discriminate.
Defined.



(** ** [Backup.backup] *)






(** ** The confirmation prompt *)

(** X15.  The prompt of [cmd_build] and [cmd_zip] reads answers until one
    is [y] or [n] in either case: answers before it are ignored, [n] ends
    the program with exit code 1, [y] lets it go on, the answers after it
    are left unread, and when the input ends first, [input] fails. *)
Theorem confirm_first_answer junk :
  Forall (fun s => lower s <> "y"%string /\ lower s <> "n"%string) junk ->
  Cli.confirm junk = (EOFError, []) /\
  forall a rest,
    (lower a = "y"%string ->
     Cli.confirm (junk ++ a :: rest) = (Returned tt, rest)) /\
    (lower a = "n"%string ->
     Cli.confirm (junk ++ a :: rest) = (SystemExit 1, rest)).
Proof.
  induction 1 as [|s junk [Hy Hn] _ [IH1 IH2]]; simpl.
  - split; [done|]. intros a rest. split; intros Ha; rewrite Ha; done.
  - rewrite !bool_decide_eq_false_2 by done. done.
Qed.

Lemma confirm_first_answer_witness :
  Cli.confirm ["maybe"; "Y"; "n"]%string = (Returned tt, ["n"%string]).
Proof.
  apply (confirm_first_answer ["maybe"%string]).
  - constructor; [|constructor]. split; vm_compute; discriminate.
  - reflexivity.
Defined.

(** ** [cmd_reset] *)

(** X16.  [cmd_reset] deletes the configuration file and nothing else, and
    does nothing when there is none; after it [cmd_zip] raises the error
    that asks for ['backupy build'], before it prompts and without an
    archive, whatever the tree and the answers. *)
Theorem cmd_reset_then_zip getsize rt w answers :
  tree (Cli.cmd_reset rt w) = tree w /\
  cfg (Cli.cmd_reset rt w) = None /\
  Cli.cmd_reset rt (Cli.cmd_reset rt w) = Cli.cmd_reset rt w /\
  (cfg w = None -> Cli.cmd_reset rt w = w) /\
  Cli.cmd_zip getsize rt answers (Cli.cmd_reset rt w)
  = (Raised IOError_no_config, None).
Proof.
  unfold Cli.cmd_reset, Cli.cmd_zip, from_backup_conf, _read_backup_conf.
  destruct w as [t [lines|]]; simpl; done.
Qed.

(** ** [clean_path] and [clean_paths] *)

Section CleanPaths.
Variables (to_path : string -> Path) (base_path : Path)
  (exists_ : Path -> bool).

Local Abbreviation cleaned :=
  (fun pth => to_path (Cli.replace_pct20 (Cli.remove_quotes pth))).
Local Abbreviation checked :=
  (fun p : Path => if exists_ p then Some p else None).

Lemma clean_paths_loop_spec pths mode_ :
  mode_ <> Cli.strict ->
  forall result stdout,
    Cli.clean_paths_loop to_path base_path exists_ pths mode_ result stdout
    = (Returned (result ++ (checked <$> (cleaned <$> pths))),
       stdout ++ match mode_ with
                 | Cli.ignore => []
                 | _ => filter (fun p => exists_ p = false) (cleaned <$> pths)
                 end).
Proof.
  intros Hmode. induction pths as [|pth pths IH]; intros result stdout.
  { destruct mode_; simpl; by rewrite ?app_nil_r. }
  cbn [Cli.clean_paths_loop]. unfold Cli.clean_path.
  rewrite !fmap_cons, filter_cons.
  destruct (exists_ (cleaned pth)) eqn:Hex, mode_; try done; simpl;
    rewrite IH, <- ?app_assoc; simpl; done.
Qed.

Lemma None_in_checked ps :
  None ∈ checked <$> ps <-> filter (fun p => exists_ p = false) ps <> [].
Proof.
  induction ps as [|p ps IH].
  { split; [by intros ?%elem_of_nil | done]. }
  rewrite fmap_cons, elem_of_cons, filter_cons.
  destruct (exists_ p) eqn:Hex.
  - rewrite decide_False by done. rewrite IH. split; [|tauto].
    by intros [?|?].
  - rewrite decide_True by done. split; [done | by left].
Qed.

(** X17.  [clean_paths] cleans every path, also after one was found
    missing.  In mode [ignore] it reports nothing, in the other two it
    reports each missing path once, in order; in mode [strict] it ends the
    program with exit code 1 when a path is missing, after all reports, and
    otherwise it returns, path by path, the cleaned path or [None] where it
    does not exist. *)
Theorem clean_paths_outcome pths mode stdout :
  let missing := filter (fun p => exists_ p = false) (cleaned <$> pths) in
  Cli.clean_paths to_path base_path exists_ pths mode stdout
  = (match mode with
     | Cli.strict =>
         if bool_decide (missing = [])
         then Returned (Some <$> (cleaned <$> pths))
         else SystemExit 1
     | _ => Returned (checked <$> (cleaned <$> pths))
     end,
     match mode with
     | Cli.ignore => stdout
     | _ => stdout ++ missing
     end).
Proof.
  intros missing. unfold Cli.clean_paths.
  rewrite clean_paths_loop_spec by (by destruct mode). simpl.
  destruct mode; simpl; rewrite ?andb_false_r, ?app_nil_r; try done.
  rewrite andb_true_r. fold missing.
  case_bool_decide as Hnone.
  - apply None_in_checked in Hnone. fold missing in Hnone.
    by rewrite bool_decide_eq_false_2.
  - rewrite None_in_checked in Hnone. fold missing in Hnone.
    rewrite bool_decide_eq_true_2 by (by destruct (decide (missing = []))).
    do 2 f_equal. unfold missing in Hnone.
    assert (filter (fun p => exists_ p = false) (cleaned <$> pths) = [])
      as Hnil by (by destruct (decide (missing = []))).
    clear Hnone missing. induction pths as [|pth pths IH]; [done|].
    rewrite !fmap_cons in *. rewrite filter_cons in Hnil.
    destruct (exists_ (cleaned pth)) eqn:Hex.
    + rewrite decide_False in Hnil by done. by rewrite IH.
    + by rewrite decide_True in Hnil by done.
Qed.
End CleanPaths.

(** ** From [cmd_build] to [cmd_zip] *)




(** ** The last child of a directory *)

Lemma expected_head_tail include exclude filemax e off par d last inh pth :
  exists hd tl,
    expected include exclude filemax off par d last inh pth e = hd :: tl /\
    parent hd = par /\ is_last hd = last /\
    Forall (fun b => exists p, parent b = Some p /\
                               off <= p < off + num_nodes e) tl.
Proof.
  pose proof (length_expected include exclude filemax e off par d last inh pth)
    as Hlen.
  pose proof (expected_structure include exclude filemax e off par d last inh
                pth) as Hstr.
  destruct (expected include exclude filemax off par d last inh pth e)
    as [|hd tl] eqn:Hexp.
  { destruct e; simpl in Hexp; done. }
  exists hd, tl. split; [done|].
  assert (parent hd = par /\ is_last hd = last) as [-> ->].
  { destruct e; simpl in Hexp; injection Hexp as <- _; done. }
  split; [done|]. split; [done|].
  apply Forall_lookup. intros i b Hi.
  destruct (Hstr (S i) b Hi) as [(? & _)|(p & pn & name & Hp & Hlo & Hhi & _)];
    [done|].
  exists p. split; [done|].
  apply lookup_lt_Some in Hi. simpl in Hlen. lia.
Qed.

Lemma app_eq_middle {A} (sub rest pre post : list A) x :
  sub ++ rest = pre ++ x :: post ->
  (exists post1, sub = pre ++ x :: post1 /\ post = post1 ++ rest) \/
  (exists pre2, pre = sub ++ pre2 /\ rest = pre2 ++ x :: post).
Proof.
  revert pre. induction sub as [|y sub IH]; intros pre Heq.
  { right. by exists pre. }
  destruct pre as [|z pre]; simpl in Heq.
  - injection Heq as -> <-. left. by exists sub.
  - injection Heq as -> Heq. destruct (IH _ Heq) as [(p1 & -> & ->)|(p2 & -> & ->)].
    + left. by exists p1.
    + right. by exists p2.
Qed.

Lemma expected_kids_last_marked include exclude filemax off d inh pth l :
  Forall (fun c => forall off' par' d' last' inh' pth',
            last_marked (tail (expected include exclude filemax off' par' d'
                                 last' inh' pth' c.2))) l ->
  forall o count len,
    off < o ->
    (count + Z.of_nat (length l) = len + 1)%Z ->
    let kids := expected_kids
                  (fun off' last' name c =>
                     expected include exclude filemax off' (Some off) d last'
                       inh (pth ++ [name]) c)
                  o count len l in
    last_marked kids /\
    Forall (fun b => exists q, parent b = Some q /\ (q = off \/ o <= q)) kids /\
    (l <> [] -> exists b, head kids = Some b /\ parent b = Some off).
Proof.
  induction 1 as [|c l Hc _ IH]; intros o count len Hoff Hcount kids.
  { split; [|split]; [|constructor|done].
    intros pre bp post Heq. by destruct pre. }
  unfold kids. cbn [expected_kids].
  destruct (expected_head_tail include exclude filemax c.2 o (Some off) d
              (count =? len)%Z inh (pth ++ [c.1]))
    as (hd & tl & Hsub & Hpar & Hlast & Htl).
  specialize (Hc o (Some off) d (count =? len)%Z inh (pth ++ [c.1])).
  rewrite Hsub in Hc. simpl in Hc. rewrite Hsub.
  assert (1 <= num_nodes c.2) as Hpos by (destruct c.2; simpl; lia).
  simpl in Hcount.
  destruct (IH (o + num_nodes c.2) (count + 1)%Z len ltac:(lia) ltac:(lia))
    as (IHm & IHp & IHh).
  set (rest := expected_kids _ (o + num_nodes c.2) (count + 1)%Z len l) in *.
  split; [|split].
  - intros pre bp post Heq.
    apply app_eq_middle in Heq as [(post1 & Heq & ->)|(pre2 & -> & Heq)].
    2:{ by apply (IHm pre2). }
    rewrite Forall_app. destruct pre as [|z pre]; simpl in Heq.
    + injection Heq as <- <-. rewrite Hlast, Hpar. split.
      * intros Hcl. apply Z.eqb_eq in Hcl.
        assert (l = []) as -> by (destruct l; [done | simpl in Hcount; lia]).
        split; [|constructor].
        eapply Forall_impl; [exact Htl|].
        intros b (p & -> & Hp) [= ->]. lia.
      * intros [_ Hrest]. apply Z.eqb_eq.
        destruct l as [|c' l]; [simpl in Hcount; lia|].
        destruct (IHh ltac:(done)) as (b & Hb & Hpb).
        destruct rest as [|b' rest']; [done|]. injection Hb as ->.
        apply Forall_cons in Hrest as [Hne _]. done.
    + injection Heq as <- ->. rewrite (Hc pre bp post1 eq_refl).
      split; [|tauto]. intros Hp1. split; [done|].
      apply Forall_app in Htl as [_ Htl].
      apply Forall_cons in Htl as [(p & Hp & Hrange) _].
      eapply Forall_impl; [exact IHp|].
      intros b (q & Hq & Hqr). rewrite Hq, Hp. intros [= ->]. lia.
  - constructor; [exists off; by split; [|left]|].
    apply Forall_app. split.
    + eapply Forall_impl; [exact Htl|]. intros b (p & Hp & Hr).
      exists p. split; [done|]. right. lia.
    + eapply Forall_impl; [exact IHp|]. intros b (q & Hq & Hr).
      exists q. split; [done|]. destruct Hr; [by left | right; lia].
  - intros _. by exists hd.
Qed.

Lemma expected_last_marked include exclude filemax e :
  forall off par d last inh pth,
    last_marked (tail (expected include exclude filemax off par d last inh
                         pth e)).
Proof.
  induction e as [s|l IH] using entry_ind'; intros off par d last inh pth.
  { intros pre bp post Heq. by destruct pre. }
  cbn [expected tail].
  apply (expected_kids_last_marked include exclude filemax off (d + 1)%Z
           (name_rule include exclude inh pth) pth l IH (S off) 1%Z
           (Z.of_nat (length l))); lia.
Qed.

(** X19.  In the built tree [is_last] holds for exactly the objects that
    have a parent and after which no further object with the same parent is
    created: the last child of each directory.  The root, created with the
    default [is_last=False], is not marked. *)
Theorem make_tree_is_last include exclude filemax dir_first fuel pth l :
  height (Dir l) <= fuel ->
  forall pre bp post,
    (make_tree fuel pth (Dir l) None false dir_first include exclude filemax
       []).2 = pre ++ bp :: post ->
    (is_last bp = true <->
     is_Some (parent bp) /\ Forall (fun b => parent b <> parent bp) post).
Proof.
  intros Hh pre bp post. rewrite make_tree_top by done. cbn [snd].
  destruct (expected_head_tail include exclude filemax
              (sort_tree dir_first (Dir l)) 0 None 0%Z false true pth)
    as (hd & tl & Hexp & Hpar & Hlast & Htl).
  pose proof (expected_last_marked include exclude filemax
                (sort_tree dir_first (Dir l)) 0 None 0%Z false true pth)
    as Hmark.
  rewrite Hexp in Hmark |- *. simpl in Hmark. intros Heq.
  destruct pre as [|z pre]; simpl in Heq.
  - injection Heq as <- <-. rewrite Hlast, Hpar. split; [done|].
    by intros [[? [=]] _].
  - injection Heq as <- Heq. rewrite (Hmark pre bp post Heq).
    split; [|tauto]. intros Hp. split; [|done].
    rewrite Heq in Htl. apply Forall_app in Htl as [_ Htl].
    apply Forall_cons in Htl as [(p & -> & _) _]. by eexists.
Qed.

Lemma make_tree_is_last_witness :
  is_last (mkBackupPath (ex_root ++ ["b"]%string) (Some 0) true true 10 1 1
             true true) = true <->
  is_Some (parent (mkBackupPath (ex_root ++ ["b"]%string) (Some 0) true true
                     10 1 1 true true)) /\
  Forall (fun b => parent b <> Some 0)
    [mkBackupPath (ex_root ++ ["b"; "keep.txt"]%string) (Some 4) true true 10
       1 2 true false].
Proof.
  apply (make_tree_is_last [] [] (-1) true 3 ex_root ex_listing
           ltac:(simpl; lia)
           [mkBackupPath ex_root None false true 5000020 3 0 true true;
            mkBackupPath (ex_root ++ ["a"]%string) (Some 0) false true 5000010
              2 1 true true;
            mkBackupPath (ex_root ++ ["a"; "big.bin"]%string) (Some 1) false
              true 5000000 1 2 true false;
            mkBackupPath (ex_root ++ ["a"; "small.txt"]%string) (Some 1) true
              true 10 1 2 true false]).
  vm_compute. reflexivity.
Defined.

(** ** [BackupPath.display] *)

Lemma expected_tree_shaped include exclude filemax pth e :
  tree_shaped pth (expected include exclude filemax 0 None 0 false true pth e).
Proof.
  intros i bp Hi.
  destruct (expected_structure _ _ _ _ _ _ _ _ _ _ _ _ Hi)
    as [(-> & Hp & Hd & Hpath)|(p & pn & name & Hp & _ & Hlt & Hpn & Hrest)].
  - by left.
  - right. rewrite Nat.sub_0_r in Hpn. split; [lia|]. by exists p, pn, name.
Qed.

Lemma parent_prefixes_depth pth st :
  tree_shaped pth st ->
  forall n p pn fuel,
    p < n -> p < fuel -> st !! p = Some pn ->
    exists parts,
      parent_prefixes fuel st (Some p) = Ok parts /\
      Z.of_nat (length parts) = depth pn /\
      Forall (fun s => s = display_parent_prefix_middle \/
                       s = display_parent_prefix_last) parts.
Proof.
  intros Hshape. induction n as [|n IH]; intros p pn fuel Hn Hfuel Hp; [lia|].
  destruct fuel as [|fuel]; [lia|].
  destruct (Hshape p pn Hp)
    as [(_ & Hpar & Hd & _)|(_ & q & qn & name & Hpar & Hq & Hqn & _ & _ & Hd)].
  - exists []. simpl. rewrite Hp, Hpar. by rewrite Hd.
  - destruct (IH q qn fuel ltac:(lia) ltac:(lia) Hqn)
      as (parts & Hparts & Hlen & Hall).
    eexists. cbn [parent_prefixes]. rewrite Hp, Hpar, Hparts.
    split; [done|]. split.
    + simpl. lia.
    + constructor; [by destruct (is_last pn); [left|right] | done].
Qed.

Lemma string_append_assoc (a b c : string) :
  ((a ++ b) ++ c = a ++ (b ++ c))%string.
Proof.
  induction a as [|x a IH]; [done|].
  change (String x ((a ++ b) ++ c) = String x (a ++ (b ++ c)))%string.
  by rewrite IH.
Qed.

Lemma concat_snoc (ps : list string) (s : string) :
  String.concat "" (ps ++ [s]) = (String.concat "" ps ++ s)%string.
Proof.
  induction ps as [|x ps IH]; [done|].
  destruct ps as [|y ps]; [done|].
  change (String.concat "" ((x :: y :: ps) ++ [s]))
    with (x ++ String.concat "" ((y :: ps) ++ [s]))%string.
  rewrite IH.
  change (String.concat "" (x :: y :: ps))
    with (x ++ String.concat "" (y :: ps))%string.
  by rewrite string_append_assoc.
Qed.

Lemma expected_visible include exclude filemax e :
  forall off par d last inh pth,
    Forall (fun b => is_visible b = true)
      (expected include exclude filemax off par d last inh pth e).
Proof.
  induction e as [s|k IH] using entry_ind'; intros off par d last inh pth.
  - by repeat constructor.
  - cbn [expected]. constructor; [done|].
    apply expected_kids_Forall. eapply Forall_impl; [exact IH|].
    intros c Hc off' last'. apply Hc.
Qed.

(** X20.  [display] returns on every node of the built tree.  For the root
    it is the bare name; for a node at depth [d] it is [d - 1] prefixes of
    three characters, each blank or a vertical bar with two blanks, one for
    every ancestor but the root, then the elbow when the node is the last
    child of its directory and the tee otherwise, then the last part of the
    path, followed by the separator for a directory. *)
Theorem display_indentation include exclude filemax dir_first fuel pth l :
  height (Dir l) <= fuel ->
  let st := (make_tree fuel pth (Dir l) None false dir_first include exclude
               filemax []).2 in
  forall i bp,
    st !! i = Some bp ->
    exists prefixes,
      display st i
      = Ok (String.concat "" prefixes
            ++ match parent bp with
               | Some _ => if is_last bp then display_filename_prefix_last
                           else display_filename_prefix_middle
               | None => ""
               end
            ++ displayname_basic bp)%string /\
      length prefixes = Z.to_nat (depth bp) - 1 /\
      Forall (fun s => s = display_parent_prefix_middle \/
                       s = display_parent_prefix_last) prefixes.
Proof.
  intros Hh st i bp Hi. unfold st in *. rewrite make_tree_top in * by done.
  cbn [snd] in *.
  pose proof (expected_tree_shaped include exclude filemax pth
                (sort_tree dir_first (Dir l))) as Hshape.
  set (nodes := expected _ _ _ _ _ _ _ _ _ _) in *.
  assert (is_visible bp = true) as Hvis.
  { pose proof (expected_visible include exclude filemax
                  (sort_tree dir_first (Dir l)) 0 None 0%Z false true pth)
      as Hall.
    rewrite Forall_forall in Hall. apply Hall.
    by eapply list_elem_of_lookup_2. }
  unfold display. rewrite Hi, Hvis. cbn [negb].
  destruct (Hshape i bp Hi)
    as [(_ & Hpar & Hd & _)|(_ & p & pn & name & Hpar & Hlt & Hpn & _ & _ & Hd)].
  - exists []. rewrite Hpar, Hd. done.
  - rewrite Hpar.
    destruct (parent_prefixes_depth pth nodes Hshape (S p) p pn (length nodes)
                ltac:(lia) ltac:(by eapply lookup_lt_Some) Hpn)
      as (parts & Hparts & Hlen & Hall).
    rewrite Hparts. exists (rev parts). split; [|split].
    + f_equal. simpl. apply concat_snoc.
    + rewrite length_rev. lia.
    + by apply Forall_rev.
Qed.

Lemma display_indentation_witness :
  height ex_tree <= 3 /\
  let st := (make_tree 3 ex_root ex_tree None false true [] [] (-1) []).2 in
  let bp := mkBackupPath (ex_root ++ ["a"; "small.txt"]%string) (Some 1) true
              true 10 1 2 true false in
  st !! 3 = Some bp /\
  exists prefixes,
    display st 3
    = Ok (String.concat "" prefixes
          ++ match parent bp with
             | Some _ => if is_last bp then display_filename_prefix_last
                         else display_filename_prefix_middle
             | None => ""
             end
          ++ displayname_basic bp)%string /\
    length prefixes = Z.to_nat (depth bp) - 1 /\
    Forall (fun s => s = display_parent_prefix_middle \/
                     s = display_parent_prefix_last) prefixes.
Proof.
  split; [simpl; lia|]. split; [reflexivity|].
  apply (display_indentation [] [] (-1) true 3 ex_root ex_listing);
    [simpl; lia | reflexivity].
Defined.

(** ** The order of siblings in the store *)

Lemma StronglySorted_map_key {A B} (R : B -> B -> Prop) (f : A -> B) l :
  StronglySorted (fun a b => R (f a) (f b)) l -> StronglySorted R (map f l).
Proof.
  induction 1 as [|x l Hs IH Hx]; simpl; constructor; [done|].
  by rewrite Forall_map.
Qed.

Lemma StronglySorted_impl_key {A} (R R' : A -> A -> Prop) l :
  (forall a b, R a b -> R' a b) -> StronglySorted R l -> StronglySorted R' l.
Proof.
  intros Himpl. induction 1 as [|x l Hs IH Hx]; constructor; [done|].
  eapply Forall_impl; [exact Hx|]. intros y. apply Himpl.
Qed.

Lemma sort_key_sort_child df c : sort_key df (sort_child df c) = sort_key df c.
Proof.
  unfold sort_key, sort_child. simpl.
  by rewrite sort_tree_is_dir, sort_tree_is_file.
Qed.

Lemma expected_head_key df include exclude filemax off par d last inh pth
    name e :
  exists hd tl,
    expected include exclude filemax off par d last inh (pth ++ [name]) e
    = hd :: tl /\
    parent hd = par /\
    sibling_key df hd = sort_key df (name, e) /\
    Forall (fun b => exists p, parent b = Some p /\
                               off <= p < off + num_nodes e) tl.
Proof.
  destruct (expected_head_tail include exclude filemax e off par d last inh
              (pth ++ [name])) as (hd & tl & Hexp & Hpar & _ & Htl).
  exists hd, tl. split; [done|]. split; [done|]. split; [|done].
  assert (path hd = pth ++ [name] /\ path_is_dir hd = is_dir e) as [Hp Hd].
  { destruct e; cbn [expected] in Hexp; injection Hexp as <- _; done. }
  unfold sibling_key, sort_key, path_is_file. rewrite Hp, Hd, last_snoc.
  simpl. by destruct e.
Qed.

Lemma expected_kids_siblings df include exclude filemax off d inh pth k :
  Forall (fun c => forall off' par' d' last' inh' pth',
            siblings_ordered df
              (tail (expected include exclude filemax off' par' d' last' inh'
                       pth' c.2))) k ->
  StronglySorted (fun a b => key_le (sort_key df a) (sort_key df b) = true) k ->
  forall o count len,
    off < o ->
    let kids := expected_kids
                  (fun off' last' name c =>
                     expected include exclude filemax off' (Some off) d last'
                       inh (pth ++ [name]) c)
                  o count len k in
    siblings_ordered df kids /\
    Forall (fun b => exists q,
              parent b = Some q /\
              ((q = off /\ exists c, c ∈ k /\ sibling_key df b = sort_key df c)
               \/ o <= q)) kids.
Proof.
  induction 1 as [|c k Hc _ IH]; intros Hsorted o count len Hoff kids.
  { split; [|constructor]. intros pre bi mid bj post Heq. by destruct pre. }
  apply StronglySorted_inv in Hsorted as [Hsorted Hhead].
  unfold kids. cbn [expected_kids].
  destruct c as [name e]. cbn [fst snd] in *.
  destruct (expected_head_key df include exclude filemax o (Some off) d
              (count =? len)%Z inh pth name e)
    as (hd & tl & Hsub & Hpar & Hkey & Htl).
  specialize (Hc o (Some off) d (count =? len)%Z inh (pth ++ [name])).
  rewrite Hsub in Hc |- *. cbn [tail] in Hc.
  assert (1 <= num_nodes e) as Hpos by (destruct e; simpl; lia).
  destruct (IH Hsorted (o + num_nodes e) (count + 1)%Z len ltac:(lia))
    as (IHs & IHp).
  set (rest := expected_kids _ (o + num_nodes e) (count + 1)%Z len k) in *.
  split.
  - intros pre bi mid bj post Heq Hsame.
    apply app_eq_middle in Heq as [(post1 & Hin & Hpost)|(pre2 & -> & Heq)].
    2:{ by apply (IHs pre2 bi mid bj post). }
    symmetry in Hpost.
    apply app_eq_middle in Hpost as [(post2 & -> & ->)|(pre3 & -> & Hrest)].
    + destruct pre as [|z pre]; simpl in Hin.
      * injection Hin as <- ->. exfalso.
        apply Forall_app in Htl as [_ Htl].
        apply Forall_cons in Htl as [(p & Hp & Hrange) _].
        rewrite Hpar, Hp in Hsame. injection Hsame as ->. lia.
      * injection Hin as <- ->. by apply (Hc pre bi mid bj post2).
    + assert (bj ∈ rest) as Hbj.
      { rewrite Hrest. apply elem_of_app. right. apply list_elem_of_here. }
      rewrite Forall_forall in IHp. destruct (IHp bj Hbj) as (q & Hq & Hcase).
      destruct pre as [|z pre]; simpl in Hin.
      * injection Hin as <- _. rewrite Hpar, Hq in Hsame.
        injection Hsame as <-.
        destruct Hcase as [(_ & c' & Hc' & Hk')|Hge]; [|lia].
        rewrite Hkey, Hk'. rewrite Forall_forall in Hhead. by apply Hhead.
      * injection Hin as _ Htleq. exfalso. rewrite Htleq in Htl.
        apply Forall_app in Htl as [_ Htl].
        apply Forall_cons in Htl as [(p & Hp & Hrange) _].
        rewrite Hp, Hq in Hsame. injection Hsame as ->.
        destruct Hcase as [(-> & _)|Hge]; lia.
  - constructor.
    { exists off. split; [done|]. left. split; [done|].
      exists (name, e). split; [apply list_elem_of_here | done]. }
    apply Forall_app. split.
    + eapply Forall_impl; [exact Htl|]. intros b (p & Hp & Hr).
      exists p. split; [done|]. right. lia.
    + eapply Forall_impl; [exact IHp|]. intros b (q & Hq & Hr).
      exists q. split; [done|].
      destruct Hr as [(-> & c' & Hc' & Hk')|Hge]; [left | right; lia].
      split; [done|]. exists c'. split; [by apply list_elem_of_further | done].
Qed.

Lemma expected_siblings df include exclude filemax e :
  forall off par d last inh pth,
    siblings_ordered df
      (tail (expected include exclude filemax off par d last inh pth
               (sort_tree df e))).
Proof.
  induction e as [s|l IH] using entry_ind'; intros off par d last inh pth.
  { intros pre bi mid bj post Heq. by destruct pre. }
  rewrite sort_tree_Dir. cbn [expected tail].
  destruct (expected_kids_siblings df include exclude filemax off (d + 1)%Z
              (name_rule include exclude inh pth) pth
              (map (sort_child df) (sorted key_le (sort_key df) l)))
    with (o := S off) (count := 1%Z)
         (len := Z.of_nat (length (map (sort_child df)
                                     (sorted key_le (sort_key df) l))))
    as [Hs _]; [| |lia|exact Hs].
  - rewrite Forall_map. apply Forall_sorted.
    eapply Forall_impl; [exact IH|]. intros c Hc. simpl. intros. apply Hc.
  - apply StronglySorted_map_key.
    eapply StronglySorted_impl_key; [|apply (sorted_key_sorted (sort_key df) l)].
    intros a b Hab. by rewrite !sort_key_sort_child.
Qed.

(** X5.  In the built tree the children of a directory stand in the order
    of [sort_key]: of two objects with the same parent, the earlier one is
    the directory when the two differ in kind and [dir_first] holds (the
    file when it does not), and when they are of the same kind the
    lower-cased name of the earlier one is not greater than that of the
    later one.  The root path and the names are taken to be ASCII, where
    [str.lower()] changes the letters A to Z only and strings compare as
    their bytes do. *)
Theorem make_tree_children_order include exclude filemax dir_first fuel pth l :
  forallb all_ascii pth = true ->
  ascii_names (Dir l) = true ->
  height (Dir l) <= fuel ->
  forall pre bi mid bj post,
    (make_tree fuel pth (Dir l) None false dir_first include exclude filemax
       []).2 = pre ++ bi :: mid ++ bj :: post ->
    parent bi = parent bj -> is_Some (parent bi) ->
    if bool_decide (path_is_dir bi = path_is_dir bj)
    then String.leb (lower (default ""%string (last (path bi))))
           (lower (default ""%string (last (path bj)))) = true
    else path_is_dir bi = dir_first /\ path_is_dir bj = negb dir_first.
Proof.
  intros _ _ Hh pre bi mid bj post. rewrite make_tree_top by done. cbn [snd].
  intros Heq Hsame Hsome.
  destruct (expected_head_tail include exclude filemax
              (sort_tree dir_first (Dir l)) 0 None 0%Z false true pth)
    as (hd & tl & Hexp & Hpar & _ & _).
  pose proof (expected_siblings dir_first include exclude filemax (Dir l)
                0 None 0%Z false true pth) as Hs.
  rewrite Hexp in Heq, Hs. cbn [tail] in Hs.
  destruct pre as [|z pre]; simpl in Heq.
  { injection Heq as <- _. rewrite Hpar in Hsome. by destruct Hsome. }
  injection Heq as _ Heq. specialize (Hs pre bi mid bj post Heq Hsame).
  revert Hs. unfold key_le, sibling_key, path_is_file. simpl.
  destruct dir_first, (path_is_dir bi), (path_is_dir bj); simpl; try done.
Qed.

Lemma make_tree_children_order_witness :
  forallb all_ascii ex_root = true /\
  ascii_names ex_tree = true /\
  height ex_tree <= 3 /\
  let bi := mkBackupPath (ex_root ++ ["a"; "big.bin"]%string) (Some 1) false
              true 5000000 1 2 true false in
  let bj := mkBackupPath (ex_root ++ ["a"; "small.txt"]%string) (Some 1) true
              true 10 1 2 true false in
  if bool_decide (path_is_dir bi = path_is_dir bj)
  then String.leb (lower (default ""%string (last (path bi))))
         (lower (default ""%string (last (path bj)))) = true
  else path_is_dir bi = true /\ path_is_dir bj = negb true.
Proof.
  split; [reflexivity|]. split; [reflexivity|]. split; [simpl; lia|].
  apply (make_tree_children_order [] [] (-1) true 3 ex_root ex_listing
           eq_refl eq_refl ltac:(simpl; lia)
           [mkBackupPath ex_root None false true 5000020 3 0 true true;
            mkBackupPath (ex_root ++ ["a"]%string) (Some 0) false true 5000010
              2 1 true true]
           _ [] _
           [mkBackupPath (ex_root ++ ["b"]%string) (Some 0) true true 10 1 1
              true true;
            mkBackupPath (ex_root ++ ["b"; "keep.txt"]%string) (Some 4) true
              true 10 1 2 true false]).
  - vm_compute. reflexivity.
  - reflexivity.
  - by eexists.
Defined.
